(** * LAN Racer: the authoritative game server and the client's state filter

    A shallow embedding of [projects/server_test_11.py] (class [GameServer])
    and of the receive branch of [projects/client_test_9.py].

    Conventions of the model.
    - A Python [float] (scores, positions, timestamps, durations) is the
      rational of type [Q] it stands for, and arithmetic on floats is exact,
      with one exception: where the code truncates a float to an integer
      ([int(base_penalty * penalty_multiplier)]) a rounding error shows as
      a whole point, so that product is computed as binary64 does, every
      operation rounded to the nearest representable value, ties to even.
      A Python [int] is a [Z].
    - [self.players] is an insertion-ordered dictionary keyed by the sender's
      address: an association list, since the collision loop depends on the
      iteration order.
    - Every handler and every per-tick update runs under [self.lock]; each is
      one atomic function on the server record.  Clock reads ([time.time()])
      and random draws are arguments of the function that performs them.
    - [self.sock.sendto] is modelled by the list of datagrams a handler
      returns.
    - An exception that would leave the game loop ([IndexError],
      [ZeroDivisionError]) is the result [None]. *)

From Stdlib Require Import ZArith QArith Lqa Lia List String Bool.
From Stdlib Require Import Qround Qabs Qpower DecimalString.
Import ListNotations.

Open Scope Q_scope.

(** ** Python numerics *)

Definition Qltb (a b : Q) : bool := negb (Qle_bool b a).

(** [max(a, b)] keeps its first argument unless the second is larger. *)
Definition py_max (a b : Q) : Q := if Qltb a b then b else a.

(** [min(a, b)] keeps its first argument unless the second is smaller. *)
Definition py_min (a b : Q) : Q := if Qltb b a then b else a.

(** [int(x)] truncates toward zero. *)
Definition py_int (q : Q) : Z := Z.quot (Qnum q) (Zpos (Qden q)).

(** *** Binary64

    The integer nearest to [q], ties to the even one. *)
Definition round_half_even (q : Q) : Z :=
  let f := Qfloor q in
  let r := q - inject_Z f in
  if Qltb r (1 # 2) then f
  else if Qltb (1 # 2) r then (f + 1)%Z
  else if Z.even f then f else (f + 1)%Z.

(** The binary64 value nearest to [q], ties to even: [q] is scaled by the
    power of two that brings it into [2^52, 2^53), rounded to an integer and
    scaled back.  The exponent is not bounded: no value the server computes
    this way is below 0.3 or anywhere near 2^1024. *)
Definition binary64 (q : Q) : Q :=
  if Qeq_bool q 0 then 0
  else
    let a := Qabs q in
    let e0 := (Z.log2 (Qnum a) - Z.log2 (Zpos (Qden a)) - 52)%Z in
    let e := if Qltb (a / 2 ^ e0) (2 ^ 52) then (e0 - 1)%Z else e0 in
    let m := round_half_even (a / 2 ^ e) in
    (if Qltb q 0 then - inject_Z m else inject_Z m) * 2 ^ e.

(** [float(n)], [a + b] and [a * b] on floats. *)
Definition float_of_int (n : Z) : Q := binary64 (inject_Z n).
Definition float_add (a b : Q) : Q := binary64 (a + b).
Definition float_mul (a b : Q) : Q := binary64 (a * b).

(** Truthiness of an optional float such as [self.start_time]. *)
Definition truthy (o : option Q) : bool :=
  match o with
  | Some t => negb (Qeq_bool t 0)
  | None => false
  end.

(** ** Insertion-ordered dictionaries *)

Section PyDict.
Variables K V : Type.
Variable eqb : K -> K -> bool.

Fixpoint dict_get (k : K) (d : list (K * V)) : option V :=
  match d with
  | [] => None
  | (k', v) :: rest => if eqb k k' then Some v else dict_get k rest
  end.

Definition dict_mem (k : K) (d : list (K * V)) : bool :=
  match dict_get k d with Some _ => true | None => false end.

(** [d[k] = v]: overwrite in place, or append a new key at the end. *)
Fixpoint dict_set (k : K) (v : V) (d : list (K * V)) : list (K * V) :=
  match d with
  | [] => [(k, v)]
  | (k', v') :: rest =>
      if eqb k k' then (k', v) :: rest else (k', v') :: dict_set k v rest
  end.

(** [del d[k]] *)
Fixpoint dict_del (k : K) (d : list (K * V)) : list (K * V) :=
  match d with
  | [] => []
  | (k', v') :: rest =>
      if eqb k k' then rest else (k', v') :: dict_del k rest
  end.

Definition dict_values (d : list (K * V)) : list V := map snd d.

(** Apply [f] to every value, keeping keys and order: the shape of
    [for player in self.players.values(): <mutate player>]. *)
Definition dict_map (f : V -> V) (d : list (K * V)) : list (K * V) :=
  map (fun kv => (fst kv, f (snd kv))) d.
End PyDict.

Arguments dict_get {K V} eqb k d.
Arguments dict_mem {K V} eqb k d.
Arguments dict_set {K V} eqb k v d.
Arguments dict_del {K V} eqb k d.
Arguments dict_values {K V} d.
Arguments dict_map {K V} f d.

(** A UDP peer: host and port. *)
Definition Addr : Type := (string * Z)%type.

Definition addr_eqb (a b : Addr) : bool :=
  String.eqb (fst a) (fst b) && Z.eqb (snd a) (snd b).

(** ** Data classes *)

Module Player.
Record t : Type := mk {
  name : string;
  lane : Z;
  target_lane : Z;
  score : Q;
  blink : Q;
  last_heartbeat : Q;
  addr : Addr;
  x : Q;
  y : Q;
  id : Z;
  finished : bool;
  move_progress : Q;
  consecutive_collisions : Z;
  last_collision_time : Q;
  vertical_speed : Q;
  target_y : Q
}.

Definition set_name v p :=
  mk v (lane p) (target_lane p) (score p) (blink p) (last_heartbeat p)
     (addr p) (x p) (y p) (id p) (finished p) (move_progress p)
     (consecutive_collisions p) (last_collision_time p) (vertical_speed p)
     (target_y p).
Definition set_lane v p :=
  mk (name p) v (target_lane p) (score p) (blink p) (last_heartbeat p)
     (addr p) (x p) (y p) (id p) (finished p) (move_progress p)
     (consecutive_collisions p) (last_collision_time p) (vertical_speed p)
     (target_y p).
Definition set_target_lane v p :=
  mk (name p) (lane p) v (score p) (blink p) (last_heartbeat p)
     (addr p) (x p) (y p) (id p) (finished p) (move_progress p)
     (consecutive_collisions p) (last_collision_time p) (vertical_speed p)
     (target_y p).
Definition set_score v p :=
  mk (name p) (lane p) (target_lane p) v (blink p) (last_heartbeat p)
     (addr p) (x p) (y p) (id p) (finished p) (move_progress p)
     (consecutive_collisions p) (last_collision_time p) (vertical_speed p)
     (target_y p).
Definition set_blink v p :=
  mk (name p) (lane p) (target_lane p) (score p) v (last_heartbeat p)
     (addr p) (x p) (y p) (id p) (finished p) (move_progress p)
     (consecutive_collisions p) (last_collision_time p) (vertical_speed p)
     (target_y p).
Definition set_last_heartbeat v p :=
  mk (name p) (lane p) (target_lane p) (score p) (blink p) v
     (addr p) (x p) (y p) (id p) (finished p) (move_progress p)
     (consecutive_collisions p) (last_collision_time p) (vertical_speed p)
     (target_y p).
Definition set_x v p :=
  mk (name p) (lane p) (target_lane p) (score p) (blink p) (last_heartbeat p)
     (addr p) v (y p) (id p) (finished p) (move_progress p)
     (consecutive_collisions p) (last_collision_time p) (vertical_speed p)
     (target_y p).
Definition set_y v p :=
  mk (name p) (lane p) (target_lane p) (score p) (blink p) (last_heartbeat p)
     (addr p) (x p) v (id p) (finished p) (move_progress p)
     (consecutive_collisions p) (last_collision_time p) (vertical_speed p)
     (target_y p).
Definition set_finished v p :=
  mk (name p) (lane p) (target_lane p) (score p) (blink p) (last_heartbeat p)
     (addr p) (x p) (y p) (id p) v (move_progress p)
     (consecutive_collisions p) (last_collision_time p) (vertical_speed p)
     (target_y p).
Definition set_move_progress v p :=
  mk (name p) (lane p) (target_lane p) (score p) (blink p) (last_heartbeat p)
     (addr p) (x p) (y p) (id p) (finished p) v
     (consecutive_collisions p) (last_collision_time p) (vertical_speed p)
     (target_y p).
Definition set_consecutive_collisions v p :=
  mk (name p) (lane p) (target_lane p) (score p) (blink p) (last_heartbeat p)
     (addr p) (x p) (y p) (id p) (finished p) (move_progress p)
     v (last_collision_time p) (vertical_speed p) (target_y p).
Definition set_last_collision_time v p :=
  mk (name p) (lane p) (target_lane p) (score p) (blink p) (last_heartbeat p)
     (addr p) (x p) (y p) (id p) (finished p) (move_progress p)
     (consecutive_collisions p) v (vertical_speed p) (target_y p).
Definition set_vertical_speed v p :=
  mk (name p) (lane p) (target_lane p) (score p) (blink p) (last_heartbeat p)
     (addr p) (x p) (y p) (id p) (finished p) (move_progress p)
     (consecutive_collisions p) (last_collision_time p) v (target_y p).
Definition set_target_y v p :=
  mk (name p) (lane p) (target_lane p) (score p) (blink p) (last_heartbeat p)
     (addr p) (x p) (y p) (id p) (finished p) (move_progress p)
     (consecutive_collisions p) (last_collision_time p) (vertical_speed p) v.
End Player.

(** The keys of [OBSTACLE_TYPES]. *)
Inductive ObstacleType : Type := car | truck | bus | bike | rock.

Module Obstacle.
Record t : Type := mk {
  lane : Z;
  y : Q;
  x : Q;
  id : Q;
  type : ObstacleType;
  width : Q;
  height : Q;
  speed : Q;
  penalty : Z;
  color : string
}.

Definition set_y v o :=
  mk (lane o) v (x o) (id o) (type o) (width o) (height o) (speed o)
     (penalty o) (color o).
End Obstacle.

(** One entry of [OBSTACLE_TYPES]. *)
Record ObstacleProps : Type := mkProps {
  props_width : Q;
  props_height : Q;
  props_speed : Q;
  props_penalty : Z;
  props_color : string;
  props_spawn_weight : Q;
  props_min_cooldown : Q
}.

Definition OBSTACLE_TYPES (ty : ObstacleType) : ObstacleProps :=
  match ty with
  | car => mkProps 80 120 140 10 "#FF6B6B" 0.6 1.2
  | truck => mkProps 100 160 110 20 "#4ECDC4" 0.3 1.5
  | bus => mkProps 90 180 100 25 "#45B7D1" 0.1 2.0
  | bike => mkProps 60 80 160 5 "#96CEB4" 0.4 0.8
  | rock => mkProps 70 70 130 15 "#A1887F" 0.2 1.0
  end.

(** ** Constants of [GameServer.__init__] *)

Definition TICK_RATE : Q := 60.
Definition BASE_GAME_DURATION : Q := 40.
Definition MAX_SCORE : Q := 300.
Definition HEARTBEAT_TIMEOUT : Q := 5.
Definition SCREEN_H : Q := 700.
Definition LANE_X : list Q := [300; 500; 700].
Definition PLAYER_Y : Q := 300.
Definition LANE_CHANGE_DURATION : Q := 0.3.
Definition VERTICAL_SPEED : Q := 200.
Definition MIN_PLAYER_Y : Q := 100.
Definition MAX_PLAYER_Y : Q := 600.
Definition BLINK_DURATION : Q := 1.5.
Definition COLLISION_COOLDOWN : Q := 2.
Definition COLLISION_RESET_TIME : Q := 3.
Definition BASE_OBSTACLE_COOLDOWN : Q := 1.5.
Definition BASE_OBSTACLE_PROBABILITY : Q := 0.7.
Definition MAX_OBSTACLES : nat := 8.

(** [MAX_SCORE / (GAME_DURATION * TICK_RATE)], fixed at construction time when
    [GAME_DURATION] is still [BASE_GAME_DURATION]. *)
Definition POINTS_PER_TICK : Q := MAX_SCORE / (BASE_GAME_DURATION * TICK_RATE).

(** [LANE_X[i]] with Python indexing: negative indices count from the end,
    anything else out of range raises [IndexError] ([None]). *)
Definition lane_x (i : Z) : option Q :=
  let n := Z.of_nat (List.length LANE_X) in
  if (0 <=? i)%Z && (i <? n)%Z then nth_error LANE_X (Z.to_nat i)
  else if (- n <=? i)%Z && (i <? 0)%Z then nth_error LANE_X (Z.to_nat (i + n))
  else None.

(** ** The server object *)

Record GameServer : Type := mkServer {
  GAME_DURATION : Q;
  game_progress : Q;
  difficulty_level : Z;
  obstacles_spawned : Z;
  obstacle_cooldown : Q;
  obstacle_probability : Q;
  obstacle_speed_multiplier : Q;
  players : list (Addr * Player.t);
  obstacles : list Obstacle.t;
  game_running : bool;
  start_time : option Q;
  last_obstacle_spawn : Q;
  next_player_id : Z;
  state_sequence : Z;
  total_obstacles_spawned : Z;
  total_collisions : Z
}.

Definition set_players v (s : GameServer) : GameServer :=
  mkServer (GAME_DURATION s) (game_progress s) (difficulty_level s)
    (obstacles_spawned s) (obstacle_cooldown s) (obstacle_probability s)
    (obstacle_speed_multiplier s) v (obstacles s) (game_running s)
    (start_time s) (last_obstacle_spawn s) (next_player_id s)
    (state_sequence s) (total_obstacles_spawned s) (total_collisions s).

(** The state built by [__init__]. *)
Definition init_server : GameServer :=
  mkServer BASE_GAME_DURATION 0 1 0 BASE_OBSTACLE_COOLDOWN
    BASE_OBSTACLE_PROBABILITY 1 [] [] false None 0 1 0 0 0.

(** Datagrams the server sends. *)
Inductive ServerMsg : Type :=
| join_ack (id : Z) (blink_duration collision_cooldown : Q)
    (* the constant table [OBSTACLE_TYPES] it also carries is left out *)
| heartbeat_ack.

Definition set_next_player_id v (s : GameServer) : GameServer :=
  mkServer (GAME_DURATION s) (game_progress s) (difficulty_level s)
    (obstacles_spawned s) (obstacle_cooldown s) (obstacle_probability s)
    (obstacle_speed_multiplier s) (players s) (obstacles s) (game_running s)
    (start_time s) (last_obstacle_spawn s) v
    (state_sequence s) (total_obstacles_spawned s) (total_collisions s).

Definition set_game_running v (s : GameServer) : GameServer :=
  mkServer (GAME_DURATION s) (game_progress s) (difficulty_level s)
    (obstacles_spawned s) (obstacle_cooldown s) (obstacle_probability s)
    (obstacle_speed_multiplier s) (players s) (obstacles s) v
    (start_time s) (last_obstacle_spawn s) (next_player_id s)
    (state_sequence s) (total_obstacles_spawned s) (total_collisions s).

(** ** Session handlers *)

(** The decoded fields of an [input] datagram, after [bool(msg.get(k, 0))]. *)
Record InputMsg : Type := mkInput {
  left : bool;
  right : bool;
  up : bool;
  down : bool
}.

(** [LANE_X[1]]: the index is a literal, so the lookup cannot fail. *)
Definition middle_lane_x : Q := nth 1 LANE_X 0.

(** [Player(...)] as [handle_join] calls it; the remaining fields take the
    dataclass defaults. *)
Definition new_player (name : string) (a : Addr) (now : Q) (player_id : Z)
  : Player.t :=
  let start_lane := 1%Z in
  Player.mk name start_lane start_lane 0 0 now a middle_lane_x PLAYER_Y
    player_id false 1 0 0 0 PLAYER_Y.

(** [handle_join(msg, addr)]; [msg_name] is [msg.get("name")] when present. *)
Definition handle_join (msg_name : option string) (a : Addr) (now : Q)
    (s : GameServer) : GameServer * list (ServerMsg * Addr) :=
  let name :=
    substring 0 20 (match msg_name with Some n => n | None => "Player" end) in
  let '(s', player_id) :=
    match dict_get addr_eqb a (players s) with
    | Some p =>
        let p := Player.set_name name p in
        let p := Player.set_last_heartbeat now p in
        (set_players (dict_set addr_eqb a p (players s)) s, Player.id p)
    | None =>
        let player_id := next_player_id s in
        let s1 := set_next_player_id (next_player_id s + 1)%Z s in
        (set_players
           (dict_set addr_eqb a (new_player name a now player_id) (players s1))
           s1,
         player_id)
    end in
  (s', [(join_ack player_id BLINK_DURATION COLLISION_COOLDOWN, a)]).

(** The body of [handle_input] for the player found at [addr]. *)
Definition input_player (msg : InputMsg) (now : Q) (running : bool)
    (player : Player.t) : Player.t :=
  let player :=
    if up msg && negb (down msg) then
      Player.set_vertical_speed (- VERTICAL_SPEED) player
    else if down msg && negb (up msg) then
      Player.set_vertical_speed VERTICAL_SPEED player
    else Player.set_vertical_speed 0 player in
  let player :=
    if Qle_bool 1 (Player.move_progress player) && running then
      let target_lane := Player.lane player in
      let current_time := now in
      let can_change_lane :=
        Qltb 0.5 (current_time - Player.last_collision_time player) in
      let target_lane :=
        if can_change_lane then
          if left msg && negb (right msg) && (0 <? Player.lane player)%Z
          then (Player.lane player - 1)%Z
          else if right msg && negb (left msg) && (Player.lane player <? 2)%Z
          then (Player.lane player + 1)%Z
          else target_lane
        else target_lane in
      if negb (target_lane =? Player.lane player)%Z then
        Player.set_move_progress 0 (Player.set_target_lane target_lane player)
      else player
    else player in
  Player.set_last_heartbeat now player.

(** [handle_input(msg, addr)]; both clock reads of the handler are the one
    instant [now].  Nothing is ever sent back. *)
Definition handle_input (msg : InputMsg) (a : Addr) (now : Q)
    (s : GameServer) : GameServer * list (ServerMsg * Addr) :=
  match dict_get addr_eqb a (players s) with
  | Some player =>
      if negb (game_running s) then (s, [])
      else
        (set_players
           (dict_set addr_eqb a (input_player msg now (game_running s) player)
              (players s)) s,
         [])
  | None => (s, [])
  end.

(** [handle_heartbeat(addr)] *)
Definition handle_heartbeat (a : Addr) (now : Q) (s : GameServer)
  : GameServer * list (ServerMsg * Addr) :=
  let s' :=
    match dict_get addr_eqb a (players s) with
    | Some p =>
        set_players
          (dict_set addr_eqb a (Player.set_last_heartbeat now p) (players s)) s
    | None => s
    end in
  (s', [(heartbeat_ack, a)]).

(** [handle_leave(addr)] *)
Definition handle_leave (a : Addr) (s : GameServer) : GameServer :=
  if dict_mem addr_eqb a (players s)
  then set_players (dict_del addr_eqb a (players s)) s
  else s.

(** [check_timeouts()]: the new state and whether anybody was dropped. *)
Definition check_timeouts (now : Q) (s : GameServer) : GameServer * bool :=
  let timed_out (kv : Addr * Player.t) :=
    Qltb HEARTBEAT_TIMEOUT (now - Player.last_heartbeat (snd kv)) in
  let timeout_players := filter timed_out (players s) in
  (set_players (filter (fun kv => negb (timed_out kv)) (players s)) s,
   negb (Nat.eqb (List.length timeout_players) 0)).

(** ** Movement *)

(** [ease_out_back(x)] *)
Definition ease_out_back (x : Q) : Q :=
  let c1 := 1.70158 in
  let c2 := c1 * 1.525 in
  1 + c2 * (x - 1) ^ 3 + c1 * (x - 1) ^ 2.

(** One iteration of the loop of [update_player_movements]; [None] is the
    [IndexError] of a lane outside [LANE_X]. *)
Definition move_player (progress dt : Q) (player : Player.t)
  : option Player.t :=
  let moved :=
    if Qltb (Player.move_progress player) 1 then
      let transition_speed := LANE_CHANGE_DURATION in
      let transition_speed :=
        if Qltb 0.7 progress then transition_speed * 0.8
        else transition_speed in
      let player :=
        Player.set_move_progress
          (Player.move_progress player + dt / transition_speed) player in
      let player :=
        Player.set_move_progress (py_min 1 (Player.move_progress player))
          player in
      match lane_x (Player.lane player),
            lane_x (Player.target_lane player) with
      | Some start_x, Some target_x =>
          let eased := ease_out_back (Player.move_progress player) in
          let player :=
            Player.set_x (start_x + (target_x - start_x) * eased) player in
          if Qle_bool 1 (Player.move_progress player) then
            let player := Player.set_lane (Player.target_lane player) player in
            match lane_x (Player.lane player) with
            | Some cx => Some (Player.set_x cx player)
            | None => None
            end
          else Some player
      | _, _ => None
      end
    else Some player in
  match moved with
  | Some player =>
      if negb (Qeq_bool (Player.vertical_speed player) 0) then
        let new_y := Player.y player + Player.vertical_speed player * dt in
        Some (Player.set_y
                (py_max MIN_PLAYER_Y (py_min MAX_PLAYER_Y new_y)) player)
      else Some player
  | None => None
  end.

(** The loop over [self.players.values()]: stops at the first exception. *)
Fixpoint move_all (progress dt : Q) (ps : list (Addr * Player.t))
  : option (list (Addr * Player.t)) :=
  match ps with
  | [] => Some []
  | (a, p) :: rest =>
      match move_player progress dt p with
      | Some p' =>
          match move_all progress dt rest with
          | Some rest' => Some ((a, p') :: rest')
          | None => None
          end
      | None => None
      end
  end.

(** [update_player_movements(dt)] *)
Definition update_player_movements (dt : Q) (s : GameServer)
  : option GameServer :=
  match move_all (game_progress s) dt (players s) with
  | Some ps => Some (set_players ps s)
  | None => None
  end.

(** ** Difficulty and obstacles *)

(** [calculate_game_progress(current_time)]; [None] is [ZeroDivisionError]. *)
Definition calculate_game_progress (current_time : Q) (s : GameServer)
  : option Q :=
  if negb (truthy (start_time s)) then Some 0
  else
    match start_time s with
    | Some t0 =>
        let elapsed := current_time - t0 in
        if Qeq_bool (GAME_DURATION s) 0 then None
        else Some (py_min 1 (elapsed / GAME_DURATION s))
    | None => Some 0
    end.

(** [update_difficulty()]; [None] is [ZeroDivisionError]. *)
Definition update_difficulty (s : GameServer) : option GameServer :=
  let progress_factor := 1 + game_progress s * 1.5 in
  let player_count := inject_Z (Z.of_nat (List.length (players s))) in
  let player_factor := py_max 0.7 (1.3 - player_count * 0.15) in
  let performance_factor :=
    if existsb (fun kv => Qltb (MAX_SCORE * 0.7) (Player.score (snd kv)))
         (players s)
    then 1.2 else 1 in
  let difficulty := progress_factor * player_factor * performance_factor in
  if Qeq_bool difficulty 0 then None
  else
    Some (mkServer
            (BASE_GAME_DURATION * (1 + (difficulty - 1) * 0.3))
            (game_progress s) (difficulty_level s) (obstacles_spawned s)
            (py_max 0.5 (BASE_OBSTACLE_COOLDOWN / difficulty))
            (py_min 0.95 (BASE_OBSTACLE_PROBABILITY * difficulty))
            (1 + game_progress s * 0.8)
            (players s) (obstacles s) (game_running s) (start_time s)
            (last_obstacle_spawn s) (next_player_id s) (state_sequence s)
            (total_obstacles_spawned s) (total_collisions s)).

(** The three random draws one spawn attempt may consume:
    [random.random()], [random.randint(0, 2)] and the key returned by
    [random.choices(obstacle_types, weights)]. *)
Record SpawnDraw : Type := mkDraw {
  draw_random : Q;
  draw_lane : Z;
  draw_type : ObstacleType
}.

(** [Obstacle(...)] as [update_obstacles] builds it. *)
Definition new_obstacle (current_time : Q) (lane_choice : Z)
    (obstacle_type : ObstacleType) (obstacle_x : Q) : Obstacle.t :=
  let props := OBSTACLE_TYPES obstacle_type in
  Obstacle.mk lane_choice (- props_height props) obstacle_x current_time
    obstacle_type (props_width props) (props_height props) (props_speed props)
    (props_penalty props) (props_color props).

(** The movement loop of [update_obstacles] for one obstacle. *)
Definition advance_obstacle (s : GameServer) (dt : Q) (obs : Obstacle.t)
  : Obstacle.t :=
  let type_speed := Obstacle.speed obs in
  let speed_multiplier := obstacle_speed_multiplier s in
  let speed_multiplier :=
    if Qltb 0.8 (game_progress s) then speed_multiplier * 1.2
    else speed_multiplier in
  Obstacle.set_y (Obstacle.y obs + (type_speed * speed_multiplier) * dt) obs.

Definition on_screen (obs : Obstacle.t) : bool :=
  Qltb (Obstacle.y obs) (SCREEN_H + Obstacle.height obs + 100).

(** [update_obstacles(current_time, dt)] *)
Definition update_obstacles (current_time dt : Q) (d : SpawnDraw)
    (s : GameServer) : option GameServer :=
  match calculate_game_progress current_time s with
  | None => None
  | Some gp =>
      let s :=
        mkServer (GAME_DURATION s) gp (difficulty_level s)
          (obstacles_spawned s) (obstacle_cooldown s) (obstacle_probability s)
          (obstacle_speed_multiplier s) (players s) (obstacles s)
          (game_running s) (start_time s) (last_obstacle_spawn s)
          (next_player_id s) (state_sequence s) (total_obstacles_spawned s)
          (total_collisions s) in
      match update_difficulty s with
      | None => None
      | Some s =>
          let new_obstacles :=
            filter on_screen (map (advance_obstacle s dt) (obstacles s)) in
          let moved spawned last_spawn obs :=
            mkServer (GAME_DURATION s) (game_progress s) (difficulty_level s)
              (obstacles_spawned s + spawned)%Z (obstacle_cooldown s)
              (obstacle_probability s) (obstacle_speed_multiplier s)
              (players s) obs (game_running s) (start_time s) last_spawn
              (next_player_id s) (state_sequence s)
              (total_obstacles_spawned s + spawned)%Z (total_collisions s) in
          if game_running s then
            let time_since_last_spawn :=
              current_time - last_obstacle_spawn s in
            let can_spawn :=
              Qle_bool (obstacle_cooldown s) time_since_last_spawn
              && Nat.ltb (List.length new_obstacles) MAX_OBSTACLES
              && Qltb (draw_random d) (obstacle_probability s) in
            if can_spawn then
              match lane_x (draw_lane d) with
              | Some obstacle_x =>
                  Some (moved 1%Z current_time
                          (new_obstacles ++
                           [new_obstacle current_time (draw_lane d)
                              (draw_type d) obstacle_x]))
              | None => None
              end
            else Some (moved 0%Z (last_obstacle_spawn s) new_obstacles)
          else Some (moved 0%Z (last_obstacle_spawn s) new_obstacles)
      end
  end.

(** ** Collisions *)

(** [check_collision(player, obstacle)] *)
Definition check_collision (player : Player.t) (obstacle : Obstacle.t)
  : bool :=
  let player_left := Player.x player - 30 in
  let player_right := Player.x player + 30 in
  let player_top := Player.y player - 40 in
  let player_bottom := Player.y player + 40 in
  let padding := 5 in
  let obstacle_left :=
    Obstacle.x obstacle - Obstacle.width obstacle / 2 + padding in
  let obstacle_right :=
    Obstacle.x obstacle + Obstacle.width obstacle / 2 - padding in
  let obstacle_top :=
    Obstacle.y obstacle - Obstacle.height obstacle / 2 + padding in
  let obstacle_bottom :=
    Obstacle.y obstacle + Obstacle.height obstacle / 2 - padding in
  Qltb obstacle_left player_right
  && Qltb player_left obstacle_right
  && Qltb obstacle_top player_bottom
  && Qltb player_top obstacle_bottom.

(** The penalty of a hit: [obs.penalty], rescaled and truncated by [int]
    when the player is already in a streak.  The counter and the base
    penalty are integers, [0.3] and [1.0] float literals: both products and
    the sum are float operations. *)
Definition hit_penalty (obs : Obstacle.t) (player : Player.t) : Z :=
  let base_penalty := Obstacle.penalty obs in
  if (0 <? Player.consecutive_collisions player)%Z then
    let penalty_multiplier :=
      float_add 1
        (float_mul (float_of_int (Player.consecutive_collisions player))
           (binary64 0.3)) in
    py_int (float_mul (float_of_int base_penalty) penalty_multiplier)
  else base_penalty.

(** The lazy reset of the streak counter at the top of the inner loop. *)
Definition lazy_reset (current_time : Q) (player : Player.t) : Player.t :=
  if Qltb COLLISION_RESET_TIME (current_time - Player.last_collision_time player)
  then Player.set_consecutive_collisions 0 player
  else player.

(** The four assignments of the "apply penalty" block. *)
Definition apply_hit (current_time : Q) (obs : Obstacle.t)
    (player : Player.t) : Player.t :=
  let base_penalty := hit_penalty obs player in
  let player :=
    Player.set_score
      (py_max 0 (Player.score player - inject_Z base_penalty)) player in
  let player := Player.set_blink current_time player in
  let player := Player.set_last_collision_time current_time player in
  Player.set_consecutive_collisions
    (Player.consecutive_collisions player + 1)%Z player.

(** The body of the inner loop of [update_collisions] for one obstacle and
    one player; the flag tells whether the [break] was taken. *)
Definition collide (current_time : Q) (obs : Obstacle.t) (player : Player.t)
  : Player.t * bool :=
  let time_since_blink := current_time - Player.blink player in
  let is_invulnerable := Qltb time_since_blink BLINK_DURATION in
  let player := lazy_reset current_time player in
  if is_invulnerable || Player.finished player then (player, false)
  else if check_collision player obs
          && (Obstacle.lane obs =? Player.lane player)%Z
  then (apply_hit current_time obs player, true)
  else (player, false).

(** The inner loop: players in dictionary order, up to the first hit. *)
Fixpoint scan_players (current_time : Q) (obs : Obstacle.t)
    (ps : list (Addr * Player.t)) : list (Addr * Player.t) * bool :=
  match ps with
  | [] => ([], false)
  | (a, p) :: rest =>
      let '(p', hit) := collide current_time obs p in
      if hit then ((a, p') :: rest, true)
      else
        let '(rest', hit') := scan_players current_time obs rest in
        ((a, p') :: rest', hit')
  end.

(** The outer loop: players, the ids in [obstacles_to_remove] and the number
    of hits counted into [performance_stats]. *)
Fixpoint scan_obstacles (current_time : Q) (obss : list Obstacle.t)
    (ps : list (Addr * Player.t))
  : list (Addr * Player.t) * list Q * Z :=
  match obss with
  | [] => (ps, [], 0%Z)
  | obs :: rest =>
      let '(ps1, hit) := scan_players current_time obs ps in
      let '(ps2, removed, n) := scan_obstacles current_time rest ps1 in
      if hit then (ps2, Obstacle.id obs :: removed, (1 + n)%Z)
      else (ps2, removed, n)
  end.

Definition id_in (ids : list Q) (q : Q) : bool :=
  existsb (fun r => Qeq_bool q r) ids.

(** [update_collisions(current_time)] *)
Definition update_collisions (current_time : Q) (s : GameServer)
  : GameServer :=
  if negb (truthy (start_time s)) then s
  else
    let '(ps, obstacles_to_remove, n) :=
      scan_obstacles current_time (obstacles s) (players s) in
    let obs' :=
      match obstacles_to_remove with
      | [] => obstacles s
      | _ =>
          filter (fun obs => negb (id_in obstacles_to_remove (Obstacle.id obs)))
            (obstacles s)
      end in
    mkServer (GAME_DURATION s) (game_progress s) (difficulty_level s)
      (obstacles_spawned s) (obstacle_cooldown s) (obstacle_probability s)
      (obstacle_speed_multiplier s) ps obs' (game_running s) (start_time s)
      (last_obstacle_spawn s) (next_player_id s) (state_sequence s)
      (total_obstacles_spawned s) (total_collisions s + n)%Z.

(** ** Scoring, end of round, reset *)

(** One iteration of the loop of [update_scores]; [now] is the clock read
    taken when the player reaches [MAX_SCORE]. *)
Definition score_player (progress now : Q) (player : Player.t) : Player.t :=
  if Qltb (Player.score player) MAX_SCORE && negb (Player.finished player)
  then
    let base_points := POINTS_PER_TICK in
    let collision_modifier :=
      py_max 0.5
        (1 - inject_Z (Player.consecutive_collisions player) * 0.1) in
    let difficulty_bonus := 1 + progress * 0.3 in
    let total_points := base_points * collision_modifier * difficulty_bonus in
    let player :=
      Player.set_score (Player.score player + total_points) player in
    let player :=
      Player.set_score (py_min (Player.score player) MAX_SCORE) player in
    if Qle_bool MAX_SCORE (Player.score player)
       && negb (Player.finished player)
    then Player.set_blink now (Player.set_finished true player)
    else player
  else player.

(** [update_scores()] *)
Definition update_scores (now : Q) (s : GameServer) : GameServer :=
  set_players (dict_map (score_player (game_progress s) now) (players s)) s.

(** [check_game_end(current_time)] *)
Definition check_game_end (current_time : Q) (s : GameServer) : bool :=
  if negb (truthy (start_time s)) then false
  else
    match start_time s with
    | Some t0 =>
        let elapsed := current_time - t0 in
        if Qle_bool (GAME_DURATION s) elapsed then true
        else
          let active_players :=
            filter (fun p => negb (Player.finished p))
              (dict_values (players s)) in
          match active_players, players s with
          | [], _ :: _ => true
          | _, _ => false
          end
    | None => false
    end.

(** The per-player assignments of [reset_game]. *)
Definition reset_player (now : Q) (player : Player.t) : Player.t :=
  Player.mk (Player.name player) 1 1 0 0 now (Player.addr player)
    middle_lane_x PLAYER_Y (Player.id player) false 1 0 0 0 PLAYER_Y.

(** [reset_game()]; every clock read of the function is the instant [now]. *)
Definition reset_game (now : Q) (s : GameServer) : GameServer :=
  mkServer (GAME_DURATION s) 0 1 0 (obstacle_cooldown s)
    (obstacle_probability s) (obstacle_speed_multiplier s)
    (dict_map (reset_player now) (players s)) [] (game_running s) (Some now)
    now (next_player_id s) 0 (total_obstacles_spawned s) (total_collisions s).

(** The effect of [broadcast_state()] on the server: the sequence number
    advances and every peer whose [sendto] raised is dropped.  [failed] lists
    those peers. *)
Definition broadcast_state (failed : list Addr) (s : GameServer)
  : GameServer :=
  mkServer (GAME_DURATION s) (game_progress s) (difficulty_level s)
    (obstacles_spawned s) (obstacle_cooldown s) (obstacle_probability s)
    (obstacle_speed_multiplier s)
    (filter (fun kv => negb (existsb (addr_eqb (fst kv)) failed)) (players s))
    (obstacles s) (game_running s) (start_time s) (last_obstacle_spawn s)
    (next_player_id s) (state_sequence s + 1)%Z (total_obstacles_spawned s)
    (total_collisions s).

(** [end_game()] *)
Definition end_game (failed : list Addr) (s : GameServer) : GameServer :=
  broadcast_state failed (set_game_running false s).

(** ** The server as a transition system

    The receive thread and the game loop interleave at the granularity of
    the lock, so a run of the server is a sequence of these operations. *)

Inductive Op : Type :=
| OpJoin (msg_name : option string) (a : Addr) (now : Q)
| OpInput (msg : InputMsg) (a : Addr) (now : Q)
| OpHeartbeat (a : Addr) (now : Q)
| OpLeave (a : Addr)
| OpMove (dt : Q)
| OpObstacles (current_time dt : Q) (d : SpawnDraw)
| OpCollisions (current_time : Q)
| OpScores (now : Q)
| OpBroadcast (failed : list Addr)
| OpTimeouts (now : Q)
| OpStart (now : Q)
| OpEnd (failed : list Addr).

(** [None]: the operation raised and the server stops. *)
Definition exec (op : Op) (s : GameServer) : option GameServer :=
  match op with
  | OpJoin n a now => Some (fst (handle_join n a now s))
  | OpInput m a now => Some (fst (handle_input m a now s))
  | OpHeartbeat a now => Some (fst (handle_heartbeat a now s))
  | OpLeave a => Some (handle_leave a s)
  | OpMove dt => update_player_movements dt s
  | OpObstacles t dt d => update_obstacles t dt d s
  | OpCollisions t => Some (update_collisions t s)
  | OpScores now => Some (update_scores now s)
  | OpBroadcast failed => Some (broadcast_state failed s)
  | OpTimeouts now => Some (fst (check_timeouts now s))
  | OpStart now => Some (set_game_running true (reset_game now s))
  | OpEnd failed => Some (end_game failed s)
  end.

Fixpoint run (ops : list Op) (s : GameServer) : option GameServer :=
  match ops with
  | [] => Some s
  | op :: rest =>
      match exec op s with
      | Some s' => run rest s'
      | None => None
      end
  end.

(** What the environment guarantees about an operation's arguments: the
    clock does not run backwards within a round and [randint(0, 2)] stays in
    its range. *)
Definition op_ok (s : GameServer) (op : Op) : Prop :=
  match op with
  | OpMove dt => 0 <= dt
  | OpObstacles t dt d =>
      0 <= dt /\ (0 <= draw_lane d <= 2)%Z /\
      match start_time s with Some t0 => t0 <= t | None => True end
  | _ => True
  end.

(** A run all of whose operations are allowed and none of which raises. *)
Fixpoint run_ok (ops : list Op) (s : GameServer) : Prop :=
  match ops with
  | [] => True
  | op :: rest =>
      op_ok s op /\
      match exec op s with
      | Some s' => run_ok rest s'
      | None => False
      end
  end.

Inductive reachable : GameServer -> Prop :=
| reach_init : reachable init_server
| reach_step s op s' :
    reachable s -> op_ok s op -> exec op s = Some s' -> reachable s'.

(** ** The client's receive branch ([client_test_9.py], main loop) *)

Module Client.

(** One element of [p["players"]]: [id], [x] and [y] are read with
    [info[...]] and raise [KeyError] when absent, the others with
    [info.get]. *)
Record PlayerInfo : Type := mkInfo {
  info_id : option Z;
  info_x : option Q;
  info_y : option Q;
  info_name : option string;
  info_score : option Z;
  info_finished : option bool
}.

(** One element of [p["obstacles"]]; every field is read with [obs.get]. *)
Record ObstacleInfo : Type := mkObsInfo {
  obs_x : option Q;
  obs_y : option Q;
  obs_type : option string;
  obs_lane : option Z;
  obs_id : option Q;
  obs_color : option string
}.

(** A decoded [state] datagram. *)
Record StateMsg : Type := mkState {
  seq : option Z;
  msg_game_running : option bool;
  msg_time_left : option Q;
  msg_players : option (list PlayerInfo);
  msg_obstacles : option (list ObstacleInfo)
}.

Record Target : Type := mkTarget {
  target_x : Q;
  target_y : Q;
  target_name : string
}.

Record ScoreEntry : Type := mkScore {
  entry_name : string;
  entry_score : Z;
  entry_finished : bool
}.

Record ObstacleData : Type := mkObsData {
  data_x : Q;
  data_y : Q;
  data_type : string;
  data_lane : Z;
  data_id : Q;
  data_color : option string
}.

(** The module-level variables the receive branch reads and writes. *)
Record t : Type := mk {
  last_seq : Z;
  game_running : bool;
  game_time_left : Q;
  targets : list (Z * Target);
  interp : list (Z * (Q * Q));
  player_scores : list (Z * ScoreEntry);
  current_obstacles : list ObstacleData;
  player_id : option Z;
  join_confirmed : bool
}.

(** The variables as initialised before the main loop. *)
Definition init : t := mk (-1) false 0 [] [] [] [] None false.

Inductive Outcome : Type :=
| Discarded   (* the [continue] of the sequence check *)
| Applied
| Raised.     (* an exception left the receive loop *)

Definition get_default {A : Type} (o : option A) (d : A) : A :=
  match o with Some v => v | None => d end.

(** [f"Player{pid}"] *)
Definition default_player_name (pid : Z) : string :=
  ("Player" ++ NilZero.string_of_int (Z.to_int pid))%string.

(** The loop [for info in p.get("players", [])]; the flag is [false] when
    an [info[...]] lookup raised. *)
Fixpoint update_players (infos : list PlayerInfo) (c : t) : t * bool :=
  match infos with
  | [] => (c, true)
  | info :: rest =>
      match info_id info, info_x info, info_y info with
      | Some pid, Some x, Some y =>
          let nm := get_default (info_name info) (default_player_name pid) in
          let targets' := dict_set Z.eqb pid (mkTarget x y nm) (targets c) in
          let interp' :=
            if dict_mem Z.eqb pid (interp c) then interp c
            else dict_set Z.eqb pid (x, y) (interp c) in
          let scores' :=
            dict_set Z.eqb pid
              (mkScore nm (get_default (info_score info) 0%Z)
                 (get_default (info_finished info) false))
              (player_scores c) in
          update_players rest
            (mk (last_seq c) (game_running c) (game_time_left c) targets'
               interp' scores' (current_obstacles c) (player_id c)
               (join_confirmed c))
      | _, _, _ => (c, false)
      end
  end.

Definition obstacle_data (obs : ObstacleInfo) : ObstacleData :=
  mkObsData (get_default (obs_x obs) 0) (get_default (obs_y obs) 0)
    (get_default (obs_type obs) "car"%string)
    (get_default (obs_lane obs) 1%Z) (get_default (obs_id obs) 0)
    (obs_color obs).

(** The branch [elif p.get("type") == "state"]. *)
Definition on_state (p : StateMsg) (c : t) : t * Outcome :=
  let stale :=
    match seq p with
    | Some n => (n <=? last_seq c)%Z
    | None => false
    end in
  if stale then (c, Discarded)
  else
    let last_seq' := match seq p with Some n => n | None => last_seq c end in
    let c1 :=
      mk last_seq' (get_default (msg_game_running p) false)
        (get_default (msg_time_left p) 0) (targets c) (interp c)
        (player_scores c) (current_obstacles c) (player_id c)
        (join_confirmed c) in
    match update_players (get_default (msg_players p) []) c1 with
    | (c2, true) =>
        (mk (last_seq c2) (game_running c2) (game_time_left c2) (targets c2)
           (interp c2) (player_scores c2)
           (map obstacle_data (get_default (msg_obstacles p) []))
           (player_id c2) (join_confirmed c2),
         Applied)
    | (c2, false) => (c2, Raised)
    end.

End Client.

(** ** Message dispatch, spawn weights, broadcast and the tick *)

From Stdlib Require Import Qround Qpower Qabs Permutation Sorted.

(** A datagram as [handle_message] sees it once [json.loads] has run:
    one of the four known types, or anything else (bytes that do not
    decode, an unknown or missing ["type"], a field that makes the handler
    raise before it touches the state), which is only logged. *)
Inductive Datagram : Type :=
| msg_join (name : option string)
| msg_input (msg : InputMsg)
| msg_heartbeat
| msg_leave
| msg_other.

(** [handle_message(data, addr)] *)
Definition handle_message (d : Datagram) (a : Addr) (now : Q) (s : GameServer)
  : GameServer * list (ServerMsg * Addr) :=
  match d with
  | msg_join n => handle_join n a now s
  | msg_input m => handle_input m a now s
  | msg_heartbeat => handle_heartbeat a now s
  | msg_leave => (handle_leave a s, [])
  | msg_other => (s, [])
  end.

(** [list(self.OBSTACLE_TYPES.keys())] *)
Definition obstacle_type_keys : list ObstacleType :=
  [car; truck; bus; bike; rock].

(** [sum(xs)]: from 0, left to right. *)
Definition py_sum (xs : list Q) : Q := fold_left Qplus xs 0.

(** The body of the loop of [get_obstacle_weights] for one type. *)
Definition adjusted_weight (progress performance_modifier : Q)
    (obstacle_type : ObstacleType) : Q :=
  let base_weight := props_spawn_weight (OBSTACLE_TYPES obstacle_type) in
  let penalty := props_penalty (OBSTACLE_TYPES obstacle_type) in
  let adjusted_weight :=
    if (20 <=? penalty)%Z then
      base_weight * (1 + progress * 2.5) * performance_modifier
    else if (penalty <=? 10)%Z then base_weight * (1 - progress * 0.7)
    else base_weight * (1 + progress * 1.2) * performance_modifier in
  py_max 0.05 adjusted_weight.

(** [get_obstacle_weights()]; [None] is [ZeroDivisionError]. *)
Definition get_obstacle_weights (s : GameServer)
  : option (list ObstacleType * list Q) :=
  let types := obstacle_type_keys in
  let progress := game_progress s in
  let avg_score :=
    match players s with
    | [] => 0
    | _ :: _ =>
        py_sum (map (fun kv => Player.score (snd kv)) (players s))
        / inject_Z (Z.of_nat (List.length (players s)))
    end in
  let performance_modifier := 1 + (avg_score / MAX_SCORE) * 0.5 in
  let adjusted_weights :=
    map (adjusted_weight progress performance_modifier) types in
  let total := py_sum adjusted_weights in
  if Qeq_bool total 0 then None
  else Some (types, map (fun w => w / total) adjusted_weights).

(** [round(x)] of a float: to the nearest integer, ties to the even one. *)
Definition py_round (x : Q) : Z :=
  let f := Qfloor x in
  let r := x - inject_Z f in
  if Qltb r 0.5 then f
  else if Qltb 0.5 r then (f + 1)%Z
  else if Z.even f then f else (f + 1)%Z.

(** The keys of [OBSTACLE_TYPES] as the strings they are. *)
Definition type_name (ty : ObstacleType) : string :=
  match ty with
  | car => "car"
  | truck => "truck"
  | bus => "bus"
  | bike => "bike"
  | rock => "rock"
  end.

(** One element of ["players"] in a state datagram. *)
Record PlayerEntry : Type := mkPlayerEntry {
  pe_id : Z;
  pe_x : Q;
  pe_y : Q;
  pe_name : string;
  pe_score : Z;
  pe_finished : bool;
  pe_lane : Z;
  pe_blink : Q;
  pe_target_lane : Z;
  pe_move_progress : Q
}.

(** One element of ["obstacles"] in a state datagram. *)
Record ObstacleEntry : Type := mkObstacleEntry {
  oe_x : Q;
  oe_y : Q;
  oe_lane : Z;
  oe_id : Q;
  oe_type : string;
  oe_color : string;
  oe_width : Q;
  oe_height : Q
}.

(** The dictionary [state] built by [broadcast_state]. *)
Record StateDict : Type := mkStateDict {
  st_seq : Z;
  st_players : list PlayerEntry;
  st_obstacles : list ObstacleEntry;
  st_time_left : Q;
  st_game_running : bool;
  st_game_progress : Q;
  st_difficulty : Z;
  st_total_players : Z;
  st_server_time : Q
}.

Definition player_entry (player : Player.t) : PlayerEntry :=
  mkPlayerEntry (Player.id player) (Player.x player) (Player.y player)
    (Player.name player) (py_round (Player.score player))
    (Player.finished player) (Player.lane player) (Player.blink player)
    (Player.target_lane player) (Player.move_progress player).

Definition obstacle_entry (obs : Obstacle.t) : ObstacleEntry :=
  mkObstacleEntry (Obstacle.x obs) (Obstacle.y obs) (Obstacle.lane obs)
    (Obstacle.id obs) (type_name (Obstacle.type obs)) (Obstacle.color obs)
    (Obstacle.width obs) (Obstacle.height obs).

(** The first locked block of [broadcast_state]: the dictionary that is
    encoded, with the sequence number already advanced. *)
Definition state_message (now : Q) (s : GameServer) : StateDict :=
  let elapsed :=
    if truthy (start_time s)
    then match start_time s with Some t0 => now - t0 | None => 0 end
    else 0 in
  let time_left := py_max 0 (GAME_DURATION s - elapsed) in
  mkStateDict (state_sequence s + 1)%Z
    (map player_entry (dict_values (players s)))
    (map obstacle_entry (obstacles s))
    time_left (game_running s) (game_progress s) (difficulty_level s)
    (Z.of_nat (List.length (players s))) now.

(** The datagrams of one broadcast that leave the socket: one copy of the
    state for every tracked address whose [sendto] did not raise. *)
Definition sent_states (failed : list Addr) (now : Q) (s : GameServer)
  : list (StateDict * Addr) :=
  map (fun a => (state_message now s, a))
    (filter (fun a => negb (existsb (addr_eqb a) failed))
       (map fst (players s))).

(** The clock reads, random draws and send failures of one pass through
    the body of [game_loop]. *)
Record TickInputs : Type := mkTick {
  tick_prev_time : Q;
  tick_current_time : Q;
  tick_draw : SpawnDraw;
  tick_scores_time : Q;
  tick_failed : list Addr;
  tick_timeouts_time : Q
}.

(** One pass through the body of [game_loop], up to the sleep; the flag
    says that the end-of-round check took the [break], after which
    [end_game] runs.  [None]: an update raised. *)
Definition game_tick (i : TickInputs) (s : GameServer)
  : option (GameServer * bool) :=
  let current_time := tick_current_time i in
  let dt := py_min (current_time - tick_prev_time i) 0.1 in
  match update_player_movements dt s with
  | None => None
  | Some s =>
      match update_obstacles current_time dt (tick_draw i) s with
      | None => None
      | Some s =>
          let s := update_collisions current_time s in
          let s := update_scores (tick_scores_time i) s in
          if check_game_end current_time s
          then Some (end_game (tick_failed i) s, true)
          else
            let s := broadcast_state (tick_failed i) s in
            Some (fst (check_timeouts (tick_timeouts_time i) s), false)
      end
  end.

(** ** More of the client's main loop *)

(** What [json.loads] gives the client for a state datagram of the server:
    every key the client reads is present. *)
Definition received_state (m : StateDict) : Client.StateMsg :=
  Client.mkState (Some (st_seq m)) (Some (st_game_running m))
    (Some (st_time_left m))
    (Some (map (fun e =>
                  Client.mkInfo (Some (pe_id e)) (Some (pe_x e))
                    (Some (pe_y e)) (Some (pe_name e)) (Some (pe_score e))
                    (Some (pe_finished e)))
             (st_players m)))
    (Some (map (fun e =>
                  Client.mkObsInfo (Some (oe_x e)) (Some (oe_y e))
                    (Some (oe_type e)) (Some (oe_lane e)) (Some (oe_id e))
                    (Some (oe_color e)))
             (st_obstacles m))).

(** The branch [if p.get("type") == "join_ack"]; [pid] is [p.get("id")].
    The table of obstacle types the message may carry only feeds the
    drawing code. *)
Definition on_join_ack (pid : option Z) (c : Client.t) : Client.t :=
  match pid with
  | Some i =>
      Client.mk (Client.last_seq c) (Client.game_running c)
        (Client.game_time_left c) (Client.targets c) (Client.interp c)
        (Client.player_scores c) (Client.current_obstacles c) (Some i) true
  | None => c
  end.

(** A decoded datagram on the client side. *)
Inductive ServerDatagram : Type :=
| dg_join_ack (pid : option Z)
| dg_state (p : Client.StateMsg)
| dg_undecodable   (* [json.loads] raised: [continue] *)
| dg_other.        (* any other ["type"]: falls through both branches *)

(** The receive loop of one frame over the datagrams waiting in the socket;
    an exception in the state branch leaves the loop, the datagrams behind
    it stay unread and are returned. *)
Fixpoint receive_all (dgs : list ServerDatagram) (c : Client.t)
  : Client.t * list ServerDatagram :=
  match dgs with
  | [] => (c, [])
  | dg_join_ack pid :: rest => receive_all rest (on_join_ack pid c)
  | dg_state p :: rest =>
      match Client.on_state p c with
      | (c', Client.Raised) => (c', rest)
      | (c', _) => receive_all rest c'
      end
  | dg_undecodable :: rest => receive_all rest c
  | dg_other :: rest => receive_all rest c
  end.

Definition JOIN_RETRY : Q := 0.8.
Definition HEARTBEAT_SEND_DT : Q := 1.

Inductive Key : Type := K_LEFT | K_RIGHT | K_UP | K_DOWN | K_other.

Inductive Event : Type :=
| QUIT
| KEYDOWN (key : Key)
| KEYUP (key : Key)
| other_event.

(** The sending side of the client: the timers and the four key latches. *)
Record ClientIO : Type := mkIO {
  join_sent_at : Q;
  last_send : Q;
  key_left_down : bool;
  key_right_down : bool;
  key_up_down : bool;
  key_down_down : bool;
  running : bool
}.

(** What the client sends. *)
Inductive ClientMsg : Type :=
| send_join_msg
| send_input_msg (msg : InputMsg).

(** The retry block at the top of the main loop. *)
Definition retry_join (now : Q) (confirmed : bool) (io : ClientIO)
  : ClientIO * list ClientMsg :=
  if negb confirmed then
    if Qle_bool JOIN_RETRY (now - join_sent_at io) then
      (mkIO now (last_send io) (key_left_down io) (key_right_down io)
         (key_up_down io) (key_down_down io) (running io),
       [send_join_msg])
    else (io, [])
  else (io, []).

(** One iteration of [for event in pygame.event.get()]; the message under
    construction carries the four flags of this frame. *)
Definition on_event (game_running : bool) (ev : Event)
    (st : ClientIO * InputMsg) : ClientIO * InputMsg :=
  let '(io, m) := st in
  match ev with
  | QUIT =>
      (mkIO (join_sent_at io) (last_send io) (key_left_down io)
         (key_right_down io) (key_up_down io) (key_down_down io) false, m)
  | KEYDOWN key =>
      if game_running then
        match key with
        | K_LEFT =>
            if negb (key_left_down io) then
              (mkIO (join_sent_at io) (last_send io) true (key_right_down io)
                 (key_up_down io) (key_down_down io) (running io),
               mkInput true (right m) (up m) (down m))
            else (io, m)
        | K_RIGHT =>
            if negb (key_right_down io) then
              (mkIO (join_sent_at io) (last_send io) (key_left_down io) true
                 (key_up_down io) (key_down_down io) (running io),
               mkInput (left m) true (up m) (down m))
            else (io, m)
        | K_UP =>
            if negb (key_up_down io) then
              (mkIO (join_sent_at io) (last_send io) (key_left_down io)
                 (key_right_down io) true (key_down_down io) (running io),
               mkInput (left m) (right m) true (down m))
            else (io, m)
        | K_DOWN =>
            if negb (key_down_down io) then
              (mkIO (join_sent_at io) (last_send io) (key_left_down io)
                 (key_right_down io) (key_up_down io) true (running io),
               mkInput (left m) (right m) (up m) true)
            else (io, m)
        | K_other => (io, m)
        end
      else
        (* [elif event.type == KEYDOWN and game_running] failed, and the
           event is no KEYUP *)
        (io, m)
  | KEYUP key =>
      match key with
      | K_LEFT =>
          (mkIO (join_sent_at io) (last_send io) false (key_right_down io)
             (key_up_down io) (key_down_down io) (running io), m)
      | K_RIGHT =>
          (mkIO (join_sent_at io) (last_send io) (key_left_down io) false
             (key_up_down io) (key_down_down io) (running io), m)
      | K_UP =>
          (mkIO (join_sent_at io) (last_send io) (key_left_down io)
             (key_right_down io) false (key_down_down io) (running io), m)
      | K_DOWN =>
          (mkIO (join_sent_at io) (last_send io) (key_left_down io)
             (key_right_down io) (key_up_down io) false (running io), m)
      | K_other => (io, m)
      end
  | other_event => (io, m)
  end.

(** The event loop of one frame: the flags start at 0. *)
Definition poll_events (game_running : bool) (evs : list Event)
    (io : ClientIO) : ClientIO * InputMsg :=
  fold_left (fun st ev => on_event game_running ev st) evs
    (io, mkInput false false false false).

(** The send block of one frame. *)
Definition send_frame (now : Q) (m : InputMsg) (io : ClientIO)
  : ClientIO * list ClientMsg :=
  let send_input := left m || right m || up m || down m in
  let send_heartbeat := Qle_bool HEARTBEAT_SEND_DT (now - last_send io) in
  if send_input || send_heartbeat then
    (mkIO (join_sent_at io) now (key_left_down io) (key_right_down io)
       (key_up_down io) (key_down_down io) (running io),
     [send_input_msg m])
  else (io, []).

(** The sending half of one frame: join retry, events, input or keepalive.
    [game_running] and [confirmed] are the values the previous frame's
    receive loop left. *)
Definition frame_sends (now : Q) (evs : list Event) (c : Client.t)
    (io : ClientIO) : ClientIO * list ClientMsg :=
  let '(io, joins) := retry_join now (Client.join_confirmed c) io in
  let '(io, m) := poll_events (Client.game_running c) evs io in
  let '(io, inputs) := send_frame now m io in
  (io, joins ++ inputs).

(** [rendered += (target - rendered) * 0.3] *)
Definition smooth (target rendered : Q) : Q :=
  rendered + (target - rendered) * 0.3.

(** One iteration of the interpolation loop. *)
Definition interpolate_one (kv : Z * Client.Target)
    (interp : list (Z * (Q * Q))) : list (Z * (Q * Q)) :=
  let '(pid, t) := kv in
  let ip :=
    match dict_get Z.eqb pid interp with
    | Some ip => ip
    | None => (Client.target_x t, Client.target_y t)
    end in
  dict_set Z.eqb pid
    (smooth (Client.target_x t) (fst ip), smooth (Client.target_y t) (snd ip))
    interp.

(** [for pid, t in targets.items(): ...] *)
Definition interpolate (c : Client.t) : Client.t :=
  Client.mk (Client.last_seq c) (Client.game_running c)
    (Client.game_time_left c) (Client.targets c)
    (fold_left (fun interp kv => interpolate_one kv interp) (Client.targets c)
       (Client.interp c))
    (Client.player_scores c) (Client.current_obstacles c)
    (Client.player_id c) (Client.join_confirmed c).

(** [sorted(xs, key=score, reverse=True)]: descending by score, entries of
    equal score in their original order; written as the insertion, from
    the right, of each entry in front of the first one that does not beat
    it. *)
Fixpoint insert_by_score (e : Client.ScoreEntry)
    (l : list Client.ScoreEntry) : list Client.ScoreEntry :=
  match l with
  | [] => [e]
  | y :: l' =>
      if (Client.entry_score e <? Client.entry_score y)%Z
      then y :: insert_by_score e l'
      else e :: l
  end.

Definition sorted_scores (c : Client.t) : list Client.ScoreEntry :=
  fold_right insert_by_score [] (dict_values (Client.player_scores c)).

(** The entry the finish screen names as winner, when it is drawn:
    [not game_running and sorted_scores and game_time_left == 0]. *)
Definition winner_info (c : Client.t) : option Client.ScoreEntry :=
  if negb (Client.game_running c) && Qeq_bool (Client.game_time_left c) 0
  then hd_error (sorted_scores c)
  else None.


(** ** Notions used in the statements *)

(** What a collision tick can do to a player: each obstacle of the list, in
    order, either passes the player by or runs the loop body on it. *)
Inductive hit_chain (now : Q) : list Obstacle.t -> Player.t -> Player.t -> Prop :=
| chain_nil p : hit_chain now [] p p
| chain_skip obs rest p q :
    hit_chain now rest p q -> hit_chain now (obs :: rest) p q
| chain_visit obs rest p q :
    hit_chain now rest (fst (collide now obs p)) q ->
    hit_chain now (obs :: rest) p q.

(** The player [p'] found after [op] in terms of the player [p] that was at
    the same address before. *)
Definition player_step (op : Op) (s : GameServer) (p p' : Player.t) : Prop :=
  match op with
  | OpJoin n _ now =>
      p' = p \/
      exists name, p' = Player.set_last_heartbeat now (Player.set_name name p)
  | OpInput m _ now => p' = p \/ p' = input_player m now true p
  | OpHeartbeat _ now => p' = p \/ p' = Player.set_last_heartbeat now p
  | OpMove dt => move_player (game_progress s) dt p = Some p'
  | OpCollisions t =>
      truthy (start_time s) = true /\ hit_chain t (obstacles s) p p' \/ p' = p
  | OpScores now => p' = score_player (game_progress s) now p
  | OpStart now => p' = reset_player now p
  | OpLeave _ | OpObstacles _ _ _ | OpBroadcast _ | OpTimeouts _ | OpEnd _ =>
      p' = p
  end.

(** The bounds every tracked player keeps: both lanes index [LANE_X], move
    progress is in [0, 1], the score in [0, MAX_SCORE] and the height inside
    the band the movement clamps to. *)
Definition player_ok (p : Player.t) : Prop :=
  (0 <= Player.lane p <= 2)%Z /\
  (0 <= Player.target_lane p <= 2)%Z /\
  (0 <= Player.move_progress p /\ Player.move_progress p <= 1) /\
  (0 <= Player.score p /\ Player.score p <= MAX_SCORE) /\
  (MIN_PLAYER_Y <= Player.y p /\ Player.y p <= MAX_PLAYER_Y).

(** What the per-player bounds rest on: round progress in [0, 1], a positive
    game duration, and obstacles that take points rather than give them. *)
Definition env_ok (s : GameServer) : Prop :=
  (0 <= game_progress s /\ game_progress s <= 1) /\
  0 < GAME_DURATION s /\
  Forall (fun o => (0 <= Obstacle.penalty o)%Z) (obstacles s).

Definition server_ok (s : GameServer) : Prop :=
  env_ok s /\ forall a p, In (a, p) (players s) -> player_ok p.

(** The ids of the tracked players, in dictionary order. *)
Definition ids (ps : list (Addr * Player.t)) : list Z :=
  map (fun kv => Player.id (snd kv)) ps.

(** Ids are unique among the tracked players and all below the next one to
    be handed out. *)
Definition ids_ok (s : GameServer) : Prop :=
  NoDup (ids (players s)) /\
  forall i, In i (ids (players s)) -> (i < next_player_id s)%Z.

(** [dropped l l']: [l'] is [l] with some entries removed. *)
Inductive dropped {A : Type} : list A -> list A -> Prop :=
| dropped_nil : dropped [] []
| dropped_keep x l l' : dropped l l' -> dropped (x :: l) (x :: l')
| dropped_drop x l l' : dropped l l' -> dropped (x :: l) l'.

(** A run all of whose operations satisfy [allowed]. *)
Fixpoint all_ops (allowed : GameServer -> Op -> Prop) (ops : list Op)
    (s : GameServer) : Prop :=
  match ops with
  | [] => True
  | op :: rest =>
      allowed s op /\
      match exec op s with
      | Some s' => all_ops allowed rest s'
      | None => True
      end
  end.

(** [OpStart] is the between-round reset. *)
Definition is_start (op : Op) : bool :=
  match op with OpStart _ => true | _ => false end.

(** The operations of one round: anything but the reset that opens the
    next one. *)
Definition in_round (_ : GameServer) (op : Op) : Prop := is_start op = false.

(** The operations of one round, performed at or after time [t]. *)
Definition not_before (t : Q) (_ : GameServer) (op : Op) : Prop :=
  match op with
  | OpStart _ => False
  | OpCollisions t' => t <= t'
  | OpScores now => t <= now
  | _ => True
  end.

(** The lane an input message asks for, in the words of the specification:
    left alone decrements the lane, floored at 0; right alone increments it,
    capped at 2. *)
Definition wanted_lane (m : InputMsg) (lane : Z) : Z :=
  if left m && negb (right m) then Z.max 0 (lane - 1)
  else if right m && negb (left m) then Z.min 2 (lane + 1)
  else lane.

(** The vertical velocity an input message asks for, in the words of the
    specification: forward alone, backward alone, anything else. *)
Definition wanted_speed (m : InputMsg) : Q :=
  if up m && negb (down m) then - VERTICAL_SPEED
  else if down m && negb (up m) then VERTICAL_SPEED
  else 0.

(** ** Sessions the theorems are exercised on *)

Definition ann : Addr := ("10.0.0.2"%string, 5000%Z).

(** An address nobody joins from. *)
Definition stranger : Addr := ("10.0.0.9"%string, 6000%Z).

(** ann joins, a round starts at time 100, she steers left and the lane
    change runs for a tenth of a second. *)
Definition ann_session : list Op :=
  [ OpJoin (Some "ann"%string) ann 98;
    OpStart 100;
    OpInput (mkInput true false false false) ann 101;
    OpMove 0.1 ].

Definition ann_state : GameServer :=
  Eval vm_compute in
    match run ann_session init_server with
    | Some s => s
    | None => init_server
    end.

(** A session with a crash: a car is spawned in ann's lane at time 102,
    has reached her by time 105 and hits her on the collision scan of that
    tick. *)
Definition crash_session : list Op :=
  [ OpJoin (Some "ann"%string) ann 98;
    OpStart 100;
    OpScores 101;
    OpObstacles 102 0 (mkDraw 0 1 car);
    OpObstacles 105 3 (mkDraw 1 1 car);
    OpCollisions 105 ].

Definition crash_state : GameServer :=
  Eval vm_compute in
    match run crash_session init_server with
    | Some s => s
    | None => init_server
    end.

(** What follows the crash: a scoring tick, a second car spawned in ann's
    lane, and that car moved onto her by time 106. *)
Definition crash_later : list Op :=
  [ OpScores 105.5;
    OpObstacles 105.6 0 (mkDraw 0 1 car);
    OpObstacles 106 3 (mkDraw 1 1 car) ].

Definition after_crash : GameServer :=
  Eval vm_compute in
    match run crash_later crash_state with
    | Some s => s
    | None => crash_state
    end.

(** ** Further notions used in the statements *)

(** An obstacle as [update_obstacles] makes them: in one of the three
    lanes, on that lane's centre, with the dimensions, speed, penalty and
    colour of its type. *)
Definition obstacle_ok (obs : Obstacle.t) : Prop :=
  (0 <= Obstacle.lane obs <= 2)%Z /\
  lane_x (Obstacle.lane obs) = Some (Obstacle.x obs) /\
  Obstacle.width obs = props_width (OBSTACLE_TYPES (Obstacle.type obs)) /\
  Obstacle.height obs = props_height (OBSTACLE_TYPES (Obstacle.type obs)) /\
  Obstacle.speed obs = props_speed (OBSTACLE_TYPES (Obstacle.type obs)) /\
  Obstacle.penalty obs = props_penalty (OBSTACLE_TYPES (Obstacle.type obs)) /\
  Obstacle.color obs = props_color (OBSTACLE_TYPES (Obstacle.type obs)).

(** Finished means exactly: the score is [MAX_SCORE]. *)
Definition finish_ok (p : Player.t) : Prop :=
  Player.finished p = true <-> Player.score p == MAX_SCORE.

(** The target lane is the lane or a neighbour of it, and a player whose
    transition is complete is in its target lane, on that lane's centre. *)
Definition settled_ok (p : Player.t) : Prop :=
  (Player.lane p - 1 <= Player.target_lane p <= Player.lane p + 1)%Z /\
  (1 <= Player.move_progress p ->
   Player.target_lane p = Player.lane p /\
   lane_x (Player.lane p) = Some (Player.x p)).

(** What [json.loads] gives the client for a reply of the server. *)
Definition received_reply (m : ServerMsg) : ServerDatagram :=
  match m with
  | join_ack i _ _ => dg_join_ack (Some i)
  | heartbeat_ack => dg_other
  end.

(** The input message of a frame without key events. *)
Definition idle_input : InputMsg := mkInput false false false false.

(** [n] rendering frames with no datagram in between. *)
Fixpoint frames (n : nat) (c : Client.t) : Client.t :=
  match n with
  | O => c
  | S k => interpolate (frames k c)
  end.

(** The crash session up to, and without, the collision scan of 105. *)
Definition before_crash : GameServer :=
  Eval vm_compute in
    match run (firstn 5 crash_session) init_server with
    | Some s => s
    | None => init_server
    end.

(** The effect of one complete ["players"] element on the client: the body
    of the loop of [Client.update_players] when no lookup raises. *)
Definition apply_entry (c : Client.t) (e : PlayerEntry) : Client.t :=
  Client.mk (Client.last_seq c) (Client.game_running c)
    (Client.game_time_left c)
    (dict_set Z.eqb (pe_id e) (Client.mkTarget (pe_x e) (pe_y e) (pe_name e))
       (Client.targets c))
    (if dict_mem Z.eqb (pe_id e) (Client.interp c) then Client.interp c
     else dict_set Z.eqb (pe_id e) (pe_x e, pe_y e) (Client.interp c))
    (dict_set Z.eqb (pe_id e)
       (Client.mkScore (pe_name e) (pe_score e) (pe_finished e))
       (Client.player_scores c))
    (Client.current_obstacles c) (Client.player_id c)
    (Client.join_confirmed c).

(** A ["players"] element as the client decodes it. *)
Definition received_entry (e : PlayerEntry) : Client.PlayerInfo :=
  Client.mkInfo (Some (pe_id e)) (Some (pe_x e)) (Some (pe_y e))
    (Some (pe_name e)) (Some (pe_score e)) (Some (pe_finished e)).


(** The client of the demonstration after it has taken the broadcast that
    follows the crash. *)
Definition seen_client : Client.t :=
  Eval vm_compute in
    fst (Client.on_state (received_state (state_message 106 after_crash))
           Client.init).

(** The strip the bikes stay in: the outer lane centres, widened by the
    overshoot of the easing curve. *)
Definition on_road (p : Player.t) : Prop :=
  278 <= Player.x p /\ Player.x p <= 722.

(** The latch and the message flag that go with a key; the other keys have
    neither. *)
Definition latch (k : Key) (io : ClientIO) : bool :=
  match k with
  | K_LEFT => key_left_down io
  | K_RIGHT => key_right_down io
  | K_UP => key_up_down io
  | K_DOWN => key_down_down io
  | K_other => false
  end.

Definition flag (k : Key) (m : InputMsg) : bool :=
  match k with
  | K_LEFT => left m
  | K_RIGHT => right m
  | K_UP => up m
  | K_DOWN => down m
  | K_other => false
  end.

Definition is_quit (ev : Event) : bool :=
  match ev with QUIT => true | _ => false end.

(** Key [k] is not newly pressed in a frame: no press arrives, or the key is
    held from an earlier frame and not released in this one. *)
Definition not_pressed (k : Key) (evs : list Event) (io : ClientIO) : Prop :=
  ~ In (KEYDOWN k) evs \/ latch k io = true /\ ~ In (KEYUP k) evs.

(** The order of the scoreboard: not below the entries that follow. *)
Definition beats_or_ties (a b : Client.ScoreEntry) : Prop :=
  (Client.entry_score b <= Client.entry_score a)%Z.

(** Half a unit in the last place of a binary64 significand, relative to
    the value: the largest relative error of one rounding. *)
Definition unit_roundoff : Q := 1 # 9007199254740992.

Fixpoint Qpow_nat (x : Q) (k : nat) : Q :=
  match k with O => 1 | S k => x * Qpow_nat x k end.

(** [v] is [exact] up to [k] roundings. *)
Definition near (k : nat) (exact v : Q) : Prop :=
  exact * Qpow_nat (1 - unit_roundoff) k <= v /\
  v <= exact * Qpow_nat (1 + unit_roundoff) k.

(** * Properties *)

(** ** Comparisons and clamps *)

Lemma Qltb_lt (a b : Q) : Qltb a b = true <-> a < b.
Proof.
  unfold Qltb. rewrite negb_true_iff.
  split; intro H.
  - apply Qnot_le_lt. intro Hle. apply Qle_bool_iff in Hle. congruence.
  - destruct (Qle_bool b a) eqn:E; [|reflexivity].
    apply Qle_bool_iff in E. exfalso. apply (Qlt_not_le _ _ H E).
Qed.

Lemma Qltb_ge (a b : Q) : Qltb a b = false <-> b <= a.
Proof.
  unfold Qltb. rewrite negb_false_iff. apply Qle_bool_iff.
Qed.

Lemma Qle_bool_gt (a b : Q) : Qle_bool a b = false <-> b < a.
Proof.
  rewrite <- Qltb_lt. unfold Qltb. rewrite negb_true_iff. tauto.
Qed.

Lemma py_max_lower (a b : Q) : a <= py_max a b.
Proof.
  unfold py_max. destruct (Qltb a b) eqn:E.
  - apply Qltb_lt in E. lra.
  - lra.
Qed.

Lemma py_max_upper (a b c : Q) : a <= c -> b <= c -> py_max a b <= c.
Proof. unfold py_max. destruct (Qltb a b); auto. Qed.

Lemma py_min_upper (a b : Q) : py_min a b <= b.
Proof.
  unfold py_min. destruct (Qltb b a) eqn:E.
  - lra.
  - apply Qltb_ge in E. exact E.
Qed.

Lemma py_min_left (a b : Q) : py_min a b <= a.
Proof.
  unfold py_min. destruct (Qltb b a) eqn:E.
  - apply Qltb_lt in E. lra.
  - lra.
Qed.

Lemma py_min_lower (a b c : Q) : c <= a -> c <= b -> c <= py_min a b.
Proof. unfold py_min. destruct (Qltb b a); auto. Qed.

(** ** Collisions *)

Lemma lazy_reset_cases now p :
  lazy_reset now p = p \/
  lazy_reset now p = Player.set_consecutive_collisions 0 p.
Proof. unfold lazy_reset. destruct (Qltb _ _); auto. Qed.

Lemma check_collision_lazy_reset now p obs :
  check_collision (lazy_reset now p) obs = check_collision p obs.
Proof. destruct (lazy_reset_cases now p) as [-> | ->]; reflexivity. Qed.

(** A pair that does not take the [break] only goes through the lazy reset. *)
Lemma collide_miss now obs p :
  snd (collide now obs p) = false ->
  fst (collide now obs p) = lazy_reset now p.
Proof.
  unfold collide.
  destruct (Qltb (now - Player.blink p) BLINK_DURATION
            || Player.finished (lazy_reset now p)); [reflexivity|].
  destruct (check_collision (lazy_reset now p) obs
            && (Obstacle.lane obs =? Player.lane (lazy_reset now p))%Z);
    [discriminate | reflexivity].
Qed.

(** First match wins: the inner loop penalises at most one player, the first
    one in dictionary order whose test succeeds; players after it are not
    even visited. *)
Lemma scan_players_first_match now obs ps :
  (snd (scan_players now obs ps) = false /\
   fst (scan_players now obs ps) = dict_map (lazy_reset now) ps /\
   forall kv, In kv ps -> snd (collide now obs (snd kv)) = false)
  \/
  (exists l1 a p l2,
     ps = l1 ++ (a, p) :: l2 /\
     snd (scan_players now obs ps) = true /\
     (forall kv, In kv l1 -> snd (collide now obs (snd kv)) = false) /\
     snd (collide now obs p) = true /\
     fst (scan_players now obs ps) =
       dict_map (lazy_reset now) l1 ++ (a, fst (collide now obs p)) :: l2).
Proof.
  induction ps as [|[a p] rest IH].
  - left. simpl. repeat split; auto. intros kv [].
  - simpl. destruct (collide now obs p) as [p' hit] eqn:Ec.
    destruct hit.
    + right. exists [], a, p, rest. simpl. rewrite Ec. simpl.
      repeat split; auto. intros kv [].
    + destruct (scan_players now obs rest) as [rest' hit'] eqn:Es.
      simpl in IH.
      assert (Hp' : p' = lazy_reset now p).
      { pose proof (collide_miss now obs p) as Hm. rewrite Ec in Hm.
        simpl in Hm. auto. }
      destruct IH as [(Hh & Hf & Hall) | (l1 & b & q & l2 & Hps & Hh & Hl1 & Hq & Hf)].
      * left. simpl. subst. repeat split; auto.
        intros kv [<- | Hin]; [simpl; rewrite Ec; reflexivity | auto].
      * right. exists ((a, p) :: l1), b, q, l2. simpl. subst.
        repeat split; auto.
        intros kv [<- | Hin]; [simpl; rewrite Ec; reflexivity | auto].
Qed.

(** Every id put into [obstacles_to_remove] comes from one obstacle of the
    list, each obstacle contributes at most one, and the hit counter grows by
    the same number. *)
Lemma scan_obstacles_removed now obss :
  forall ps,
    let '(_, removed, n) := scan_obstacles now obss ps in
    n = Z.of_nat (List.length removed) /\
    (List.length removed <= List.length obss)%nat /\
    forall r, In r removed -> exists obs, In obs obss /\ Obstacle.id obs = r.
Proof.
  induction obss as [|obs rest IH]; intros ps.
  - simpl. repeat split; auto. intros r [].
  - cbn [scan_obstacles]. destruct (scan_players now obs ps) as [ps1 hit].
    specialize (IH ps1).
    destruct (scan_obstacles now rest ps1) as [[ps2 removed] n].
    destruct IH as (Hn & Hlen & Hin).
    destruct hit.
    + repeat split.
      * cbn [List.length]. lia.
      * cbn [List.length]. lia.
      * intros r [<- | Hr]; [exists obs; simpl; auto|].
        destruct (Hin r Hr) as (o & Ho & Hid). exists o. simpl. auto.
    + split; [exact Hn|]. split; [cbn [List.length]; lia|].
      intros r Hr. destruct (Hin r Hr) as (o & Ho & Hid). exists o. simpl. auto.
Qed.

Lemma scan_obstacles_app now l1 l2 ps :
  scan_obstacles now (l1 ++ l2) ps =
  let '(ps1, r1, n1) := scan_obstacles now l1 ps in
  let '(ps2, r2, n2) := scan_obstacles now l2 ps1 in
  (ps2, r1 ++ r2, (n1 + n2)%Z).
Proof.
  revert ps. induction l1 as [|o l1 IH]; intros ps.
  - cbn [scan_obstacles app].
    destruct (scan_obstacles now l2 ps) as [[ps2 r2] n2]. reflexivity.
  - cbn [scan_obstacles app].
    destruct (scan_players now o ps) as [ps1 hit].
    rewrite IH.
    destruct (scan_obstacles now l1 ps1) as [[ps1' r1] n1].
    destruct hit; cbn beta iota;
      destruct (scan_obstacles now l2 ps1') as [[ps2 r2] n2];
      cbn [app]; f_equal; lia || reflexivity.
Qed.

Lemma id_in_here r removed : id_in (r :: removed) r = true.
Proof.
  unfold id_in. cbn [existsb].
  assert (E : Qeq_bool r r = true) by (apply Qeq_bool_iff; reflexivity).
  rewrite E. reflexivity.
Qed.

Lemma id_in_app_right l1 l2 r : id_in l2 r = true -> id_in (l1 ++ l2) r = true.
Proof.
  unfold id_in. rewrite existsb_app. intros ->. apply orb_true_r.
Qed.

(** An obstacle whose scan ends in a hit is gone after the tick; nothing is
    added to the list. *)
Lemma update_collisions_removes now s l1 obs l2 :
  truthy (start_time s) = true ->
  obstacles s = l1 ++ obs :: l2 ->
  snd (scan_players now obs (fst (fst (scan_obstacles now l1 (players s)))))
    = true ->
  ~ In obs (obstacles (update_collisions now s)).
Proof.
  intros Ht Hobs Hhit. unfold update_collisions. rewrite Ht. cbn [negb].
  rewrite Hobs, scan_obstacles_app.
  destruct (scan_obstacles now l1 (players s)) as [[ps1 r1] n1].
  cbn [fst] in Hhit. cbn [scan_obstacles].
  destruct (scan_players now obs ps1) as [ps1' hit]. cbn [snd] in Hhit.
  subst hit.
  destruct (scan_obstacles now l2 ps1') as [[ps2 r2] n2].
  cbn [obstacles].
  assert (Hin : id_in (r1 ++ Obstacle.id obs :: r2) (Obstacle.id obs) = true)
    by (apply id_in_app_right, id_in_here).
  destruct (r1 ++ Obstacle.id obs :: r2) eqn:E.
  - destruct r1; discriminate.
  - rewrite filter_In. intros [_ H]. rewrite Hin in H. discriminate.
Qed.

Lemma update_collisions_incl now s obs :
  In obs (obstacles (update_collisions now s)) -> In obs (obstacles s).
Proof.
  unfold update_collisions. destruct (negb (truthy (start_time s))); [auto|].
  destruct (scan_obstacles now (obstacles s) (players s)) as [[ps removed] n].
  cbn [obstacles]. destruct removed; [auto|].
  rewrite filter_In. tauto.
Qed.

(** C1 (as stated) fails on the penalty: a player on a streak of one hits a
    bike (base penalty 5); the claim takes 5 * 1.3 = 6.5 points, the server
    takes [int(6.5)] = 6. *)
Lemma collision_penalty_is_truncated :
  let p :=
    Player.mk "ann" 1 1 100 8 9.5 ("10.0.0.2"%string, 5000%Z) 500 300 1 false
      1 1 8 0 300 in
  let obs := Obstacle.mk 1 300 500 5 bike 60 80 160 5 "#96CEB4" in
  let now := 10 in
  Obstacle.lane obs = Player.lane p /\
  check_collision p obs = true /\
  BLINK_DURATION <= now - Player.blink p /\
  Player.finished p = false /\
  Player.consecutive_collisions (lazy_reset now p) = 1%Z /\
  Player.score (fst (collide now obs p)) == 94 /\
  ~ Player.score (fst (collide now obs p)) ==
    py_max 0
      (Player.score p -
       inject_Z (Obstacle.penalty obs) *
       (1 + 0.3 * inject_Z (Player.consecutive_collisions (lazy_reset now p)))).
Proof.
  cbv zeta. repeat split; try reflexivity.
  - vm_compute. discriminate.
  - vm_compute. discriminate.
Qed.

(** ** Dictionaries *)

Lemma addr_eqb_eq (a b : Addr) : addr_eqb a b = true <-> a = b.
Proof.
  destruct a as [h1 p1], b as [h2 p2]. unfold addr_eqb. cbn [fst snd].
  rewrite andb_true_iff, String.eqb_eq, Z.eqb_eq.
  split; [intros [-> ->]; reflexivity | intros [= -> ->]; auto].
Qed.

Lemma addr_eqb_refl (a : Addr) : addr_eqb a a = true.
Proof. apply addr_eqb_eq. reflexivity. Qed.

Section DictFacts.
Context {V : Type}.
Implicit Types (d : list (Addr * V)) (a : Addr) (v : V).

Lemma dict_get_In a d v : dict_get addr_eqb a d = Some v -> In (a, v) d.
Proof.
  induction d as [|[k w] rest IH]; cbn [dict_get]; [discriminate|].
  destruct (addr_eqb a k) eqn:E.
  - apply addr_eqb_eq in E. intros [= ->]. subst. left. reflexivity.
  - intros H. right. auto.
Qed.

(** Overwriting an existing key changes one entry and keeps its key. *)
Lemma dict_set_In_present a d v w x q :
  dict_get addr_eqb a d = Some w ->
  In (x, q) (dict_set addr_eqb a v d) ->
  In (x, q) d \/ (x = a /\ q = v).
Proof.
  induction d as [|[k u] rest IH]; cbn [dict_get dict_set]; [discriminate|].
  destruct (addr_eqb a k) eqn:E.
  - apply addr_eqb_eq in E. subst k. intros _ [[= <- <-] | H].
    + right. auto.
    + left. right. exact H.
  - intros Hg [H | H].
    + left. left. exact H.
    + destruct (IH Hg H) as [H' | H']; [left; right; exact H' | right; exact H'].
Qed.

(** Writing a fresh key appends it. *)
Lemma dict_set_absent a d v :
  dict_get addr_eqb a d = None -> dict_set addr_eqb a v d = d ++ [(a, v)].
Proof.
  induction d as [|[k u] rest IH]; cbn [dict_get dict_set app]; [reflexivity|].
  destruct (addr_eqb a k); [discriminate|].
  intros H. rewrite (IH H). reflexivity.
Qed.

Lemma dict_del_In a d x q : In (x, q) (dict_del addr_eqb a d) -> In (x, q) d.
Proof.
  induction d as [|[k u] rest IH]; cbn [dict_del]; [auto|].
  destruct (addr_eqb a k).
  - intros H. right. exact H.
  - intros [H | H]; [left; exact H | right; auto].
Qed.

Lemma dict_map_In (f : V -> V) d x q :
  In (x, q) (dict_map f d) -> exists p, In (x, p) d /\ q = f p.
Proof.
  unfold dict_map. rewrite in_map_iff.
  intros [[k p] [[= <- <-] Hin]]. exists p. auto.
Qed.
End DictFacts.

(** ** How one operation changes one player *)

Lemma move_all_In gp dt ps ps' a p' :
  move_all gp dt ps = Some ps' ->
  In (a, p') ps' ->
  exists p, In (a, p) ps /\ move_player gp dt p = Some p'.
Proof.
  revert ps'. induction ps as [|[k p] rest IH]; intros ps'; cbn [move_all].
  - intros [= <-] [].
  - destruct (move_player gp dt p) as [q|] eqn:Em; [|discriminate].
    destruct (move_all gp dt rest) as [rest'|]; [|discriminate].
    intros [= <-] [[= <- <-] | Hin].
    + exists p. split; [left; reflexivity | exact Em].
    + destruct (IH rest' eq_refl Hin) as (p0 & Hp0 & Hm).
      exists p0. split; [right; exact Hp0 | exact Hm].
Qed.

Lemma scan_players_In now obs ps a p' :
  In (a, p') (fst (scan_players now obs ps)) ->
  exists p, In (a, p) ps /\ (p' = p \/ p' = fst (collide now obs p)).
Proof.
  induction ps as [|[k p] rest IH]; cbn [scan_players].
  - intros [].
  - destruct (collide now obs p) as [q hit] eqn:Ec.
    assert (Hq : q = fst (collide now obs p)) by (rewrite Ec; reflexivity).
    destruct hit.
    + cbn [fst]. intros [[= <- <-] | Hin].
      * exists p. split; [left; reflexivity | right; exact Hq].
      * exists p'. split; [right; exact Hin | left; reflexivity].
    + destruct (scan_players now obs rest) as [rest' hit'].
      cbn [fst] in *. intros [[= <- <-] | Hin].
      * exists p. split; [left; reflexivity | right; exact Hq].
      * destruct (IH Hin) as (p0 & Hp0 & Hc).
        exists p0. split; [right; exact Hp0 | exact Hc].
Qed.

Lemma scan_obstacles_In now obss :
  forall ps a p',
    In (a, p') (fst (fst (scan_obstacles now obss ps))) ->
    exists p, In (a, p) ps /\ hit_chain now obss p p'.
Proof.
  induction obss as [|obs rest IH]; intros ps a p'; cbn [scan_obstacles].
  - cbn [fst]. intros H. exists p'. split; [exact H | constructor].
  - destruct (scan_players now obs ps) as [ps1 hit] eqn:Es.
    specialize (IH ps1 a p').
    destruct (scan_obstacles now rest ps1) as [[ps2 removed] n].
    assert (Hgoal : In (a, p') ps2 ->
                    exists p, In (a, p) ps /\ hit_chain now (obs :: rest) p p').
    { intros H. destruct (IH H) as (p1 & Hp1 & Hch).
      pose proof (scan_players_In now obs ps a p1) as Hs.
      rewrite Es in Hs. destruct (Hs Hp1) as (p & Hp & [-> | ->]).
      - exists p. split; [exact Hp | apply chain_skip; exact Hch].
      - exists p. split; [exact Hp | apply chain_visit; exact Hch]. }
    destruct hit; exact Hgoal.
Qed.

(** Every player found after an operation either evolved from the player at
    the same address, or has just been created by [handle_join] with the id
    that was next. *)
Lemma exec_players op s s' a p' :
  exec op s = Some s' ->
  In (a, p') (players s') ->
  (exists p, In (a, p) (players s) /\ player_step op s p p') \/
  (exists name now,
     op = OpJoin name a now /\
     p' = new_player
            (substring 0 20
               (match name with Some n => n | None => "Player"%string end))
            a now (next_player_id s)).
Proof.
  destruct op; cbn [exec].
  - (* join *)
    intros [= <-]. unfold handle_join.
    destruct (dict_get addr_eqb a0 (players s)) as [p|] eqn:Eg; cbn [fst players set_players].
    + intros Hin. left.
      destruct (dict_set_In_present _ _ _ _ _ _ Eg Hin) as [H | [-> ->]].
      * exists p'. split; [exact H | left; reflexivity].
      * exists p. split; [apply dict_get_In; exact Eg|].
        right. eexists. reflexivity.
    + cbn [set_next_player_id players]. rewrite (dict_set_absent _ _ _ Eg).
      rewrite in_app_iff. intros [Hin | [[= <- <-] | []]].
      * left. exists p'. split; [exact Hin | left; reflexivity].
      * right. exists msg_name, now. auto.
  - (* input *)
    intros [= <-]. unfold handle_input.
    destruct (dict_get addr_eqb a0 (players s)) as [p|] eqn:Eg;
      [|intros Hin; left; exists p'; split; [exact Hin | left; reflexivity]].
    destruct (game_running s) eqn:Er; cbn [negb fst players set_players];
      [|intros Hin; left; exists p'; split; [exact Hin | left; reflexivity]].
    intros Hin. left.
    destruct (dict_set_In_present _ _ _ _ _ _ Eg Hin) as [H | [-> ->]].
    + exists p'. split; [exact H | left; reflexivity].
    + exists p. split; [apply dict_get_In; exact Eg | right; reflexivity].
  - (* heartbeat *)
    intros [= <-]. unfold handle_heartbeat. cbn [fst].
    destruct (dict_get addr_eqb a0 (players s)) as [p|] eqn:Eg;
      [|intros Hin; left; exists p'; split; [exact Hin | left; reflexivity]].
    cbn [players set_players]. intros Hin. left.
    destruct (dict_set_In_present _ _ _ _ _ _ Eg Hin) as [H | [-> ->]].
    + exists p'. split; [exact H | left; reflexivity].
    + exists p. split; [apply dict_get_In; exact Eg | right; reflexivity].
  - (* leave *)
    intros [= <-]. unfold handle_leave.
    destruct (dict_mem addr_eqb a0 (players s)); cbn [players set_players];
      intros Hin; left; exists p'; split;
      [eapply dict_del_In; exact Hin | reflexivity | exact Hin | reflexivity].
  - (* movement *)
    unfold update_player_movements.
    destruct (move_all (game_progress s) dt (players s)) as [ps|] eqn:Em;
      [|discriminate].
    intros [= <-]. cbn [players set_players]. intros Hin. left.
    exact (move_all_In _ _ _ _ _ _ Em Hin).
  - (* obstacles *)
    unfold update_obstacles.
    destruct (calculate_game_progress current_time s); [|discriminate].
    destruct (update_difficulty _) as [s1|] eqn:Ed; [|discriminate].
    assert (Hp : players s1 = players s).
    { unfold update_difficulty in Ed.
      destruct (Qeq_bool _ 0); [discriminate|].
      injection Ed as <-. reflexivity. }
    intros H Hin. left. exists p'. split; [|reflexivity].
    rewrite <- Hp.
    destruct (game_running s1);
      [destruct (_ && _); [destruct (lane_x _); [|discriminate]|]|];
      injection H as <-; exact Hin.
  - (* collisions *)
    intros [= <-]. unfold update_collisions.
    destruct (truthy (start_time s)) eqn:Et; cbn [negb].
    + pose proof (scan_obstacles_In current_time (obstacles s) (players s) a p')
        as Hs.
      destruct (scan_obstacles current_time (obstacles s) (players s))
        as [[ps removed] n].
      cbn [players fst] in *. intros Hin.
      destruct (Hs Hin) as (p & Hp & Hch).
      left. exists p. split; [exact Hp | left; auto].
    + intros Hin. left. exists p'. split; [exact Hin | right; reflexivity].
  - (* scores *)
    intros [= <-]. unfold update_scores. cbn [players set_players].
    intros Hin. left. apply dict_map_In in Hin. exact Hin.
  - (* broadcast *)
    intros [= <-]. unfold broadcast_state. cbn [players].
    rewrite filter_In. intros [Hin _].
    left. exists p'. split; [exact Hin | reflexivity].
  - (* timeouts *)
    intros [= <-]. unfold check_timeouts. cbn [fst players set_players].
    rewrite filter_In. intros [Hin _].
    left. exists p'. split; [exact Hin | reflexivity].
  - (* start *)
    intros [= <-]. unfold reset_game. cbn [players set_game_running].
    intros Hin. left. apply dict_map_In in Hin. exact Hin.
  - (* end *)
    intros [= <-]. unfold end_game, broadcast_state.
    cbn [players set_game_running].
    rewrite filter_In. intros [Hin _].
    left. exists p'. split; [exact Hin | reflexivity].
Qed.

(** ** The invariant of reachable states *)

Lemma py_int_nonneg (q : Q) : 0 <= q -> (0 <= py_int q)%Z.
Proof.
  unfold py_int, Qle. cbn [Qnum Qden]. intros H.
  apply Z.quot_pos; lia.
Qed.

Lemma round_half_even_nonneg (q : Q) : 0 <= q -> (0 <= round_half_even q)%Z.
Proof.
  intros H. unfold round_half_even.
  assert (Hf : (0 <= Qfloor q)%Z)
    by (rewrite <- (Qfloor_Z 0); apply Qfloor_resp_le; exact H).
  destruct (Qltb _ _); [exact Hf|].
  destruct (Qltb _ _); [lia|]. destruct (Z.even _); lia.
Qed.

Lemma binary64_nonneg (q : Q) : 0 <= q -> 0 <= binary64 q.
Proof.
  intros H. unfold binary64. destruct (Qeq_bool q 0); [lra|]. cbv zeta.
  assert (E : Qltb q 0 = false) by (apply Qltb_ge; exact H).
  rewrite E.
  match goal with
  | |- 0 <= inject_Z (round_half_even (?a / 2 ^ ?e)) * _ =>
      assert (Hp : 0 < 2 ^ e) by (apply Qpower_0_lt; lra);
      assert (Ha : 0 <= a / 2 ^ e)
        by (apply Qle_shift_div_l; [exact Hp | rewrite Qmult_0_l; apply Qabs_nonneg]);
      pose proof (round_half_even_nonneg _ Ha) as Hm
  end.
  apply Qmult_le_0_compat; [|apply Qlt_le_weak; assumption].
  change 0 with (inject_Z 0). rewrite <- Zle_Qle. exact Hm.
Qed.

Lemma hit_penalty_nonneg obs p :
  (0 <= Obstacle.penalty obs)%Z -> (0 <= hit_penalty obs p)%Z.
Proof.
  intros H. unfold hit_penalty.
  destruct (0 <? Player.consecutive_collisions p)%Z eqn:E; [|exact H].
  apply Z.ltb_lt in E. apply py_int_nonneg.
  assert (H1 : 0 <= inject_Z (Obstacle.penalty obs))
    by (unfold Qle; cbn; lia).
  assert (H2 : 0 <= inject_Z (Player.consecutive_collisions p))
    by (unfold Qle; cbn; lia).
  unfold float_mul, float_add, float_of_int.
  apply binary64_nonneg, Qmult_le_0_compat; [apply binary64_nonneg, H1|].
  apply binary64_nonneg.
  assert (0 <= binary64 (binary64 (inject_Z (Player.consecutive_collisions p))
                         * binary64 0.3)).
  { apply binary64_nonneg, Qmult_le_0_compat; apply binary64_nonneg;
      [exact H2 | lra]. }
  lra.
Qed.

Lemma lane_x_in_range (i : Z) : (0 <= i <= 2)%Z -> exists c, lane_x i = Some c.
Proof.
  intros H.
  assert (Hi : i = 0%Z \/ i = 1%Z \/ i = 2%Z) by lia.
  destruct Hi as [-> | [-> | ->]]; eexists; reflexivity.
Qed.

Lemma Qdiv_nonneg (a b : Q) : 0 <= a -> 0 < b -> 0 <= a / b.
Proof.
  intros Ha Hb. unfold Qdiv.
  apply Qmult_le_0_compat; [exact Ha|].
  apply Qlt_le_weak, Qinv_lt_0_compat. exact Hb.
Qed.

Lemma collide_ok now obs p :
  (0 <= Obstacle.penalty obs)%Z -> player_ok p ->
  player_ok (fst (collide now obs p)).
Proof.
  intros Hpen Hp.
  assert (Hr : player_ok (lazy_reset now p))
    by (destruct (lazy_reset_cases now p) as [-> | ->]; exact Hp).
  unfold collide.
  destruct (_ || _); [exact Hr|].
  destruct (_ && _); [|exact Hr].
  cbn [fst]. revert Hr. generalize (lazy_reset now p). intros q Hq.
  pose proof (hit_penalty_nonneg obs q Hpen) as Hnn.
  destruct Hq as (Hl & Ht & Hm & [Hs0 Hs1] & Hy).
  unfold player_ok, apply_hit.
  cbn [Player.lane Player.target_lane Player.move_progress Player.score
       Player.y Player.set_score Player.set_blink
       Player.set_last_collision_time Player.set_consecutive_collisions].
  repeat split; try tauto.
  - apply py_max_lower.
  - apply py_max_upper; [unfold MAX_SCORE; lra|].
    assert (0 <= inject_Z (hit_penalty obs q)) by (unfold Qle; cbn; lia).
    lra.
Qed.

Lemma hit_chain_ok now obss p q :
  Forall (fun o => (0 <= Obstacle.penalty o)%Z) obss ->
  hit_chain now obss p q -> player_ok p -> player_ok q.
Proof.
  intros Hall Hch. induction Hch as [p | obs rest p q _ IH | obs rest p q _ IH];
    intros Hp.
  - exact Hp.
  - inversion Hall; subst. auto.
  - inversion Hall; subst. apply IH; [assumption|].
    apply collide_ok; assumption.
Qed.

Lemma score_player_ok gp now p :
  0 <= gp -> player_ok p -> player_ok (score_player gp now p).
Proof.
  intros Hgp Hp. unfold score_player.
  destruct (_ && _); [|exact Hp].
  set (total := POINTS_PER_TICK * _ * _).
  assert (Htot : 0 <= total).
  { subst total.
    pose proof (py_max_lower 0.5
                  (1 - inject_Z (Player.consecutive_collisions p) * 0.1)) as Hm.
    apply Qmult_le_0_compat; [apply Qmult_le_0_compat|].
    - unfold POINTS_PER_TICK, MAX_SCORE, BASE_GAME_DURATION, TICK_RATE.
      unfold Qle. cbn. lia.
    - lra.
    - lra. }
  destruct Hp as (Hl & Ht & Hm & [Hs0 Hs1] & Hy).
  assert (Hscore :
    0 <= py_min (Player.score p + total) MAX_SCORE /\
    py_min (Player.score p + total) MAX_SCORE <= MAX_SCORE).
  { split; [apply py_min_lower; [lra | unfold MAX_SCORE; lra]
           | apply py_min_upper]. }
  cbn [Player.score Player.set_score Player.finished].
  destruct (_ && _); unfold player_ok;
    cbn [Player.lane Player.target_lane Player.move_progress Player.score
         Player.y Player.set_score Player.set_blink Player.set_finished];
    tauto.
Qed.

Lemma input_player_ok m now p :
  player_ok p -> player_ok (input_player m now true p).
Proof.
  intros (Hl & Ht & Hm & Hs & Hy). unfold input_player.
  set (p1 := if up m && negb (down m) then _ else _).
  assert (H1 : Player.lane p1 = Player.lane p /\
               Player.target_lane p1 = Player.target_lane p /\
               Player.move_progress p1 = Player.move_progress p /\
               Player.score p1 = Player.score p /\ Player.y p1 = Player.y p).
  { subst p1. destruct (_ && _); [|destruct (_ && _)]; repeat split. }
  clearbody p1. destruct H1 as (E1 & E2 & E3 & E4 & E5).
  assert (Hp1 : player_ok p1).
  { unfold player_ok. rewrite E1, E2, E3, E4, E5. tauto. }
  destruct (Qle_bool 1 (Player.move_progress p1) && true); [|exact Hp1].
  set (tl := if Qltb _ _ then _ else _).
  assert (Htl : (0 <= tl <= 2)%Z).
  { subst tl. destruct (Qltb _ _); [|lia].
    destruct (left m && negb (right m) && (0 <? Player.lane p1)%Z) eqn:Ea.
    - apply andb_true_iff in Ea. destruct Ea as [_ Ea].
      apply Z.ltb_lt in Ea. lia.
    - destruct (right m && negb (left m) && (Player.lane p1 <? 2)%Z) eqn:Eb.
      + apply andb_true_iff in Eb. destruct Eb as [_ Eb].
        apply Z.ltb_lt in Eb. lia.
      + lia. }
  clearbody tl.
  destruct (negb (tl =? Player.lane p1)%Z); [|exact Hp1].
  unfold player_ok.
  cbn [Player.lane Player.target_lane Player.move_progress Player.score
       Player.y Player.set_last_heartbeat Player.set_move_progress
       Player.set_target_lane].
  rewrite E1, E4, E5. repeat split; try tauto; try lia; lra.
Qed.

Lemma transition_speed_pos gp :
  0 < (if Qltb 0.7 gp then LANE_CHANGE_DURATION * 0.8 else LANE_CHANGE_DURATION).
Proof. unfold LANE_CHANGE_DURATION. destruct (Qltb 0.7 gp); lra. Qed.

(** The vertical half of [move_player] keeps every player inside the screen
    band and touches nothing else. *)
Lemma vertical_move_ok dt p :
  player_ok p ->
  player_ok
    (if negb (Qeq_bool (Player.vertical_speed p) 0)
     then Player.set_y
            (py_max MIN_PLAYER_Y
               (py_min MAX_PLAYER_Y (Player.y p + Player.vertical_speed p * dt)))
            p
     else p).
Proof.
  intros Hp. destruct (negb _); [|exact Hp].
  destruct Hp as (Hl & Ht & Hm & Hs & Hy). unfold player_ok.
  cbn [Player.lane Player.target_lane Player.move_progress Player.score
       Player.y Player.set_y].
  repeat split; try tauto.
  - apply py_max_lower.
  - apply py_max_upper; [unfold MIN_PLAYER_Y, MAX_PLAYER_Y; lra|].
    apply py_min_left.
Qed.

Lemma move_player_ok gp dt p p' :
  0 <= dt -> player_ok p -> move_player gp dt p = Some p' -> player_ok p'.
Proof.
  intros Hdt Hp. unfold move_player.
  destruct (Qltb (Player.move_progress p) 1).
  - cbn [Player.lane Player.target_lane Player.move_progress
         Player.set_move_progress Player.set_x Player.set_lane].
    destruct (lane_x (Player.lane p)) as [sx|]; [|discriminate].
    destruct (lane_x (Player.target_lane p)) as [tx|]; [|discriminate].
    set (mp := py_min 1 _).
    assert (Hmp : 0 <= mp /\ mp <= 1).
    { subst mp. split; [|apply py_min_left].
      apply py_min_lower; [lra|].
      destruct Hp as (_ & _ & [Hm0 _] & _).
      pose proof (Qdiv_nonneg dt _ Hdt (transition_speed_pos gp)). lra. }
    clearbody mp.
    destruct Hp as (Hl & Ht & Hm & Hs & Hy).
    destruct (Qle_bool 1 mp).
    + cbn beta iota. intros H.
      match type of H with
      | (if _ then Some (Player.set_y ?v ?q) else Some ?q) = _ =>
          pose proof (vertical_move_ok dt q) as Hv
      end.
      cbn [Player.lane Player.target_lane Player.move_progress Player.score
           Player.y Player.set_move_progress Player.set_x Player.set_lane
           Player.vertical_speed] in *.
      destruct (negb _); injection H as <-; apply Hv;
        unfold player_ok; cbn; tauto.
    + intros H.
      match type of H with
      | (if _ then Some (Player.set_y ?v ?q) else Some ?q) = _ =>
          pose proof (vertical_move_ok dt q) as Hv
      end.
      cbn [Player.lane Player.target_lane Player.move_progress Player.score
           Player.y Player.set_move_progress Player.set_x Player.set_lane
           Player.vertical_speed] in *.
      destruct (negb _); injection H as <-; apply Hv;
        unfold player_ok; cbn; tauto.
  - intros H. pose proof (vertical_move_ok dt p Hp) as Hv.
    destruct (negb _); injection H as <-; exact Hv.
Qed.

(** With lanes in range the movement of one player cannot raise. *)
Lemma move_player_total gp dt p :
  player_ok p -> exists p', move_player gp dt p = Some p'.
Proof.
  intros (Hl & Ht & _). unfold move_player.
  destruct (Qltb (Player.move_progress p) 1).
  - cbn [Player.lane Player.target_lane Player.move_progress
         Player.set_move_progress Player.set_x Player.set_lane].
    destruct (lane_x_in_range _ Hl) as [sx ->].
    destruct (lane_x_in_range _ Ht) as [tx ->].
    destruct (Qle_bool 1 _); destruct (negb _); eexists; reflexivity.
  - destruct (negb _); eexists; reflexivity.
Qed.

Lemma new_player_ok name a now i : player_ok (new_player name a now i).
Proof.
  unfold player_ok, new_player, MAX_SCORE, MIN_PLAYER_Y, MAX_PLAYER_Y, PLAYER_Y.
  cbn. repeat split; try lia; lra.
Qed.

Lemma reset_player_ok now p : player_ok (reset_player now p).
Proof.
  unfold player_ok, reset_player, MAX_SCORE, MIN_PLAYER_Y, MAX_PLAYER_Y,
    PLAYER_Y.
  cbn. repeat split; try lia; lra.
Qed.

Lemma player_step_ok op s p p' :
  env_ok s -> op_ok s op -> player_step op s p p' ->
  player_ok p -> player_ok p'.
Proof.
  intros ((Hgp0 & Hgp1) & Hgd & Hobs) Hop Hstep Hp.
  destruct op; cbn [player_step op_ok] in *.
  - destruct Hstep as [-> | [name ->]]; exact Hp.
  - destruct Hstep as [-> | ->]; [exact Hp | apply input_player_ok; exact Hp].
  - destruct Hstep as [-> | ->]; exact Hp.
  - subst. exact Hp.
  - eapply move_player_ok; eauto.
  - subst. exact Hp.
  - destruct Hstep as [[_ Hch] | ->]; [|exact Hp].
    eapply hit_chain_ok; eauto.
  - subst. apply score_player_ok; assumption.
  - subst. exact Hp.
  - subst. exact Hp.
  - subst. apply reset_player_ok.
  - subst. exact Hp.
Qed.

Lemma Qeq_bool_false_of_pos (q : Q) : 0 < q -> Qeq_bool q 0 = false.
Proof.
  intros H. destruct (Qeq_bool q 0) eqn:E; [|reflexivity].
  apply Qeq_bool_iff in E. lra.
Qed.

Lemma calculate_game_progress_ok t s :
  0 < GAME_DURATION s ->
  (forall t0, start_time s = Some t0 -> t0 <= t) ->
  exists gp, calculate_game_progress t s = Some gp /\ 0 <= gp /\ gp <= 1.
Proof.
  intros Hgd Ht. unfold calculate_game_progress.
  destruct (negb (truthy (start_time s))); [exists 0; repeat split; lra|].
  destruct (start_time s) as [t0|]; [|exists 0; repeat split; lra].
  rewrite (Qeq_bool_false_of_pos _ Hgd).
  eexists. split; [reflexivity|]. split; [|apply py_min_left].
  apply py_min_lower; [lra|].
  apply Qdiv_nonneg; [|exact Hgd].
  specialize (Ht t0 eq_refl). lra.
Qed.

Lemma difficulty_pos (gp count perf : Q) :
  0 <= gp -> 1 <= perf ->
  0.7 <= (1 + gp * 1.5) * py_max 0.7 (1.3 - count * 0.15) * perf.
Proof.
  intros Hgp Hperf.
  pose proof (py_max_lower 0.7 (1.3 - count * 0.15)) as Hm.
  set (m := py_max _ _) in *. clearbody m.
  assert (H1 : 0.7 <= (1 + gp * 1.5) * m) by nra.
  nra.
Qed.

Lemma update_difficulty_ok s :
  0 <= game_progress s ->
  exists s1,
    update_difficulty s = Some s1 /\
    0 < GAME_DURATION s1 /\
    game_progress s1 = game_progress s /\
    obstacles s1 = obstacles s /\
    players s1 = players s.
Proof.
  intros Hgp. unfold update_difficulty.
  set (perf := if existsb _ _ then 1.2 else 1).
  assert (Hperf : 1 <= perf) by (subst perf; destruct (existsb _ _); lra).
  pose proof (difficulty_pos (game_progress s)
                (inject_Z (Z.of_nat (List.length (players s)))) perf Hgp Hperf)
    as Hd.
  set (d := _ * _ * perf) in *. clearbody d perf.
  rewrite (Qeq_bool_false_of_pos d) by lra.
  eexists. split; [reflexivity|]. cbn [GAME_DURATION game_progress obstacles players].
  repeat split. unfold BASE_GAME_DURATION. nra.
Qed.

Lemma new_obstacle_penalty t l ty cx :
  (0 <= Obstacle.penalty (new_obstacle t l ty cx))%Z.
Proof. destruct ty; cbn; lia. Qed.

Lemma moved_obstacles_penalty s dt obss :
  Forall (fun o => (0 <= Obstacle.penalty o)%Z) obss ->
  Forall (fun o => (0 <= Obstacle.penalty o)%Z)
    (filter on_screen (map (advance_obstacle s dt) obss)).
Proof.
  intros H. rewrite Forall_forall in *. intros o Ho.
  apply filter_In in Ho. destruct Ho as [Ho _].
  apply in_map_iff in Ho. destruct Ho as (o0 & <- & Ho0).
  exact (H o0 Ho0).
Qed.

Lemma update_obstacles_env t dt d s :
  env_ok s ->
  (0 <= draw_lane d <= 2)%Z ->
  (forall t0, start_time s = Some t0 -> t0 <= t) ->
  exists s', update_obstacles t dt d s = Some s' /\ env_ok s' /\
             players s' = players s.
Proof.
  intros ((Hgp0 & Hgp1) & Hgd & Hobs) Hlane Ht. unfold update_obstacles.
  destruct (calculate_game_progress_ok t s Hgd Ht) as (gp & -> & Hg0 & Hg1).
  match goal with
  | |- context [update_difficulty ?s0] =>
      destruct (update_difficulty_ok s0 Hg0) as (s1 & -> & Hgd1 & Egp & Eobs & Eps)
  end.
  cbn [game_progress obstacles players] in Egp, Eobs, Eps.
  pose proof (moved_obstacles_penalty s1 dt (obstacles s1)) as Hmoved.
  rewrite Eobs in Hmoved. specialize (Hmoved Hobs). rewrite <- Eobs in Hmoved.
  destruct (lane_x_in_range _ Hlane) as [cx Hcx].
  destruct (game_running s1);
    [destruct (_ && _); [rewrite Hcx|]|];
    eexists; (split; [reflexivity|]);
    unfold env_ok; cbn [game_progress GAME_DURATION obstacles players];
    rewrite Egp; (split; [|exact Eps]); repeat split; try assumption.
  apply Forall_app. split; [exact Hmoved|].
  constructor; [apply new_obstacle_penalty | constructor].
Qed.

Lemma update_collisions_env t s : env_ok s -> env_ok (update_collisions t s).
Proof.
  intros (Hgp & Hgd & Hobs). unfold update_collisions.
  destruct (negb _); [repeat split; tauto|].
  destruct (scan_obstacles t (obstacles s) (players s)) as [[ps removed] n].
  unfold env_ok. cbn [game_progress GAME_DURATION obstacles].
  repeat split; try tauto.
  destruct removed; [exact Hobs|].
  rewrite Forall_forall in *. intros o Ho. apply filter_In in Ho.
  apply Hobs. tauto.
Qed.

(** An operation the environment allows never raises from an invariant
    state, and the state it returns is again invariant. *)
Lemma exec_ok op s :
  server_ok s -> op_ok s op ->
  exists s', exec op s = Some s' /\ server_ok s'.
Proof.
  intros [Henv Hps] Hop.
  assert (Hplayers : forall s', exec op s = Some s' ->
            forall a p, In (a, p) (players s') -> player_ok p).
  { intros s' He a p' Hin.
    destruct (exec_players op s s' a p' He Hin)
      as [(p & Hp & Hstep) | (name & now & _ & ->)].
    - eapply player_step_ok; eauto.
    - apply new_player_ok. }
  assert (Hsame : forall s', exec op s = Some s' ->
            game_progress s' = game_progress s ->
            GAME_DURATION s' = GAME_DURATION s ->
            obstacles s' = obstacles s -> server_ok s').
  { intros s' He E1 E2 E3. split; [|exact (Hplayers s' He)].
    unfold env_ok. rewrite E1, E2, E3. exact Henv. }
  destruct op; cbn [exec op_ok] in *.
  - eexists. split; [reflexivity|]. apply Hsame; try reflexivity.
    all: unfold handle_join; destruct (dict_get _ _ _); reflexivity.
  - eexists. split; [reflexivity|]. apply Hsame; try reflexivity.
    all: unfold handle_input; destruct (dict_get _ _ _);
      [destruct (negb _)|]; reflexivity.
  - eexists. split; [reflexivity|]. apply Hsame; try reflexivity.
    all: unfold handle_heartbeat; destruct (dict_get _ _ _); reflexivity.
  - eexists. split; [reflexivity|]. apply Hsame; try reflexivity.
    all: unfold handle_leave; destruct (dict_mem _ _ _); reflexivity.
  - unfold update_player_movements in *.
    assert (Hall : exists ps, move_all (game_progress s) dt (players s) = Some ps).
    { clear Hplayers Hsame. revert Hps.
      induction (players s) as [|[a p] rest IH]; intros Hps.
      - exists []. reflexivity.
      - cbn [move_all].
        destruct (move_player_total (game_progress s) dt p) as [p' ->];
          [apply (Hps a); left; reflexivity|].
        destruct IH as [rest' ->];
          [intros b q Hq; apply (Hps b); right; exact Hq|].
        eexists. reflexivity. }
    destruct Hall as [ps Eps]. rewrite Eps in *.
    eexists. split; [reflexivity|]. apply Hsame; reflexivity.
  - destruct Hop as (_ & Hlane & Ht).
    assert (Ht' : forall t0, start_time s = Some t0 -> t0 <= current_time)
      by (intros t0 E; rewrite E in Ht; exact Ht).
    destruct (update_obstacles_env current_time dt d s Henv Hlane Ht')
      as (s' & He & Henv' & Eps).
    exists s'. split; [exact He|]. split; [exact Henv'|].
    exact (Hplayers s' He).
  - eexists. split; [reflexivity|]. split; [apply update_collisions_env; exact Henv|].
    apply Hplayers. reflexivity.
  - eexists. split; [reflexivity|]. apply Hsame; reflexivity.
  - eexists. split; [reflexivity|]. apply Hsame; reflexivity.
  - eexists. split; [reflexivity|]. apply Hsame; reflexivity.
  - eexists. split; [reflexivity|]. split; [|apply Hplayers; reflexivity].
    destruct Henv as (_ & Hgd & _).
    unfold env_ok. cbn. repeat split; try lra; auto.
  - eexists. split; [reflexivity|]. apply Hsame; reflexivity.
Qed.

Lemma init_server_ok : server_ok init_server.
Proof.
  split.
  - unfold env_ok, init_server, BASE_GAME_DURATION. cbn.
    repeat split; try lra. constructor.
  - intros a p [].
Qed.

Lemma reachable_ok s : reachable s -> server_ok s.
Proof.
  induction 1 as [|s op s' _ IH Hop He].
  - exact init_server_ok.
  - destruct (exec_ok op s IH Hop) as (s1 & He1 & Hok).
    rewrite He in He1. injection He1 as <-. exact Hok.
Qed.

Lemma reachable_run ops :
  forall s, reachable s -> run_ok ops s ->
            exists s', run ops s = Some s' /\ reachable s'.
Proof.
  induction ops as [|op rest IH]; intros s Hs Hok; cbn [run run_ok] in *.
  - exists s. auto.
  - destruct Hok as [Hop Hrest].
    destruct (exec op s) as [s1|] eqn:He; [|contradiction].
    apply (IH s1); [|exact Hrest].
    eapply reach_step; eauto.
Qed.

Lemma ann_state_reachable : reachable ann_state.
Proof.
  destruct (reachable_run ann_session init_server reach_init) as (s & Hs & Hr).
  - vm_compute. repeat split; discriminate.
  - vm_compute in Hs. injection Hs as <-. exact Hr.
Defined.

(** ** Player ids *)

Ltac split_ifs :=
  repeat match goal with
         | |- context [if ?b then _ else _] => destruct b
         end.

Lemma lazy_reset_id now p : Player.id (lazy_reset now p) = Player.id p.
Proof. destruct (lazy_reset_cases now p) as [-> | ->]; reflexivity. Qed.

Lemma collide_id now obs p : Player.id (fst (collide now obs p)) = Player.id p.
Proof.
  unfold collide.
  destruct (_ || _); [apply lazy_reset_id|].
  destruct (_ && _); [|apply lazy_reset_id].
  cbn. apply lazy_reset_id.
Qed.

Lemma input_player_id m now r p :
  Player.id (input_player m now r p) = Player.id p.
Proof. unfold input_player. split_ifs; reflexivity. Qed.

Lemma move_player_id gp dt p p' :
  move_player gp dt p = Some p' -> Player.id p' = Player.id p.
Proof.
  unfold move_player.
  destruct (Qltb (Player.move_progress p) 1).
  - cbn [Player.lane Player.target_lane Player.move_progress
         Player.set_move_progress Player.set_x Player.set_lane].
    destruct (lane_x (Player.lane p)); [|discriminate].
    destruct (lane_x (Player.target_lane p)); [|discriminate].
    destruct (Qle_bool 1 _); cbn beta iota; destruct (negb _);
      intros [= <-]; reflexivity.
  - destruct (negb _); intros [= <-]; reflexivity.
Qed.

Lemma score_player_id gp now p :
  Player.id (score_player gp now p) = Player.id p.
Proof. unfold score_player. split_ifs; reflexivity. Qed.

Lemma hit_chain_id now obss p q :
  hit_chain now obss p q -> Player.id q = Player.id p.
Proof.
  induction 1 as [p | obs rest p q _ IH | obs rest p q _ IH]; auto.
  rewrite IH. apply collide_id.
Qed.

Lemma player_step_id op s p p' :
  player_step op s p p' -> Player.id p' = Player.id p.
Proof.
  destruct op; cbn [player_step].
  - intros [-> | [name ->]]; reflexivity.
  - intros [-> | ->]; [reflexivity | apply input_player_id].
  - intros [-> | ->]; reflexivity.
  - intros ->. reflexivity.
  - apply move_player_id.
  - intros ->. reflexivity.
  - intros [[_ H] | ->]; [eapply hit_chain_id; eauto | reflexivity].
  - intros ->. apply score_player_id.
  - intros ->. reflexivity.
  - intros ->. reflexivity.
  - intros ->. reflexivity.
  - intros ->. reflexivity.
Qed.

Lemma ids_dict_set_present a (d : list (Addr * Player.t)) v w :
  dict_get addr_eqb a d = Some w -> Player.id v = Player.id w ->
  ids (dict_set addr_eqb a v d) = ids d.
Proof.
  intros Hg Hid. unfold ids. induction d as [|[k u] rest IH];
    cbn [dict_get dict_set] in *; [discriminate|].
  destruct (addr_eqb a k).
  - injection Hg as ->. cbn [map snd]. rewrite Hid. reflexivity.
  - cbn [map snd]. rewrite (IH Hg). reflexivity.
Qed.

Lemma ids_move_all gp dt ps ps' :
  move_all gp dt ps = Some ps' -> ids ps' = ids ps.
Proof.
  revert ps'. induction ps as [|[k p] rest IH]; intros ps'; cbn [move_all].
  - intros [= <-]. reflexivity.
  - destruct (move_player gp dt p) as [q|] eqn:Em; [|discriminate].
    destruct (move_all gp dt rest) as [rest'|]; [|discriminate].
    intros [= <-]. unfold ids in *. cbn [map snd].
    rewrite (IH rest' eq_refl).
    rewrite (move_player_id _ _ _ _ Em). reflexivity.
Qed.

Lemma ids_scan_players now obs ps :
  ids (fst (scan_players now obs ps)) = ids ps.
Proof.
  unfold ids.
  induction ps as [|[k p] rest IH]; cbn [scan_players]; [reflexivity|].
  pose proof (collide_id now obs p) as Hid.
  destruct (collide now obs p) as [q hit]. cbn [fst] in Hid.
  destruct hit.
  - cbn [fst map snd]. rewrite Hid. reflexivity.
  - destruct (scan_players now obs rest) as [rest' hit']. cbn [fst] in *.
    cbn [map snd]. rewrite Hid, IH. reflexivity.
Qed.

Lemma ids_scan_obstacles now obss :
  forall ps, ids (fst (fst (scan_obstacles now obss ps))) = ids ps.
Proof.
  induction obss as [|obs rest IH]; intros ps; cbn [scan_obstacles];
    [reflexivity|].
  pose proof (ids_scan_players now obs ps) as H1.
  destruct (scan_players now obs ps) as [ps1 hit]. cbn [fst] in H1.
  specialize (IH ps1).
  destruct (scan_obstacles now rest ps1) as [[ps2 removed] n].
  cbn [fst] in IH. destruct hit; cbn [fst]; congruence.
Qed.

Lemma ids_dict_map (f : Player.t -> Player.t) ps :
  (forall p, Player.id (f p) = Player.id p) -> ids (dict_map f ps) = ids ps.
Proof.
  intros Hf. unfold ids, dict_map. rewrite map_map. apply map_ext.
  intros [k p]. cbn. apply Hf.
Qed.

Lemma dropped_refl {A : Type} (l : list A) : dropped l l.
Proof. induction l; constructor; auto. Qed.

Lemma dropped_filter {A : Type} (g : A -> bool) (l : list A) :
  dropped l (filter g l).
Proof.
  induction l as [|x l IH]; cbn [filter]; [constructor|].
  destruct (g x); constructor; exact IH.
Qed.

Lemma dropped_dict_del a (d : list (Addr * Player.t)) :
  dropped d (dict_del addr_eqb a d).
Proof.
  induction d as [|[k u] rest IH]; cbn [dict_del]; [constructor|].
  destruct (addr_eqb a k); [apply dropped_drop, dropped_refl|].
  constructor. exact IH.
Qed.

Lemma dropped_In {A : Type} (l l' : list A) x :
  dropped l l' -> In x l' -> In x l.
Proof.
  induction 1 as [|y l l' _ IH|y l l' _ IH]; cbn; [auto| |auto].
  intros [-> | H]; auto.
Qed.

Lemma dropped_ids ps ps' : dropped ps ps' -> dropped (ids ps) (ids ps').
Proof. unfold ids. induction 1; cbn [map]; constructor; auto. Qed.

Lemma dropped_NoDup {A : Type} (l l' : list A) :
  dropped l l' -> NoDup l -> NoDup l'.
Proof.
  induction 1 as [|y l l' Hd IH|y l l' Hd IH]; intros Hn.
  - constructor.
  - inversion Hn; subst. constructor; [|auto].
    intros Hin. eapply dropped_In in Hin; eauto.
  - inversion Hn; subst. auto.
Qed.

(** The three ways an operation can change the list of tracked ids. *)
Lemma exec_ids op s s' :
  exec op s = Some s' ->
  (next_player_id s' = next_player_id s /\
   dropped (ids (players s)) (ids (players s'))) \/
  (next_player_id s' = (next_player_id s + 1)%Z /\
   ids (players s') = ids (players s) ++ [next_player_id s]).
Proof.
  destruct op; cbn [exec].
  - intros [= <-]. unfold handle_join.
    destruct (dict_get addr_eqb a (players s)) as [p|] eqn:Eg;
      cbn [fst players set_players next_player_id set_next_player_id].
    + left. split; [reflexivity|].
      erewrite ids_dict_set_present; [apply dropped_refl | exact Eg | reflexivity].
    + right. split; [reflexivity|].
      rewrite (dict_set_absent _ _ _ Eg). unfold ids. rewrite map_app.
      reflexivity.
  - intros [= <-]. left. unfold handle_input.
    destruct (dict_get addr_eqb a (players s)) as [p|] eqn:Eg;
      [|split; [reflexivity | apply dropped_refl]].
    destruct (negb _); cbn [fst players set_players next_player_id];
      [split; [reflexivity | apply dropped_refl]|].
    split; [reflexivity|].
    erewrite ids_dict_set_present;
      [apply dropped_refl | exact Eg | apply input_player_id].
  - intros [= <-]. left. unfold handle_heartbeat. cbn [fst].
    destruct (dict_get addr_eqb a (players s)) as [p|] eqn:Eg;
      [|split; [reflexivity | apply dropped_refl]].
    cbn [players set_players next_player_id]. split; [reflexivity|].
    erewrite ids_dict_set_present; [apply dropped_refl | exact Eg | reflexivity].
  - intros [= <-]. left. unfold handle_leave.
    destruct (dict_mem _ _ _); cbn [players set_players next_player_id];
      (split; [reflexivity|]); [|apply dropped_refl].
    apply dropped_ids, dropped_dict_del.
  - unfold update_player_movements.
    destruct (move_all _ _ _) as [ps|] eqn:Em; [|discriminate].
    intros [= <-]. left. cbn [players set_players next_player_id].
    split; [reflexivity|]. rewrite (ids_move_all _ _ _ _ Em).
    apply dropped_refl.
  - unfold update_obstacles.
    destruct (calculate_game_progress current_time s); [|discriminate].
    destruct (update_difficulty _) as [s1|] eqn:Ed; [|discriminate].
    assert (Hp : players s1 = players s /\ next_player_id s1 = next_player_id s).
    { unfold update_difficulty in Ed.
      destruct (Qeq_bool _ 0); [discriminate|].
      injection Ed as <-. split; reflexivity. }
    destruct Hp as [Hp Hn]. intros H. left. rewrite <- Hp, <- Hn.
    destruct (game_running s1);
      [destruct (_ && _); [destruct (lane_x _); [|discriminate]|]|];
      injection H as <-; (split; [reflexivity | apply dropped_refl]).
  - intros [= <-]. left. unfold update_collisions.
    destruct (negb _); [split; [reflexivity | apply dropped_refl]|].
    pose proof (ids_scan_obstacles current_time (obstacles s) (players s)) as Hi.
    destruct (scan_obstacles _ _ _) as [[ps removed] n]. cbn [fst] in Hi.
    cbn [players next_player_id]. rewrite Hi.
    split; [reflexivity | apply dropped_refl].
  - intros [= <-]. left. unfold update_scores.
    cbn [players set_players next_player_id]. split; [reflexivity|].
    rewrite ids_dict_map; [apply dropped_refl|].
    intros p. apply score_player_id.
  - intros [= <-]. left. unfold broadcast_state. cbn [players next_player_id].
    split; [reflexivity | apply dropped_ids, dropped_filter].
  - intros [= <-]. left. unfold check_timeouts.
    cbn [fst players set_players next_player_id].
    split; [reflexivity | apply dropped_ids, dropped_filter].
  - intros [= <-]. left. unfold reset_game.
    cbn [players set_game_running next_player_id]. split; [reflexivity|].
    rewrite ids_dict_map; [apply dropped_refl | reflexivity].
  - intros [= <-]. left. unfold end_game, broadcast_state.
    cbn [players set_game_running next_player_id].
    split; [reflexivity | apply dropped_ids, dropped_filter].
Qed.

Lemma exec_ids_ok op s s' : ids_ok s -> exec op s = Some s' -> ids_ok s'.
Proof.
  intros [Hnd Hlt] He.
  destruct (exec_ids op s s' He) as [[En Hd] | [En Ei]].
  - split; [eapply dropped_NoDup; eauto|].
    intros i Hi. rewrite En. apply Hlt. eapply dropped_In; eauto.
  - split.
    + rewrite Ei. apply NoDup_app; [exact Hnd | repeat constructor; intros [] | ].
      intros i Hi [<- | []]. specialize (Hlt _ Hi). lia.
    + intros i. rewrite Ei, in_app_iff, En.
      intros [Hi | [<- | []]]; [specialize (Hlt _ Hi)|]; lia.
Qed.

Lemma reachable_ids_ok s : reachable s -> ids_ok s.
Proof.
  induction 1 as [|s op s' _ IH _ He].
  - split; [constructor | intros i []].
  - eapply exec_ids_ok; eauto.
Qed.

Lemma unique_id ps a p b q :
  NoDup (ids ps) -> In (a, p) ps -> In (b, q) ps ->
  Player.id q = Player.id p -> q = p.
Proof.
  unfold ids. induction ps as [|[k u] rest IH]; cbn [map snd]; [intros _ []|].
  intros Hn Hp Hq Hid. inversion Hn as [|? ? Hnotin Hn']; subst.
  assert (Hin : forall c r, In (c, r) rest ->
                            In (Player.id r) (map (fun kv => Player.id (snd kv)) rest)).
  { intros c r Hr. apply in_map_iff. exists (c, r). auto. }
  destruct Hp as [[= -> ->] | Hp], Hq as [[= -> ->] | Hq].
  - reflexivity.
  - exfalso. apply Hnotin. rewrite <- Hid. eapply Hin; eauto.
  - exfalso. apply Hnotin. rewrite Hid. eapply Hin; eauto.
  - eapply IH; eauto.
Qed.

(** ** Properties of one player along a run *)

Section Persist.
Variable P : Player.t -> Prop.
Variable allowed : GameServer -> Op -> Prop.
Hypothesis step_P :
  forall op s p p',
    allowed s op -> player_step op s p p' -> P p -> P p'.

(** Once every player carrying id [i] satisfies [P], so does every player
    carrying that id later in the run: the id is never handed out again and
    no allowed operation breaks [P]. *)
Lemma persists ops :
  forall s s' i,
    ids_ok s -> all_ops allowed ops s -> run ops s = Some s' ->
    (i < next_player_id s)%Z ->
    (forall a p, In (a, p) (players s) -> Player.id p = i -> P p) ->
    forall a p, In (a, p) (players s') -> Player.id p = i -> P p.
Proof.
  induction ops as [|op rest IH]; intros s s' i Hids Hall Hrun Hi HP;
    cbn [run all_ops] in *.
  - injection Hrun as <-. exact HP.
  - destruct Hall as [Hop Hall].
    destruct (exec op s) as [s1|] eqn:He; [|discriminate].
    apply (IH s1 s' i); auto.
    + eapply exec_ids_ok; eauto.
    + destruct (exec_ids op s s1 He) as [[En _] | [En _]]; lia.
    + intros a p1 Hin Hid.
      destruct (exec_players op s s1 a p1 He Hin)
        as [(p & Hp & Hstep) | (name & now & _ & ->)].
      * apply (step_P op s p p1 Hop Hstep).
        apply (HP a p Hp). rewrite <- Hid. symmetry.
        eapply player_step_id; eauto.
      * cbn in Hid. lia.
Qed.
End Persist.

Lemma collide_finished now obs p :
  Player.finished p = true -> Player.finished (fst (collide now obs p)) = true.
Proof.
  intros H. unfold collide.
  assert (Hr : Player.finished (lazy_reset now p) = true)
    by (destruct (lazy_reset_cases now p) as [-> | ->]; exact H).
  rewrite Hr, orb_true_r. exact Hr.
Qed.

Lemma hit_chain_finished now obss p q :
  hit_chain now obss p q ->
  Player.finished p = true -> Player.finished q = true.
Proof.
  induction 1 as [p | obs rest p q _ IH | obs rest p q _ IH]; auto.
  intros H. apply IH, collide_finished, H.
Qed.

Lemma move_player_finished gp dt p p' :
  move_player gp dt p = Some p' -> Player.finished p' = Player.finished p.
Proof.
  unfold move_player.
  destruct (Qltb (Player.move_progress p) 1).
  - cbn [Player.lane Player.target_lane Player.move_progress
         Player.set_move_progress Player.set_x Player.set_lane].
    destruct (lane_x (Player.lane p)); [|discriminate].
    destruct (lane_x (Player.target_lane p)); [|discriminate].
    destruct (Qle_bool 1 _); cbn beta iota; destruct (negb _);
      intros [= <-]; reflexivity.
  - destruct (negb _); intros [= <-]; reflexivity.
Qed.

Lemma score_player_finished gp now p :
  Player.finished p = true -> score_player gp now p = p.
Proof.
  intros H. unfold score_player. rewrite H, andb_false_r. reflexivity.
Qed.

Lemma input_player_finished m now r p :
  Player.finished (input_player m now r p) = Player.finished p.
Proof. unfold input_player. split_ifs; reflexivity. Qed.

Lemma player_step_finished op s p p' :
  in_round s op -> player_step op s p p' ->
  Player.finished p = true -> Player.finished p' = true.
Proof.
  unfold in_round. destruct op; cbn [player_step is_start]; intros Hop.
  - intros [-> | [name ->]]; auto.
  - intros [-> | ->]; [auto | rewrite input_player_finished; auto].
  - intros [-> | ->]; auto.
  - intros ->. auto.
  - intros Hm. rewrite (move_player_finished _ _ _ _ Hm). auto.
  - intros ->. auto.
  - intros [[_ H] | ->]; [eapply hit_chain_finished; eauto | auto].
  - intros -> H. rewrite (score_player_finished _ _ _ H). exact H.
  - intros ->. auto.
  - intros ->. auto.
  - discriminate.
  - intros ->. auto.
Qed.

(** C2.  In every reachable state each tracked player's score lies in
    [0, MAX_SCORE], in particular right after the per-tick scoring and right
    after the collision penalties; and along any run that contains no
    between-round reset, a player found finished is still finished whenever
    a player with its id is tracked. *)
Theorem score_range_and_finished_monotone (s : GameServer) :
  reachable s ->
  (forall a p, In (a, p) (players s) ->
     0 <= Player.score p /\ Player.score p <= MAX_SCORE) /\
  (forall now a p, In (a, p) (players (update_scores now s)) ->
     0 <= Player.score p /\ Player.score p <= MAX_SCORE) /\
  (forall now a p, In (a, p) (players (update_collisions now s)) ->
     0 <= Player.score p /\ Player.score p <= MAX_SCORE) /\
  (forall ops s' a p b p',
     all_ops in_round ops s -> run ops s = Some s' ->
     In (a, p) (players s) -> Player.finished p = true ->
     In (b, p') (players s') -> Player.id p' = Player.id p ->
     Player.finished p' = true).
Proof.
  intros Hs.
  assert (Hscore : forall s0, reachable s0 -> forall a p,
            In (a, p) (players s0) ->
            0 <= Player.score p /\ Player.score p <= MAX_SCORE).
  { intros s0 Hs0 a p Hin.
    destruct (reachable_ok s0 Hs0) as [_ Hps].
    destruct (Hps a p Hin) as (_ & _ & _ & H & _). exact H. }
  split; [|split; [|split]].
  - apply Hscore, Hs.
  - intros now. apply Hscore.
    apply (reach_step s (OpScores now)); [exact Hs | exact I | reflexivity].
  - intros now. apply Hscore.
    apply (reach_step s (OpCollisions now)); [exact Hs | exact I | reflexivity].
  - intros ops s' a p b p' Hall Hrun Hin Hfin Hin' Hid.
    pose proof (reachable_ids_ok s Hs) as Hids.
    apply (persists (fun q => Player.finished q = true) in_round
             player_step_finished ops s s' (Player.id p) Hids Hall Hrun)
      with (a := b); auto.
    + destruct Hids as [_ Hlt]. apply Hlt. unfold ids. apply in_map_iff.
      exists (a, p). auto.
    + intros c q Hq Hqid. destruct Hids as [Hnd _].
      rewrite (unique_id _ a p c q Hnd Hin Hq Hqid). exact Hfin.
Qed.

(** C2 on ann's session: after one more scoring tick her score is still in
    range. *)
Lemma score_range_and_finished_monotone_witness :
  match dict_get addr_eqb ann (players (update_scores 102 ann_state)) with
  | Some p => 0 <= Player.score p /\ Player.score p <= MAX_SCORE
  | None => False
  end.
Proof.
  destruct (dict_get addr_eqb ann (players (update_scores 102 ann_state)))
    as [p|] eqn:E.
  - apply dict_get_In in E.
    exact (proj1 (proj2 (score_range_and_finished_monotone ann_state
                           ann_state_reachable)) 102 ann p E).
  - vm_compute in E. discriminate E.
Defined.

(** C8.  In every reachable state each tracked player has its lane in
    {0, 1, 2} and its move progress in [0, 1]; and every operation the
    environment allows (join, input, movement, reset and all the others)
    runs without raising and leads to a state with the same bounds. *)
Theorem lane_and_progress_bounds (s : GameServer) :
  reachable s ->
  (forall a p, In (a, p) (players s) ->
     (0 <= Player.lane p <= 2)%Z /\
     0 <= Player.move_progress p /\ Player.move_progress p <= 1) /\
  (forall op, op_ok s op ->
     exists s', exec op s = Some s' /\
       forall a p, In (a, p) (players s') ->
         (0 <= Player.lane p <= 2)%Z /\
         0 <= Player.move_progress p /\ Player.move_progress p <= 1).
Proof.
  intros Hs.
  assert (Hb : forall s0, server_ok s0 -> forall a p,
            In (a, p) (players s0) ->
            (0 <= Player.lane p <= 2)%Z /\
            0 <= Player.move_progress p /\ Player.move_progress p <= 1).
  { intros s0 [_ Hps] a p Hin.
    destruct (Hps a p Hin) as (Hl & _ & Hm & _). tauto. }
  pose proof (reachable_ok s Hs) as Hok.
  split; [apply Hb, Hok|].
  intros op Hop. destruct (exec_ok op s Hok Hop) as (s' & He & Hok').
  exists s'. split; [exact He | apply Hb, Hok'].
Qed.

(** C8 on ann's session: in the middle of her lane change she is still in
    lane 1 with progress 1/3. *)
Lemma lane_and_progress_bounds_witness :
  match dict_get addr_eqb ann (players ann_state) with
  | Some p =>
      (0 <= Player.lane p <= 2)%Z /\
      0 <= Player.move_progress p /\ Player.move_progress p <= 1
  | None => False
  end.
Proof.
  destruct (dict_get addr_eqb ann (players ann_state)) as [p|] eqn:E.
  - apply dict_get_In in E.
    exact (proj1 (lane_and_progress_bounds ann_state ann_state_reachable)
             ann p E).
  - vm_compute in E. discriminate E.
Defined.

Lemma crash_state_reachable : reachable crash_state.
Proof.
  destruct (reachable_run crash_session init_server reach_init) as (s & Hs & Hr).
  - vm_compute. repeat split; discriminate.
  - vm_compute in Hs. injection Hs as <-. exact Hr.
Defined.

(** ** Invulnerability *)

Lemma lazy_reset_blink now p : Player.blink (lazy_reset now p) = Player.blink p.
Proof. destruct (lazy_reset_cases now p) as [-> | ->]; reflexivity. Qed.

Lemma lazy_reset_score now p : Player.score (lazy_reset now p) = Player.score p.
Proof. destruct (lazy_reset_cases now p) as [-> | ->]; reflexivity. Qed.

(** The stamp after the loop body is the old one or the current time. *)
Lemma collide_blink now obs p :
  Player.blink (fst (collide now obs p)) = Player.blink p \/
  Player.blink (fst (collide now obs p)) = now.
Proof.
  unfold collide.
  destruct (_ || _); [left; apply lazy_reset_blink|].
  destruct (_ && _); [right; reflexivity | left; apply lazy_reset_blink].
Qed.

Lemma hit_chain_blink_ge t now obss p q :
  t <= now -> hit_chain now obss p q ->
  t <= Player.blink p -> t <= Player.blink q.
Proof.
  intros Hnow. induction 1 as [p | obs rest p q _ IH | obs rest p q _ IH]; auto.
  intros Hp. apply IH.
  destruct (collide_blink now obs p) as [-> | ->]; assumption.
Qed.

Lemma move_player_blink gp dt p p' :
  move_player gp dt p = Some p' -> Player.blink p' = Player.blink p.
Proof.
  unfold move_player.
  destruct (Qltb (Player.move_progress p) 1).
  - cbn [Player.lane Player.target_lane Player.move_progress
         Player.set_move_progress Player.set_x Player.set_lane].
    destruct (lane_x (Player.lane p)); [|discriminate].
    destruct (lane_x (Player.target_lane p)); [|discriminate].
    destruct (Qle_bool 1 _); cbn beta iota; destruct (negb _);
      intros [= <-]; reflexivity.
  - destruct (negb _); intros [= <-]; reflexivity.
Qed.

Lemma input_player_blink m now r p :
  Player.blink (input_player m now r p) = Player.blink p.
Proof. unfold input_player. split_ifs; reflexivity. Qed.

Lemma score_player_blink gp now p :
  Player.blink (score_player gp now p) = Player.blink p \/
  Player.blink (score_player gp now p) = now.
Proof. unfold score_player. split_ifs; auto. Qed.

Lemma player_step_blink_ge t op s p p' :
  not_before t s op -> player_step op s p p' ->
  t <= Player.blink p -> t <= Player.blink p'.
Proof.
  destruct op; cbn [player_step not_before]; intros Hop.
  - intros [-> | [name ->]]; auto.
  - intros [-> | ->]; [auto | rewrite input_player_blink; auto].
  - intros [-> | ->]; auto.
  - intros ->. auto.
  - intros Hm. rewrite (move_player_blink _ _ _ _ Hm). auto.
  - intros ->. auto.
  - intros [[_ H] | ->]; [eapply hit_chain_blink_ge; eauto | auto].
  - intros -> H.
    destruct (score_player_blink (game_progress s) now p) as [-> | ->]; auto.
  - intros ->. auto.
  - intros ->. auto.
  - contradiction.
  - intros ->. auto.
Qed.

(** While the blink window is open the loop body never reaches the
    penalty. *)
Lemma collide_invulnerable now obs p :
  now - Player.blink p < BLINK_DURATION ->
  fst (collide now obs p) = lazy_reset now p.
Proof.
  intros H. apply collide_miss. unfold collide.
  apply Qltb_lt in H. rewrite H. reflexivity.
Qed.

Lemma hit_chain_invulnerable now obss p q :
  hit_chain now obss p q ->
  now - Player.blink p < BLINK_DURATION ->
  Player.score q = Player.score p /\ Player.blink q = Player.blink p.
Proof.
  induction 1 as [p | obs rest p q _ IH | obs rest p q _ IH]; auto.
  intros H. rewrite (collide_invulnerable now obs p H) in IH.
  rewrite lazy_reset_blink, lazy_reset_score in IH. auto.
Qed.

Lemma run_ids_ok ops : forall s s', ids_ok s -> run ops s = Some s' -> ids_ok s'.
Proof.
  induction ops as [|op rest IH]; intros s s' Hs; cbn [run].
  - intros [= <-]. exact Hs.
  - destruct (exec op s) as [s1|] eqn:He; [|discriminate].
    apply IH. eapply exec_ids_ok; eauto.
Qed.

(** C3.  Let a tracked player carry the blink stamp [t] of a collision
    applied at time [t].  After any run of operations of the same round, none
    of them earlier than [t], a collision scan at any time [t'] with
    [t' - t < BLINK_DURATION] leaves that player's score as it was, whatever
    obstacles overlap it. *)
Theorem invulnerable_after_collision (s : GameServer) :
  reachable s ->
  forall t t' ops s1 a p b p1 c p2,
    In (a, p) (players s) -> Player.blink p = t ->
    all_ops (not_before t) ops s -> run ops s = Some s1 ->
    In (b, p1) (players s1) -> Player.id p1 = Player.id p ->
    t' - t < BLINK_DURATION ->
    In (c, p2) (players (update_collisions t' s1)) ->
    Player.id p2 = Player.id p ->
    Player.score p2 = Player.score p1.
Proof.
  intros Hs t t' ops s1 a p b p1 c p2 Hin Hblink Hall Hrun Hin1 Hid1 Hwin
         Hin2 Hid2.
  pose proof (reachable_ids_ok s Hs) as Hids.
  pose proof (run_ids_ok ops s s1 Hids Hrun) as [Hnd1 _].
  assert (Hshield : t <= Player.blink p1).
  { apply (persists (fun q => t <= Player.blink q) (not_before t)
             (player_step_blink_ge t) ops s s1 (Player.id p) Hids Hall Hrun)
      with (a := b); auto.
    - destruct Hids as [_ Hlt]. apply Hlt. unfold ids. apply in_map_iff.
      exists (a, p). auto.
    - intros d q Hq Hqid. destruct Hids as [Hnd _].
      rewrite (unique_id _ a p d q Hnd Hin Hq Hqid). rewrite Hblink. lra. }
  destruct (exec_players (OpCollisions t') s1 _ c p2 eq_refl Hin2)
    as [(q & Hq & Hstep) | (name & now & Hop & _)]; [|discriminate].
  assert (Eq : q = p1).
  { apply (unique_id _ b p1 c q Hnd1 Hin1 Hq).
    rewrite <- (player_step_id _ _ _ _ Hstep). congruence. }
  subst q. cbn [player_step] in Hstep.
  destruct Hstep as [[_ Hch] | ->]; [|reflexivity].
  apply (hit_chain_invulnerable _ _ _ _ Hch). lra.
Qed.

(** C3 on the crash session: ann was hit at 105; by 106 a second car
    overlaps her, and the scan of time 106 leaves her the score she had
    before it. *)
Lemma invulnerable_after_collision_witness :
  match dict_get addr_eqb ann (players after_crash),
        dict_get addr_eqb ann (players (update_collisions 106 after_crash)) with
  | Some p1, Some p2 =>
      existsb (check_collision p1) (obstacles after_crash) = true /\
      Player.score p2 = Player.score p1
  | _, _ => False
  end.
Proof.
  destruct (dict_get addr_eqb ann (players after_crash)) as [p1|] eqn:E1;
    [|vm_compute in E1; discriminate E1].
  destruct (dict_get addr_eqb ann (players (update_collisions 106 after_crash)))
    as [p2|] eqn:E2; [|vm_compute in E2; discriminate E2].
  destruct (dict_get addr_eqb ann (players crash_state)) as [p|] eqn:E0;
    [|vm_compute in E0; discriminate E0].
  pose proof (dict_get_In _ _ _ E0) as H0.
  pose proof (dict_get_In _ _ _ E1) as H1.
  pose proof (dict_get_In _ _ _ E2) as H2.
  vm_compute in E0. injection E0 as <-.
  vm_compute in E1. injection E1 as <-.
  vm_compute in E2. injection E2 as <-.
  split; [vm_compute; reflexivity|].
  refine (invulnerable_after_collision crash_state crash_state_reachable
            105 106 crash_later after_crash ann _ ann _ ann _
            H0 _ _ _ H1 _ _ H2 _).
  - reflexivity.
  - vm_compute. repeat split; discriminate.
  - vm_compute. reflexivity.
  - reflexivity.
  - vm_compute. reflexivity.
  - reflexivity.
Defined.

(** ** Movement *)

(** [max(lo, min(hi, v))] is the clamp of [v] to [lo, hi]. *)
Lemma clamp_spec (lo hi v : Q) :
  lo <= hi ->
  let c := py_max lo (py_min hi v) in
  (lo <= c /\ c <= hi) /\
  (lo <= v /\ v <= hi -> c == v) /\
  (v < lo -> c == lo) /\
  (hi < v -> c == hi).
Proof.
  intros Hlh c. subst c. unfold py_max, py_min.
  destruct (Qltb v hi) eqn:E1;
    [apply Qltb_lt in E1 | apply Qltb_ge in E1];
    match goal with
    | |- context [Qltb ?a ?b] =>
        destruct (Qltb a b) eqn:E2;
        [apply Qltb_lt in E2 | apply Qltb_ge in E2]
    end;
    repeat split; intros; lra.
Qed.

(** What one iteration of the movement loop does to a player whose lanes
    are valid indices into [LANE_X]. *)
Lemma move_player_spec gp dt p sx tx :
  lane_x (Player.lane p) = Some sx ->
  lane_x (Player.target_lane p) = Some tx ->
  MIN_PLAYER_Y <= Player.y p /\ Player.y p <= MAX_PLAYER_Y ->
  exists p',
    move_player gp dt p = Some p' /\
    (Player.move_progress p < 1 ->
     let duration :=
       if Qltb 0.7 gp then LANE_CHANGE_DURATION * 0.8
       else LANE_CHANGE_DURATION in
     let u := Player.move_progress p + dt / duration in
     (u < 1 ->
      Player.move_progress p' = u /\
      Player.lane p' = Player.lane p /\
      Player.x p' = sx + (tx - sx) * ease_out_back u) /\
     (1 <= u ->
      Player.move_progress p' = 1 /\
      Player.lane p' = Player.target_lane p /\
      Player.x p' = tx /\
      Player.x p' == sx + (tx - sx) * ease_out_back 1)) /\
    (1 <= Player.move_progress p ->
     Player.move_progress p' = Player.move_progress p /\
     Player.lane p' = Player.lane p /\
     Player.x p' = Player.x p) /\
    Player.target_lane p' = Player.target_lane p /\
    (let v := Player.y p + Player.vertical_speed p * dt in
     (MIN_PLAYER_Y <= Player.y p' /\ Player.y p' <= MAX_PLAYER_Y) /\
     (MIN_PLAYER_Y <= v /\ v <= MAX_PLAYER_Y -> Player.y p' == v) /\
     (v < MIN_PLAYER_Y -> Player.y p' == MIN_PLAYER_Y) /\
     (MAX_PLAYER_Y < v -> Player.y p' == MAX_PLAYER_Y)).
Proof.
  intros Hsx Htx Hy.
  assert (Hvert : forall q,
            Player.y q = Player.y p ->
            Player.vertical_speed q = Player.vertical_speed p ->
            let q' :=
              if negb (Qeq_bool (Player.vertical_speed q) 0)
              then Player.set_y
                     (py_max MIN_PLAYER_Y
                        (py_min MAX_PLAYER_Y
                           (Player.y q + Player.vertical_speed q * dt))) q
              else q in
            let v := Player.y p + Player.vertical_speed p * dt in
            (MIN_PLAYER_Y <= Player.y q' /\ Player.y q' <= MAX_PLAYER_Y) /\
            (MIN_PLAYER_Y <= v /\ v <= MAX_PLAYER_Y -> Player.y q' == v) /\
            (v < MIN_PLAYER_Y -> Player.y q' == MIN_PLAYER_Y) /\
            (MAX_PLAYER_Y < v -> Player.y q' == MAX_PLAYER_Y)).
  { intros q Ey Ev q' v. subst q' v. rewrite Ey, Ev.
    destruct (Qeq_bool (Player.vertical_speed p) 0) eqn:E; cbn [negb].
    - apply Qeq_bool_iff in E. rewrite Ey.
      assert (Ez : Player.y p + Player.vertical_speed p * dt == Player.y p)
        by (rewrite E; ring).
      rewrite Ez. repeat split; intros; lra.
    - cbn [Player.y Player.set_y]. apply clamp_spec.
      unfold MIN_PLAYER_Y, MAX_PLAYER_Y. lra. }
  unfold move_player.
  destruct (Qltb (Player.move_progress p) 1) eqn:Emp.
  - apply Qltb_lt in Emp.
    cbn [Player.lane Player.target_lane Player.move_progress
         Player.set_move_progress Player.set_x Player.set_lane].
    rewrite Hsx, Htx.
    set (u := Player.move_progress p + dt / _).
    unfold py_min. destruct (Qltb u 1) eqn:Eu.
    + assert (E1 : Qle_bool 1 u = false)
        by (unfold Qltb in Eu; apply negb_true_iff in Eu; exact Eu).
      rewrite E1. apply Qltb_lt in Eu.
      match goal with
      | |- context [Player.vertical_speed ?q] =>
          pose proof (Hvert q eq_refl eq_refl) as Hv
      end.
      cbv zeta in Hv.
      destruct (negb _); eexists; (split; [reflexivity|]);
        (split; [|split; [|split; [|exact Hv]]]);
        try reflexivity; try (intros; lra);
        intros _; split; intros; try lra; repeat split.
    + assert (E1 : Qle_bool 1 1 = true) by reflexivity.
      rewrite E1. cbn beta iota. apply Qltb_ge in Eu.
      match goal with
      | |- context [Player.vertical_speed ?q] =>
          pose proof (Hvert q eq_refl eq_refl) as Hv
      end.
      cbv zeta in Hv.
      assert (Hease : tx == sx + (tx - sx) * ease_out_back 1)
        by (unfold ease_out_back; ring).
      destruct (negb _); eexists; (split; [reflexivity|]);
        (split; [|split; [|split; [|exact Hv]]]);
        try reflexivity; try (intros; lra);
        intros _; split; intros; try lra; repeat split; exact Hease.
  - apply Qltb_ge in Emp.
    pose proof (Hvert p eq_refl eq_refl) as Hv. cbv zeta in Hv.
    destruct (negb _); eexists; (split; [reflexivity|]);
      (split; [|split; [|split; [|exact Hv]]]);
      try reflexivity; try (intros; lra); intros _; repeat split.
Qed.

Lemma move_all_total gp dt ps :
  (forall a p, In (a, p) ps -> player_ok p) ->
  exists ps', move_all gp dt ps = Some ps'.
Proof.
  induction ps as [|[a p] rest IH]; intros Hps.
  - exists []. reflexivity.
  - cbn [move_all].
    destruct (move_player_total gp dt p) as [p' ->];
      [apply (Hps a); left; reflexivity|].
    destruct IH as [rest' ->];
      [intros b q Hq; apply (Hps b); right; exact Hq|].
    eexists. reflexivity.
Qed.

Lemma move_all_keys gp dt ps ps' :
  move_all gp dt ps = Some ps' -> map fst ps' = map fst ps.
Proof.
  revert ps'. induction ps as [|[k p] rest IH]; intros ps'; cbn [move_all].
  - intros [= <-]. reflexivity.
  - destruct (move_player gp dt p) as [q|]; [|discriminate].
    destruct (move_all gp dt rest) as [rest'|]; [|discriminate].
    intros [= <-]. cbn [map fst]. rewrite (IH rest' eq_refl). reflexivity.
Qed.

(** C4.  From a reachable state the movement tick does not raise, keeps
    the set and order of tracked players, and moves each of them as follows
    ([sx], [tx] the centres of the current and the target lane).  With
    progress below 1 the progress grows by [dt / duration], where [duration]
    is [LANE_CHANGE_DURATION], times 0.8 once the round progress exceeds 0.7;
    short of 1 the lane stays and x is the interpolation between the two
    centres at [ease_out_back] of the new progress, with
    [ease_out_back u = 1 + c2 (u-1)^3 + c1 (u-1)^2], c1 = 1.70158,
    c2 = c1 * 1.525; from 1 on the progress is clamped to 1, the lane becomes
    the target lane and x is exactly its centre (which is also the
    interpolation at progress 1).  With progress already 1 nothing of this
    changes.  The vertical position is y + vertical_speed * dt clamped to
    [MIN_PLAYER_Y, MAX_PLAYER_Y]. *)
Theorem movement_tick (s : GameServer) (dt : Q) :
  reachable s ->
  exists s',
    update_player_movements dt s = Some s' /\
    map fst (players s') = map fst (players s) /\
    (forall u, ease_out_back u =
               1 + (1.70158 * 1.525) * (u - 1) ^ 3 + 1.70158 * (u - 1) ^ 2) /\
    forall a p', In (a, p') (players s') ->
      exists p sx tx,
        In (a, p) (players s) /\
        lane_x (Player.lane p) = Some sx /\
        lane_x (Player.target_lane p) = Some tx /\
        (Player.move_progress p < 1 ->
         let duration :=
           if Qltb 0.7 (game_progress s) then LANE_CHANGE_DURATION * 0.8
           else LANE_CHANGE_DURATION in
         let u := Player.move_progress p + dt / duration in
         (u < 1 ->
          Player.move_progress p' = u /\
          Player.lane p' = Player.lane p /\
          Player.x p' = sx + (tx - sx) * ease_out_back u) /\
         (1 <= u ->
          Player.move_progress p' = 1 /\
          Player.lane p' = Player.target_lane p /\
          Player.x p' = tx /\
          Player.x p' == sx + (tx - sx) * ease_out_back 1)) /\
        (1 <= Player.move_progress p ->
         Player.move_progress p' = Player.move_progress p /\
         Player.lane p' = Player.lane p /\
         Player.x p' = Player.x p) /\
        Player.target_lane p' = Player.target_lane p /\
        (let v := Player.y p + Player.vertical_speed p * dt in
         (MIN_PLAYER_Y <= Player.y p' /\ Player.y p' <= MAX_PLAYER_Y) /\
         (MIN_PLAYER_Y <= v /\ v <= MAX_PLAYER_Y -> Player.y p' == v) /\
         (v < MIN_PLAYER_Y -> Player.y p' == MIN_PLAYER_Y) /\
         (MAX_PLAYER_Y < v -> Player.y p' == MAX_PLAYER_Y)).
Proof.
  intros Hs. destruct (reachable_ok s Hs) as [_ Hps].
  unfold update_player_movements.
  destruct (move_all_total (game_progress s) dt (players s) Hps) as [ps Em].
  rewrite Em. eexists. split; [reflexivity|]. cbn [players set_players].
  split; [exact (move_all_keys _ _ _ _ Em)|].
  split; [reflexivity|].
  intros a p' Hin.
  destruct (move_all_In _ _ _ _ _ _ Em Hin) as (p & Hp & Hm).
  destruct (Hps a p Hp) as (Hl & Ht & _ & _ & Hy).
  destruct (lane_x_in_range _ Hl) as [sx Hsx].
  destruct (lane_x_in_range _ Ht) as [tx Htx].
  destruct (move_player_spec (game_progress s) dt p sx tx Hsx Htx Hy)
    as (q & Hq & Hspec).
  rewrite Hq in Hm. injection Hm as <-.
  exists p, sx, tx.
  split; [exact Hp|]. split; [exact Hsx|]. split; [exact Htx|]. exact Hspec.
Qed.

(** C4 on ann's session: a second tenth of a second takes her lane change
    from progress 1/3 to 2/3, still in lane 1, on the eased path from 500
    towards 300. *)
Lemma movement_tick_witness :
  match update_player_movements 0.1 ann_state with
  | Some s' =>
      match dict_get addr_eqb ann (players s') with
      | Some p' =>
          Player.move_progress p' == 2 # 3 /\
          Player.lane p' = 1%Z /\
          Player.x p' == 500 + (300 - 500) * ease_out_back (2 # 3) /\
          Player.y p' == 300
      | None => False
      end
  | None => False
  end.
Proof.
  destruct (movement_tick ann_state 0.1 ann_state_reachable)
    as (s' & He & _ & _ & Hall).
  rewrite He.
  destruct (dict_get addr_eqb ann (players s')) as [p'|] eqn:E;
    [|vm_compute in He; injection He as <-; vm_compute in E; discriminate E].
  destruct (Hall ann p' (dict_get_In _ _ _ E))
    as (p & sx & tx & Hin & Hsx & Htx & Hmove & _ & _ & Hvert).
  destruct Hin as [[= <-] | []].
  vm_compute in Hsx. injection Hsx as <-.
  vm_compute in Htx. injection Htx as <-.
  assert (Hlt : (1 # 3) < 1) by reflexivity.
  destruct (Hmove Hlt) as [Hshort _]. cbv zeta in Hshort, Hvert.
  destruct Hshort as (Hmp & Hlane & Hx); [vm_compute; reflexivity|].
  destruct Hvert as (_ & Hy & _).
  rewrite Hmp, Hx. split; [|split; [|split]].
  - vm_compute. reflexivity.
  - exact Hlane.
  - vm_compute. reflexivity.
  - rewrite Hy; [vm_compute; reflexivity|].
    split; vm_compute; discriminate.
Defined.

(** ** Input *)

Lemma input_player_running m now p :
  (0 <= Player.lane p <= 2)%Z ->
  let changes :=
    Qle_bool 1 (Player.move_progress p)
    && Qltb 0.5 (now - Player.last_collision_time p)
    && negb (wanted_lane m (Player.lane p) =? Player.lane p)%Z in
  input_player m now true p =
    Player.mk (Player.name p) (Player.lane p)
      (if changes then wanted_lane m (Player.lane p) else Player.target_lane p)
      (Player.score p) (Player.blink p) now (Player.addr p) (Player.x p)
      (Player.y p) (Player.id p) (Player.finished p)
      (if changes then 0 else Player.move_progress p)
      (Player.consecutive_collisions p) (Player.last_collision_time p)
      (wanted_speed m) (Player.target_y p).
Proof.
  intros Hl changes. subst changes. unfold input_player, wanted_lane, wanted_speed.
  destruct p as [nm ln tl sc bl hb ad px py pid fin mp cc lct vs ty].
  cbn [Player.lane] in Hl.
  assert (Hln : ln = 0%Z \/ ln = 1%Z \/ ln = 2%Z) by lia.
  destruct m as [l r u d]. cbn [left right up down].
  destruct Hln as [-> | [-> | ->]]; destruct l, r, u, d;
    cbn [andb negb Player.lane Player.target_lane Player.move_progress
         Player.last_collision_time Player.set_vertical_speed
         Player.set_target_lane Player.set_move_progress
         Player.set_last_heartbeat Player.name Player.score Player.blink
         Player.last_heartbeat Player.addr Player.x Player.y Player.id
         Player.finished Player.consecutive_collisions Player.vertical_speed
         Player.target_y];
    destruct (Qle_bool 1 mp), (Qltb 0.5 (now - lct)); reflexivity.
Qed.

(** C5 (as stated) fails between rounds: ann is tracked but no round is
    running; her forward-only input leaves the server untouched and her
    vertical speed at 0 instead of [- VERTICAL_SPEED]. *)
Lemma input_ignored_while_not_running :
  let s := fst (handle_join (Some "ann"%string) ann 98 init_server) in
  let m := mkInput false false true false in
  dict_mem addr_eqb ann (players s) = true /\
  game_running s = false /\
  handle_input m ann 99 s = (s, []) /\
  match dict_get addr_eqb ann (players (fst (handle_input m ann 99 s))) with
  | Some p =>
      Player.vertical_speed p == 0 /\
      ~ Player.vertical_speed p == - VERTICAL_SPEED
  | None => False
  end.
Proof.
  cbv zeta. repeat split; try reflexivity.
  vm_compute. discriminate.
Qed.

(** C5 (amended).  An input message is acted on only for a tracked player
    while a round is running; otherwise the server state is unchanged.  Then
    the vertical speed becomes [- VERTICAL_SPEED] for forward alone,
    [VERTICAL_SPEED] for backward alone and 0 otherwise, replacing the old
    value; the lane change is accepted exactly when the transition is
    complete (progress >= 1), more than 0.5 s have passed since the player's
    last collision, and the wanted lane (left alone: lane - 1 floored at 0,
    right alone: lane + 1 capped at 2) differs from the current lane: then
    the target lane is the wanted lane and progress restarts at 0; otherwise
    target lane and progress stay.  The activity stamp becomes [now], nothing
    else of the player changes and nothing is sent. *)
Theorem handle_input_rules (m : InputMsg) (a : Addr) (now : Q)
    (s : GameServer) :
  (dict_get addr_eqb a (players s) = None -> handle_input m a now s = (s, []))
  /\
  (game_running s = false -> handle_input m a now s = (s, [])) /\
  (forall p,
     dict_get addr_eqb a (players s) = Some p ->
     game_running s = true ->
     (0 <= Player.lane p <= 2)%Z ->
     exists p',
       handle_input m a now s =
         (set_players (dict_set addr_eqb a p' (players s)) s, []) /\
       Player.vertical_speed p' = wanted_speed m /\
       (1 <= Player.move_progress p /\
        0.5 < now - Player.last_collision_time p /\
        wanted_lane m (Player.lane p) <> Player.lane p ->
        Player.target_lane p' = wanted_lane m (Player.lane p) /\
        Player.move_progress p' = 0) /\
       (~ (1 <= Player.move_progress p /\
           0.5 < now - Player.last_collision_time p /\
           wanted_lane m (Player.lane p) <> Player.lane p) ->
        Player.target_lane p' = Player.target_lane p /\
        Player.move_progress p' = Player.move_progress p) /\
       Player.lane p' = Player.lane p /\
       Player.last_heartbeat p' = now /\
       p' = Player.mk (Player.name p) (Player.lane p) (Player.target_lane p')
              (Player.score p) (Player.blink p) now (Player.addr p)
              (Player.x p) (Player.y p) (Player.id p) (Player.finished p)
              (Player.move_progress p') (Player.consecutive_collisions p)
              (Player.last_collision_time p) (wanted_speed m)
              (Player.target_y p)).
Proof.
  split; [|split].
  - intros Hg. unfold handle_input. rewrite Hg. reflexivity.
  - intros Hr. unfold handle_input. rewrite Hr.
    destruct (dict_get addr_eqb a (players s)); reflexivity.
  - intros p Hg Hr Hl. unfold handle_input. rewrite Hg, Hr. cbn [negb].
    rewrite (input_player_running m now p Hl). cbv zeta.
    set (w := wanted_lane m (Player.lane p)).
    eexists. split; [reflexivity|].
    cbn [Player.vertical_speed Player.target_lane Player.move_progress
         Player.lane Player.last_heartbeat].
    split; [reflexivity|].
    destruct (Qle_bool 1 (Player.move_progress p)) eqn:E1;
      [apply Qle_bool_iff in E1 | apply Qle_bool_gt in E1];
      (destruct (Qltb 0.5 (now - Player.last_collision_time p)) eqn:E2;
       [apply Qltb_lt in E2 | apply Qltb_ge in E2]);
      (destruct (w =? Player.lane p)%Z eqn:E3;
       [apply Z.eqb_eq in E3 | apply Z.eqb_neq in E3]);
      cbn [andb negb];
      (split; [intros (H1 & H2 & H3); try (exfalso; lra);
               try (exfalso; apply H3; exact E3); split; reflexivity|]);
      (split; [intros H; try (split; reflexivity);
               exfalso; apply H; repeat split; assumption|]);
      repeat split.
Qed.

(** C5 on a running round: ann, settled in lane 1, sends left and forward;
    the server starts her change to lane 0 and sets her speed to -200. *)
Lemma handle_input_rules_witness :
  let s :=
    match run [OpJoin (Some "ann"%string) ann 98; OpStart 100] init_server with
    | Some s => s
    | None => init_server
    end in
  let m := mkInput true false true false in
  match dict_get addr_eqb ann (players (fst (handle_input m ann 101 s))) with
  | Some p' =>
      Player.vertical_speed p' == - 200 /\
      Player.target_lane p' = 0%Z /\
      Player.move_progress p' = 0 /\
      Player.lane p' = 1%Z
  | None => False
  end.
Proof.
  cbv zeta.
  set (s := match run _ init_server with Some s => s | None => init_server end).
  set (m := mkInput true false true false).
  destruct (dict_get addr_eqb ann (players s)) as [p|] eqn:Eg;
    [|vm_compute in Eg; discriminate Eg].
  destruct (proj2 (proj2 (handle_input_rules m ann 101 s)) p Eg)
    as (p' & He & Hv & Hyes & _ & Hlane & _).
  - reflexivity.
  - vm_compute in Eg. injection Eg as <-. cbn. lia.
  - rewrite He. cbn [fst players set_players].
    vm_compute in Eg. injection Eg as <-.
    assert (Ed : dict_get addr_eqb ann (dict_set addr_eqb ann p' (players s))
                 = Some p') by reflexivity.
    rewrite Ed.
    destruct Hyes as [Ht Hm]; [repeat split; vm_compute; discriminate|].
    rewrite Hv, Ht, Hm, Hlane. repeat split.
Defined.

(** ** The client's sequence filter *)

Lemma update_players_last_seq infos :
  forall c, Client.last_seq (fst (Client.update_players infos c))
            = Client.last_seq c.
Proof.
  induction infos as [|info rest IH]; intros c; cbn [Client.update_players];
    [reflexivity|].
  destruct (Client.info_id info), (Client.info_x info), (Client.info_y info);
    try reflexivity.
  rewrite IH. reflexivity.
Qed.

Lemma on_state_last_seq p c n :
  Client.seq p = Some n -> (Client.last_seq c < n)%Z ->
  Client.last_seq (fst (Client.on_state p c)) = n /\
  snd (Client.on_state p c) <> Client.Discarded.
Proof.
  intros Hseq Hlt. unfold Client.on_state. rewrite Hseq.
  assert (E : (n <=? Client.last_seq c)%Z = false) by (apply Z.leb_gt; exact Hlt).
  rewrite E.
  match goal with
  | |- context [Client.update_players ?l ?c1] =>
      pose proof (update_players_last_seq l c1) as Hl;
      destruct (Client.update_players l c1) as [c2 ok]
  end.
  cbn [fst Client.last_seq] in Hl.
  destruct ok; cbn [fst snd Client.last_seq]; split; try exact Hl; discriminate.
Qed.

(** C6.  A state message whose sequence number is not above the last one
    seen is dropped with every client variable as it was; one above it is
    taken and becomes the last one seen, so the client holds the highest
    number seen; hence after a state numbered [s2] has gone through the
    filter, a state numbered [s1 < s2] arriving later is dropped. *)
Theorem stale_state_discarded (p : Client.StateMsg) (c : Client.t) (n : Z) :
  Client.seq p = Some n ->
  ((n <= Client.last_seq c)%Z ->
   Client.on_state p c = (c, Client.Discarded)) /\
  ((Client.last_seq c < n)%Z ->
   Client.last_seq (fst (Client.on_state p c)) = n /\
   snd (Client.on_state p c) <> Client.Discarded) /\
  Client.last_seq (fst (Client.on_state p c)) = Z.max (Client.last_seq c) n /\
  (forall p1 s1,
     Client.seq p1 = Some s1 -> (s1 < n)%Z ->
     Client.on_state p1 (fst (Client.on_state p c)) =
       (fst (Client.on_state p c), Client.Discarded)).
Proof.
  intros Hseq.
  assert (Hstale : forall q d k,
            Client.seq q = Some k -> (k <= Client.last_seq d)%Z ->
            Client.on_state q d = (d, Client.Discarded)).
  { intros q d k Hq Hk. unfold Client.on_state. rewrite Hq.
    apply Z.leb_le in Hk. rewrite Hk. reflexivity. }
  assert (Hmax : Client.last_seq (fst (Client.on_state p c))
                 = Z.max (Client.last_seq c) n).
  { destruct (Z_le_gt_dec n (Client.last_seq c)) as [Hle | Hgt].
    - rewrite (Hstale p c n Hseq Hle). cbn [fst]. lia.
    - destruct (on_state_last_seq p c n Hseq) as [-> _]; lia. }
  split; [|split; [|split]].
  - apply Hstale. exact Hseq.
  - apply on_state_last_seq. exact Hseq.
  - exact Hmax.
  - intros p1 s1 H1 Hlt. apply (Hstale p1 _ s1 H1). rewrite Hmax. lia.
Qed.

(** C6 on a fresh client: state 7 is applied, then state 5 arrives late and
    changes nothing. *)
Lemma stale_state_discarded_witness :
  let state7 :=
    Client.mkState (Some 7%Z) (Some true) (Some 30)
      (Some [Client.mkInfo (Some 1%Z) (Some 500) (Some 300) None None None])
      (Some []) in
  let state5 := Client.mkState (Some 5%Z) (Some false) (Some 0) None None in
  let c := fst (Client.on_state state7 Client.init) in
  Client.last_seq c = 7%Z /\
  Client.on_state state5 c = (c, Client.Discarded).
Proof.
  cbv zeta.
  set (state7 := Client.mkState (Some 7%Z) _ _ _ _).
  set (state5 := Client.mkState (Some 5%Z) _ _ _ _).
  destruct (stale_state_discarded state7 Client.init 7 eq_refl)
    as (_ & Happlied & _ & Hlater).
  split.
  - apply Happlied. reflexivity.
  - apply (Hlater state5 5%Z); reflexivity.
Defined.

(** ** Joining *)

Section DictSetFacts.
Context {V : Type}.
Implicit Types (d : list (Addr * V)) (a b : Addr) (v : V).

Lemma dict_get_set_same a v d : dict_get addr_eqb a (dict_set addr_eqb a v d) = Some v.
Proof.
  induction d as [|[k u] rest IH]; cbn [dict_set dict_get].
  - rewrite addr_eqb_refl. reflexivity.
  - destruct (addr_eqb a k) eqn:E; cbn [dict_get]; rewrite E; auto.
Qed.


Lemma dict_get_set_other a b v d :
  b <> a -> dict_get addr_eqb b (dict_set addr_eqb a v d) = dict_get addr_eqb b d.
Proof.
  intros Hne.
  assert (Hba : addr_eqb b a = false).
  { destruct (addr_eqb b a) eqn:E; [|reflexivity].
    apply addr_eqb_eq in E. contradiction. }
  induction d as [|[k u] rest IH]; cbn [dict_set dict_get].
  - rewrite Hba. reflexivity.
  - destruct (addr_eqb a k) eqn:E; cbn [dict_get].
    + apply addr_eqb_eq in E. subst k. rewrite Hba. reflexivity.
    + rewrite IH. reflexivity.
Qed.

Lemma dict_set_keys_present a v w d :
  dict_get addr_eqb a d = Some w ->
  map fst (dict_set addr_eqb a v d) = map fst d.
Proof.
  induction d as [|[k u] rest IH]; cbn [dict_set dict_get]; [discriminate|].
  destruct (addr_eqb a k); cbn [map fst]; intros H;
    [reflexivity | rewrite (IH H); reflexivity].
Qed.
End DictSetFacts.



(** ** End of round *)

Lemma filter_nil_iff {A : Type} (f : A -> bool) (l : list A) :
  filter f l = [] <-> forall x, In x l -> f x = false.
Proof.
  induction l as [|y l IH]; cbn [filter].
  - split; [intros _ x [] | reflexivity].
  - destruct (f y) eqn:E.
    + split; [discriminate|]. intros H.
      rewrite (H y (or_introl eq_refl)) in E. discriminate.
    + rewrite IH. split.
      * intros H x [<- | Hx]; auto.
      * intros H x Hx. apply H. right. exact Hx.
Qed.

(** C9 (as stated) fails with nobody joined: ann joined, the round started
    at 100 and she left; one second into the round every currently-joined
    player has (vacuously) finished, yet the check returns false. *)
Lemma game_goes_on_with_no_players :
  let s :=
    handle_leave ann
      (match run [OpJoin (Some "ann"%string) ann 98; OpStart 100] init_server
       with Some s => s | None => init_server end) in
  start_time s = Some 100 /\
  players s = [] /\
  check_game_end 101 s = false /\
  ~ (check_game_end 101 s = true <->
     GAME_DURATION s <= 101 - 100 \/
     (forall a p, In (a, p) (players s) -> Player.finished p = true)).
Proof.
  cbv zeta. repeat split.
  intros [_ H]. assert (E : false = true); [|discriminate E].
  apply H. right. intros a p [].
Qed.

(** C9 (amended).  With the round's start time set, the check returns true
    exactly when the elapsed time has reached the game duration, or at least
    one player is joined and every joined player has finished; with nobody
    joined only the elapsed time ends the round.  Without a start time it
    returns false. *)
Theorem check_game_end_rules (s : GameServer) (t : Q) :
  (truthy (start_time s) = false -> check_game_end t s = false) /\
  (forall t0,
     start_time s = Some t0 -> ~ t0 == 0 ->
     (check_game_end t s = true <->
      GAME_DURATION s <= t - t0 \/
      (players s <> [] /\
       forall a p, In (a, p) (players s) -> Player.finished p = true))).
Proof.
  split.
  - intros H. unfold check_game_end. rewrite H. reflexivity.
  - intros t0 Hst Hnz. unfold check_game_end. rewrite Hst. cbn [truthy].
    assert (E0 : Qeq_bool t0 0 = false).
    { destruct (Qeq_bool t0 0) eqn:E; [|reflexivity].
      apply Qeq_bool_iff in E. contradiction. }
    rewrite E0. cbn [negb].
    destruct (Qle_bool (GAME_DURATION s) (t - t0)) eqn:Ed.
    + apply Qle_bool_iff in Ed. split; auto.
    + apply Qle_bool_gt in Ed.
      destruct (filter _ (dict_values (players s))) as [|q active] eqn:Ef.
      * pose proof (proj1 (filter_nil_iff _ _) Ef) as Hall.
        assert (Hfin : forall a p, In (a, p) (players s) ->
                                   Player.finished p = true).
        { intros a p Hin.
          specialize (Hall p). cbv beta in Hall.
          rewrite negb_false_iff in Hall. apply Hall.
          unfold dict_values. apply in_map_iff. exists (a, p). auto. }
        destruct (players s) as [|kv rest] eqn:Ep.
        -- split; [discriminate|]. intros [H | [H _]]; [lra | contradiction].
        -- split; [|reflexivity]. intros _. right. split; [discriminate|].
           exact Hfin.
      * split; [discriminate|]. intros [H | [_ H]]; [lra|].
        assert (Hq : In q (filter (fun p => negb (Player.finished p))
                             (dict_values (players s))))
          by (rewrite Ef; left; reflexivity).
        apply filter_In in Hq. destruct Hq as [Hq Hneg].
        unfold dict_values in Hq. apply in_map_iff in Hq.
        destruct Hq as ([a p] & <- & Hin). cbn [snd] in Hneg.
        rewrite (H a p Hin) in Hneg. discriminate.
Qed.

(** C9 on the crash session: 100 seconds after the start the duration has
    elapsed and the round ends although ann has not finished. *)
Lemma check_game_end_rules_witness :
  start_time crash_state = Some 100 /\
  GAME_DURATION crash_state <= 200 - 100 /\
  check_game_end 200 crash_state = true.
Proof.
  split; [reflexivity|].
  assert (Hd : GAME_DURATION crash_state <= 200 - 100)
    by (vm_compute; discriminate).
  split; [exact Hd|].
  apply (proj2 (check_game_end_rules crash_state 200) 100 eq_refl).
  - vm_compute. discriminate.
  - left. exact Hd.
Defined.

(** ** Messages from unknown addresses *)

(** C10 (as stated) fails on the reaction: a heartbeat from an address
    nobody joined from changes no state, but the server answers it. *)
Lemma heartbeat_from_stranger_is_acked :
  dict_get addr_eqb stranger (players init_server) = None /\
  fst (handle_heartbeat stranger 5 init_server) = init_server /\
  snd (handle_heartbeat stranger 5 init_server) = [(heartbeat_ack, stranger)] /\
  snd (handle_heartbeat stranger 5 init_server) <> [].
Proof. repeat split. discriminate. Qed.

(** C10 (amended).  An input or heartbeat message from an address with no
    tracked player changes no player or session state.  The input is dropped
    without any reaction; the heartbeat is still answered with one
    [heartbeat_ack] to the sender. *)
Theorem unknown_sender_rules (m : InputMsg) (a : Addr) (now : Q)
    (s : GameServer) :
  dict_get addr_eqb a (players s) = None ->
  handle_input m a now s = (s, []) /\
  handle_heartbeat a now s = (s, [(heartbeat_ack, a)]).
Proof.
  intros Hg. unfold handle_input, handle_heartbeat. rewrite Hg. split; reflexivity.
Qed.

(** C10 on the crash session: a stranger's input and heartbeat leave the
    running round as it is. *)
Lemma unknown_sender_rules_witness :
  handle_input (mkInput true false false false) stranger 106 crash_state
    = (crash_state, []) /\
  handle_heartbeat stranger 106 crash_state
    = (crash_state, [(heartbeat_ack, stranger)]).
Proof.
  apply (unknown_sender_rules (mkInput true false false false) stranger 106
           crash_state).
  reflexivity.
Defined.
(** * Further properties of the server *)

(** ** Dictionaries, continued *)

Section DictMoreFacts.
Context {V : Type}.
Implicit Types (d : list (Addr * V)) (a b : Addr) (v : V).

Lemma dict_get_del_other a b d :
  b <> a -> dict_get addr_eqb b (dict_del addr_eqb a d) = dict_get addr_eqb b d.
Proof.
  intros Hne.
  assert (Hba : addr_eqb b a = false).
  { destruct (addr_eqb b a) eqn:E; [|reflexivity].
    apply addr_eqb_eq in E. contradiction. }
  induction d as [|[k u] rest IH]; cbn [dict_del dict_get]; [reflexivity|].
  destruct (addr_eqb a k) eqn:E.
  - apply addr_eqb_eq in E. subst k. rewrite Hba. reflexivity.
  - cbn [dict_get]. rewrite IH. reflexivity.
Qed.

Lemma dict_get_None_notin a d :
  dict_get addr_eqb a d = None -> ~ In a (map fst d).
Proof.
  induction d as [|[k u] rest IH]; cbn [dict_get map fst]; [intros _ []|].
  destruct (addr_eqb a k) eqn:E; [discriminate|].
  intros H [-> | Hin]; [rewrite addr_eqb_refl in E; discriminate|].
  exact (IH H Hin).
Qed.

Lemma dict_get_notin_None a d :
  ~ In a (map fst d) -> dict_get addr_eqb a d = None.
Proof.
  induction d as [|[k u] rest IH]; cbn [dict_get map fst]; [reflexivity|].
  intros H. destruct (addr_eqb a k) eqn:E.
  - apply addr_eqb_eq in E. subst k. exfalso. apply H. left. reflexivity.
  - apply IH. intros Hin. apply H. right. exact Hin.
Qed.

Lemma dict_del_keys a d :
  NoDup (map fst d) -> ~ In a (map fst (dict_del addr_eqb a d)).
Proof.
  induction d as [|[k u] rest IH]; cbn [dict_del map fst]; [intros _ []|].
  intros Hn. inversion Hn as [|? ? Hnotin Hn']; subst.
  destruct (addr_eqb a k) eqn:E.
  - apply addr_eqb_eq in E. subst k. exact Hnotin.
  - cbn [map fst]. intros [-> | Hin].
    + rewrite addr_eqb_refl in E. discriminate.
    + exact (IH Hn' Hin).
Qed.

(** An entry that passes a filter is still the one found under its key. *)
Lemma dict_get_filter a d v (f : Addr * V -> bool) :
  dict_get addr_eqb a d = Some v -> f (a, v) = true ->
  dict_get addr_eqb a (filter f d) = Some v.
Proof.
  induction d as [|[k u] rest IH]; cbn [dict_get filter]; [discriminate|].
  destruct (addr_eqb a k) eqn:E.
  - apply addr_eqb_eq in E. subst k. intros [= ->] Hf. rewrite Hf.
    cbn [dict_get]. rewrite addr_eqb_refl. reflexivity.
  - intros Hg Hf. destruct (f (k, u)); [cbn [dict_get]; rewrite E|]; auto.
Qed.

Lemma dict_In_get a d v :
  NoDup (map fst d) -> In (a, v) d -> dict_get addr_eqb a d = Some v.
Proof.
  induction d as [|[k u] rest IH]; cbn [dict_get map fst]; [intros _ []|].
  intros Hn Hin. inversion Hn as [|? ? Hnotin Hn']; subst.
  destruct Hin as [[= -> ->] | Hin].
  - rewrite addr_eqb_refl. reflexivity.
  - destruct (addr_eqb a k) eqn:E; [|auto].
    apply addr_eqb_eq in E. subst k. exfalso. apply Hnotin.
    apply in_map_iff. exists (a, v). auto.
Qed.
End DictMoreFacts.

(** ** One entry per address *)

Lemma dropped_map {A B : Type} (f : A -> B) (l l' : list A) :
  dropped l l' -> dropped (map f l) (map f l').
Proof. induction 1; cbn [map]; constructor; auto. Qed.

Lemma scan_players_keys now obs ps :
  map fst (fst (scan_players now obs ps)) = map fst ps.
Proof.
  induction ps as [|[k p] rest IH]; cbn [scan_players]; [reflexivity|].
  destruct (collide now obs p) as [q hit]. destruct hit.
  - reflexivity.
  - destruct (scan_players now obs rest) as [rest' hit']. cbn [fst] in *.
    cbn [map fst]. rewrite IH. reflexivity.
Qed.

Lemma scan_obstacles_keys now obss :
  forall ps, map fst (fst (fst (scan_obstacles now obss ps))) = map fst ps.
Proof.
  induction obss as [|obs rest IH]; intros ps; cbn [scan_obstacles];
    [reflexivity|].
  pose proof (scan_players_keys now obs ps) as H1.
  destruct (scan_players now obs ps) as [ps1 hit]. cbn [fst] in H1.
  specialize (IH ps1).
  destruct (scan_obstacles now rest ps1) as [[ps2 removed] n].
  cbn [fst] in IH. destruct hit; cbn [fst]; congruence.
Qed.

Lemma dict_map_keys {V : Type} (f : V -> V) (d : list (Addr * V)) :
  map fst (dict_map f d) = map fst d.
Proof.
  unfold dict_map. rewrite map_map. apply map_ext. intros [k v]. reflexivity.
Qed.

Lemma update_difficulty_players s s1 :
  update_difficulty s = Some s1 ->
  players s1 = players s /\ next_player_id s1 = next_player_id s /\
  obstacles s1 = obstacles s /\ game_running s1 = game_running s /\
  start_time s1 = start_time s /\ game_progress s1 = game_progress s /\
  state_sequence s1 = state_sequence s /\
  last_obstacle_spawn s1 = last_obstacle_spawn s.
Proof.
  unfold update_difficulty. destruct (Qeq_bool _ 0); [discriminate|].
  intros [= <-]. repeat split.
Qed.

Lemma update_obstacles_players t dt d s s' :
  update_obstacles t dt d s = Some s' ->
  players s' = players s /\ next_player_id s' = next_player_id s /\
  game_running s' = game_running s /\ start_time s' = start_time s /\
  state_sequence s' = state_sequence s.
Proof.
  unfold update_obstacles.
  destruct (calculate_game_progress t s); [|discriminate].
  destruct (update_difficulty _) as [s1|] eqn:Ed; [|discriminate].
  destruct (update_difficulty_players _ _ Ed)
    as (E1 & E2 & _ & E4 & E5 & _ & E7 & _).
  cbn [players next_player_id game_running start_time state_sequence] in *.
  intros H.
  destruct (game_running s1);
    [destruct (_ && _); [destruct (lane_x _); [|discriminate]|]|];
    injection H as <-;
    cbn [players next_player_id game_running start_time state_sequence];
    repeat split; congruence.
Qed.

(** The three ways an operation can change the list of tracked addresses. *)
Lemma exec_keys op s s' :
  exec op s = Some s' ->
  dropped (map fst (players s)) (map fst (players s')) \/
  (exists a, map fst (players s') = map fst (players s) ++ [a] /\
             ~ In a (map fst (players s))).
Proof.
  destruct op; cbn [exec].
  - intros [= <-]. unfold handle_join.
    destruct (dict_get addr_eqb a (players s)) as [p|] eqn:Eg;
      cbn [fst players set_players set_next_player_id].
    + left. erewrite dict_set_keys_present; [apply dropped_refl | exact Eg].
    + right. exists a. rewrite (dict_set_absent _ _ _ Eg), map_app.
      split; [reflexivity | apply dict_get_None_notin; exact Eg].
  - intros [= <-]. left. unfold handle_input.
    destruct (dict_get addr_eqb a (players s)) as [p|] eqn:Eg;
      [|apply dropped_refl].
    destruct (negb _); cbn [fst players set_players]; [apply dropped_refl|].
    erewrite dict_set_keys_present; [apply dropped_refl | exact Eg].
  - intros [= <-]. left. unfold handle_heartbeat. cbn [fst].
    destruct (dict_get addr_eqb a (players s)) as [p|] eqn:Eg;
      [|apply dropped_refl].
    cbn [players set_players].
    erewrite dict_set_keys_present; [apply dropped_refl | exact Eg].
  - intros [= <-]. left. unfold handle_leave.
    destruct (dict_mem _ _ _); cbn [players set_players];
      [apply dropped_map, dropped_dict_del | apply dropped_refl].
  - unfold update_player_movements.
    destruct (move_all _ _ _) as [ps|] eqn:Em; [|discriminate].
    intros [= <-]. left. cbn [players set_players].
    rewrite (move_all_keys _ _ _ _ Em). apply dropped_refl.
  - intros H. left.
    destruct (update_obstacles_players _ _ _ _ _ H) as [-> _].
    apply dropped_refl.
  - intros [= <-]. left. unfold update_collisions.
    destruct (negb _); [apply dropped_refl|].
    pose proof (scan_obstacles_keys current_time (obstacles s) (players s)) as Hk.
    destruct (scan_obstacles _ _ _) as [[ps removed] n]. cbn [fst] in Hk.
    cbn [players]. rewrite Hk. apply dropped_refl.
  - intros [= <-]. left. unfold update_scores. cbn [players set_players].
    rewrite dict_map_keys. apply dropped_refl.
  - intros [= <-]. left. unfold broadcast_state. cbn [players].
    apply dropped_map, dropped_filter.
  - intros [= <-]. left. unfold check_timeouts. cbn [fst players set_players].
    apply dropped_map, dropped_filter.
  - intros [= <-]. left. unfold reset_game. cbn [players set_game_running].
    rewrite dict_map_keys. apply dropped_refl.
  - intros [= <-]. left. unfold end_game, broadcast_state.
    cbn [players set_game_running]. apply dropped_map, dropped_filter.
Qed.

(** [self.players] is a dictionary: one entry per address. *)
Lemma reachable_keys s : reachable s -> NoDup (map fst (players s)).
Proof.
  induction 1 as [|s op s' _ IH _ He].
  - constructor.
  - destruct (exec_keys op s s' He) as [Hd | (a & -> & Ha)].
    + eapply dropped_NoDup; eauto.
    + apply NoDup_app; [exact IH | repeat constructor; intros [] |].
      intros b Hb [<- | []]. contradiction.
Qed.

(** ** Message dispatch *)

Lemma input_player_keeps m now r p :
  let p' := input_player m now r p in
  Player.score p' = Player.score p /\
  Player.finished p' = Player.finished p /\
  Player.id p' = Player.id p /\
  Player.x p' = Player.x p /\
  Player.y p' = Player.y p /\
  Player.lane p' = Player.lane p /\
  Player.blink p' = Player.blink p /\
  Player.consecutive_collisions p' = Player.consecutive_collisions p /\
  Player.last_collision_time p' = Player.last_collision_time p.
Proof. unfold input_player. split_ifs; repeat split. Qed.

(** X1.  Whatever datagram arrives from address [a] in a reachable state:
    no other address's player is touched, every reply goes back to [a],
    obstacles and round state stay, and if the sender's player is tracked
    before and after, its score, finished flag, id, position, lane, blink
    stamp and collision streak are what they were.  A client cannot act on
    anybody else, nor on its own score. *)
Theorem handle_message_isolation (d : Datagram) (a : Addr) (now : Q)
    (s : GameServer) :
  reachable s ->
  let s' := fst (handle_message d a now s) in
  (forall b, b <> a ->
     dict_get addr_eqb b (players s') = dict_get addr_eqb b (players s)) /\
  (forall m b, In (m, b) (snd (handle_message d a now s)) -> b = a) /\
  (obstacles s' = obstacles s /\ game_running s' = game_running s /\
   start_time s' = start_time s /\ game_progress s' = game_progress s /\
   GAME_DURATION s' = GAME_DURATION s /\
   state_sequence s' = state_sequence s) /\
  (forall p p',
     dict_get addr_eqb a (players s) = Some p ->
     dict_get addr_eqb a (players s') = Some p' ->
     Player.score p' = Player.score p /\
     Player.finished p' = Player.finished p /\
     Player.id p' = Player.id p /\
     Player.x p' = Player.x p /\
     Player.y p' = Player.y p /\
     Player.lane p' = Player.lane p /\
     Player.blink p' = Player.blink p /\
     Player.consecutive_collisions p' = Player.consecutive_collisions p /\
     Player.last_collision_time p' = Player.last_collision_time p).
Proof.
  intros Hs. pose proof (reachable_keys s Hs) as Hkeys.
  destruct d; cbn [handle_message].
  - (* join *)
    unfold handle_join.
    destruct (dict_get addr_eqb a (players s)) as [p0|] eqn:Eg;
      cbn [fst snd players set_players set_next_player_id obstacles
           game_running start_time game_progress GAME_DURATION state_sequence].
    + split; [intros b Hb; apply dict_get_set_other; exact Hb|].
      split; [intros m b [[= _ <-] | []]; reflexivity|].
      split; [repeat split|].
      intros p p' [= <-]. rewrite dict_get_set_same. intros [= <-].
      repeat split.
    + split; [intros b Hb; apply dict_get_set_other; exact Hb|].
      split; [intros m b [[= _ <-] | []]; reflexivity|].
      split; [repeat split|].
      intros p p' H. discriminate H.
  - (* input *)
    unfold handle_input.
    destruct (dict_get addr_eqb a (players s)) as [p0|] eqn:Eg;
      [destruct (game_running s) eqn:Er|];
      cbn [negb fst snd players set_players obstacles game_running start_time
           game_progress GAME_DURATION state_sequence].
    + split; [intros b Hb; apply dict_get_set_other; exact Hb|].
      split; [intros m b []|].
      split; [repeat split; auto|].
      intros p p' [= <-]. rewrite dict_get_set_same. intros [= <-].
      apply input_player_keeps.
    + split; [reflexivity|]. split; [intros m b []|].
      split; [repeat split; auto|].
      intros p p' H1 H2. rewrite Eg in H2. injection H1 as <-.
      injection H2 as <-. repeat split.
    + split; [reflexivity|]. split; [intros m b []|].
      split; [repeat split|].
      intros p p' H1. discriminate H1.
  - (* heartbeat *)
    unfold handle_heartbeat.
    destruct (dict_get addr_eqb a (players s)) as [p0|] eqn:Eg;
      cbn [fst snd players set_players obstacles game_running start_time
           game_progress GAME_DURATION state_sequence].
    + split; [intros b Hb; apply dict_get_set_other; exact Hb|].
      split; [intros m b [[= _ <-] | []]; reflexivity|].
      split; [repeat split|].
      intros p p' [= <-]. rewrite dict_get_set_same. intros [= <-].
      repeat split.
    + split; [reflexivity|].
      split; [intros m b [[= _ <-] | []]; reflexivity|].
      split; [repeat split|].
      intros p p' H1. discriminate H1.
  - (* leave *)
    unfold handle_leave.
    destruct (dict_mem addr_eqb a (players s)) eqn:Em;
      cbn [fst snd players set_players obstacles game_running start_time
           game_progress GAME_DURATION state_sequence].
    + split; [intros b Hb; apply dict_get_del_other; exact Hb|].
      split; [intros m b []|].
      split; [repeat split|].
      intros p p' _ Hp'.
      rewrite (dict_get_notin_None _ _ (dict_del_keys a _ Hkeys)) in Hp'.
      discriminate Hp'.
    + split; [reflexivity|]. split; [intros m b []|].
      split; [repeat split|].
      intros p p' H1 H2. rewrite H1 in H2. injection H2 as <-. repeat split.
  - (* anything else *)
    cbn [fst snd].
    split; [reflexivity|]. split; [intros m b []|].
    split; [repeat split|].
    intros p p' H1 H2. rewrite H1 in H2. injection H2 as <-. repeat split.
Qed.

(** X1 on the crash session: a stranger's join leaves ann's entry alone and
    is answered to the stranger. *)
Lemma handle_message_isolation_witness :
  dict_get addr_eqb ann
    (players (fst (handle_message (msg_join None) stranger 106 crash_state)))
  = dict_get addr_eqb ann (players crash_state) /\
  forall m b,
    In (m, b) (snd (handle_message (msg_join None) stranger 106 crash_state)) ->
    b = stranger.
Proof.
  destruct (handle_message_isolation (msg_join None) stranger 106 crash_state
              crash_state_reachable) as (Hothers & Hreply & _).
  split; [apply Hothers; discriminate | exact Hreply].
Defined.

(** ** Sessions: timeouts, leaving, a new round *)

(** X2.  The sweep keeps exactly the players heard from within
    [HEARTBEAT_TIMEOUT] seconds, unchanged and in the order they had, and
    reports whether it dropped anybody; a player that sent a heartbeat at
    time [t] survives every sweep up to [t + HEARTBEAT_TIMEOUT]. *)
Theorem check_timeouts_rules (now : Q) (s : GameServer) :
  (forall a p,
     In (a, p) (players (fst (check_timeouts now s))) <->
     In (a, p) (players s) /\
     now - Player.last_heartbeat p <= HEARTBEAT_TIMEOUT) /\
  dropped (players s) (players (fst (check_timeouts now s))) /\
  (snd (check_timeouts now s) = true <->
   exists a p, In (a, p) (players s) /\
               HEARTBEAT_TIMEOUT < now - Player.last_heartbeat p) /\
  (forall a t p,
     dict_get addr_eqb a (players s) = Some p ->
     now - t <= HEARTBEAT_TIMEOUT ->
     dict_get addr_eqb a
       (players (fst (check_timeouts now (fst (handle_heartbeat a t s)))))
     = Some (Player.set_last_heartbeat t p)).
Proof.
  split; [|split; [|split]].
  - intros a p. unfold check_timeouts. cbn [fst players set_players].
    rewrite filter_In. cbn [snd]. rewrite negb_true_iff, Qltb_ge. tauto.
  - unfold check_timeouts. cbn [fst players set_players]. apply dropped_filter.
  - unfold check_timeouts. cbn [snd]. rewrite negb_true_iff, Nat.eqb_neq.
    split.
    + intros Hlen.
      destruct (filter _ (players s)) as [|[a p] rest] eqn:Ef;
        [contradiction Hlen; reflexivity|].
      assert (Hin : In (a, p) (filter
                (fun kv => Qltb HEARTBEAT_TIMEOUT
                             (now - Player.last_heartbeat (snd kv)))
                (players s))) by (rewrite Ef; left; reflexivity).
      apply filter_In in Hin. destruct Hin as [Hin Hlt].
      exists a, p. split; [exact Hin | apply Qltb_lt; exact Hlt].
    + intros (a & p & Hin & Hlt) Hlen.
      apply length_zero_iff_nil in Hlen.
      assert (Hf : In (a, p) (filter
                (fun kv => Qltb HEARTBEAT_TIMEOUT
                             (now - Player.last_heartbeat (snd kv)))
                (players s))).
      { apply filter_In. split; [exact Hin | apply Qltb_lt; exact Hlt]. }
      rewrite Hlen in Hf. destruct Hf.
  - intros a t p Hg Ht. unfold handle_heartbeat, check_timeouts.
    rewrite Hg. cbn [fst players set_players].
    apply dict_get_filter; [apply dict_get_set_same|].
    cbn [snd Player.last_heartbeat Player.set_last_heartbeat].
    rewrite negb_true_iff. apply Qltb_ge. exact Ht.
Qed.

(** X2 on the crash session: ann, last heard at 100, is dropped by the sweep
    of time 106, and kept by it if her heartbeat of time 104 came first. *)
Lemma check_timeouts_rules_witness :
  snd (check_timeouts 106 crash_state) = true /\
  dict_get addr_eqb ann (players (fst (check_timeouts 106 crash_state))) = None
  /\
  match dict_get addr_eqb ann (players crash_state) with
  | Some p =>
      dict_get addr_eqb ann
        (players (fst (check_timeouts 106
                         (fst (handle_heartbeat ann 104 crash_state)))))
      = Some (Player.set_last_heartbeat 104 p)
  | None => False
  end.
Proof.
  destruct (check_timeouts_rules 106 crash_state) as (_ & _ & Hflag & Hkeep).
  split; [|split].
  - apply Hflag.
    destruct (dict_get addr_eqb ann (players crash_state)) as [p|] eqn:E;
      [|vm_compute in E; discriminate E].
    exists ann, p. split; [apply dict_get_In; exact E|].
    vm_compute in E. injection E as <-. vm_compute. reflexivity.
  - vm_compute. reflexivity.
  - destruct (dict_get addr_eqb ann (players crash_state)) as [p|] eqn:E;
      [|vm_compute in E; discriminate E].
    apply Hkeep; [exact E | vm_compute; discriminate].
Defined.

Lemma next_player_id_pos s : reachable s -> (1 <= next_player_id s)%Z.
Proof.
  induction 1 as [|s op s' _ IH _ He]; [cbn; lia|].
  destruct (exec_ids op s s' He) as [[En _] | [En _]]; lia.
Qed.

(** X3.  Leaving removes the sender's entry at once and nobody else's; a
    leave from an unknown address changes nothing.  Ids are not handed out
    twice: a join from the same address after the leave creates a fresh
    default player whose id, the one acknowledged, is above the id the
    address had. *)
Theorem handle_leave_rules (a : Addr) (s : GameServer) :
  reachable s ->
  (dict_get addr_eqb a (players s) = None -> handle_leave a s = s) /\
  dict_get addr_eqb a (players (handle_leave a s)) = None /\
  (forall b, b <> a ->
     dict_get addr_eqb b (players (handle_leave a s))
     = dict_get addr_eqb b (players s)) /\
  (forall p n now,
     dict_get addr_eqb a (players s) = Some p ->
     let nm :=
       substring 0 20
         (match n with Some x => x | None => "Player"%string end) in
     snd (handle_join n a now (handle_leave a s)) =
       [(join_ack (next_player_id s) BLINK_DURATION COLLISION_COOLDOWN, a)] /\
     dict_get addr_eqb a (players (fst (handle_join n a now (handle_leave a s))))
       = Some (new_player nm a now (next_player_id s)) /\
     (Player.id p < next_player_id s)%Z).
Proof.
  intros Hs. pose proof (reachable_keys s Hs) as Hkeys.
  assert (Hnone : dict_get addr_eqb a (players (handle_leave a s)) = None).
  { unfold handle_leave, dict_mem.
    destruct (dict_get addr_eqb a (players s)) eqn:Eg; [|exact Eg].
    cbn [players set_players].
    apply dict_get_notin_None, dict_del_keys, Hkeys. }
  split; [|split; [|split]].
  - intros Hg. unfold handle_leave, dict_mem. rewrite Hg. reflexivity.
  - exact Hnone.
  - intros b Hb. unfold handle_leave.
    destruct (dict_mem _ _ _); cbn [players set_players];
      [apply dict_get_del_other; exact Hb | reflexivity].
  - intros p n now Hg nm.
    assert (Hnext : next_player_id (handle_leave a s) = next_player_id s)
      by (unfold handle_leave; destruct (dict_mem _ _ _); reflexivity).
    unfold handle_join. rewrite Hnone.
    cbn [fst snd players set_players set_next_player_id next_player_id].
    rewrite Hnext, dict_get_set_same.
    repeat split.
    destruct (reachable_ids_ok s Hs) as [_ Hlt]. apply Hlt.
    unfold ids. apply in_map_iff. exists (a, p).
    split; [reflexivity | apply dict_get_In; exact Hg].
Qed.

(** X3 on the crash session: ann (id 1) leaves and joins again; she is
    acknowledged as player 2. *)
Lemma handle_leave_rules_witness :
  dict_get addr_eqb ann (players (handle_leave ann crash_state)) = None /\
  snd (handle_join (Some "ann"%string) ann 107 (handle_leave ann crash_state))
  = [(join_ack 2 BLINK_DURATION COLLISION_COOLDOWN, ann)].
Proof.
  destruct (handle_leave_rules ann crash_state crash_state_reachable)
    as (_ & Hgone & _ & Hagain).
  split; [exact Hgone|].
  destruct (dict_get addr_eqb ann (players crash_state)) as [p|] eqn:E;
    [|vm_compute in E; discriminate E].
  destruct (Hagain p (Some "ann"%string) 107 eq_refl) as (Hack & _).
  exact Hack.
Defined.

(** X4.  Opening a round puts every tracked player back to the start (lane
    1 on its centre, height [PLAYER_Y], score 0, not finished, settled, no
    streak, no velocity, stamps cleared, heard from [now]) while keeping the
    addresses in their order, names, ids and the id counter; obstacles, the
    progress and the sequence number restart from nothing.  The round just
    opened is not over: the end check stays false until the game duration
    has elapsed, with or without players. *)
Theorem reset_game_rules (now : Q) (s : GameServer) :
  ~ now == 0 ->
  let s' := set_game_running true (reset_game now s) in
  map fst (players s') = map fst (players s) /\
  ids (players s') = ids (players s) /\
  next_player_id s' = next_player_id s /\
  (forall a p', In (a, p') (players s') ->
     exists p,
       In (a, p) (players s) /\
       p' = Player.mk (Player.name p) 1 1 0 0 now (Player.addr p) 500 PLAYER_Y
              (Player.id p) false 1 0 0 0 PLAYER_Y) /\
  (obstacles s' = [] /\ state_sequence s' = 0%Z /\ game_progress s' == 0 /\
   start_time s' = Some now /\ game_running s' = true) /\
  (forall t, t - now < GAME_DURATION s -> check_game_end t s' = false).
Proof.
  intros Hnow s'. subst s'. unfold reset_game.
  cbn [players obstacles state_sequence game_progress start_time game_running
       set_game_running next_player_id].
  split; [apply dict_map_keys|].
  split; [apply ids_dict_map; reflexivity|].
  split; [reflexivity|].
  split.
  { intros a p' Hin. apply dict_map_In in Hin. destruct Hin as (p & Hp & ->).
    exists p. split; [exact Hp | reflexivity]. }
  split; [repeat split; reflexivity|].
  intros t Ht. unfold check_game_end, set_game_running.
  cbn [start_time truthy GAME_DURATION players].
  assert (E0 : Qeq_bool now 0 = false).
  { destruct (Qeq_bool now 0) eqn:E; [|reflexivity].
    apply Qeq_bool_iff in E. contradiction. }
  rewrite E0. cbn [negb].
  assert (Ed : Qle_bool (GAME_DURATION s) (t - now) = false)
    by (apply Qle_bool_gt; exact Ht).
  rewrite Ed.
  destruct (players s) as [|[a p] rest]; reflexivity.
Qed.

(** X4 on the crash session: the next round, opened at 120, resets ann and
    does not end at once. *)
Lemma reset_game_rules_witness :
  dict_get addr_eqb ann
    (players (set_game_running true (reset_game 120 crash_state)))
  = Some (Player.mk "ann" 1 1 0 0 120 ann 500 PLAYER_Y 1 false 1 0 0 0 PLAYER_Y)
  /\ check_game_end 120 (set_game_running true (reset_game 120 crash_state))
     = false.
Proof.
  destruct (reset_game_rules 120 crash_state)
    as (_ & _ & _ & _ & _ & Hend); [vm_compute; discriminate|].
  split; [reflexivity|].
  apply Hend. vm_compute. reflexivity.
Defined.

(** ** Difficulty, spawn weights, obstacles *)

Lemma Qdiv_le_upper (a b c : Q) : 0 < c -> a <= b * c -> a / c <= b.
Proof. intros Hc H. apply Qle_shift_div_r; assumption. Qed.

Lemma Qdiv_pos (a c : Q) : 0 < a -> 0 < c -> 0 < a / c.
Proof. intros Ha Hc. apply Qlt_shift_div_l; [exact Hc | lra]. Qed.

Lemma difficulty_upper (gp count perf : Q) :
  0 <= gp -> gp <= 1 -> 0 <= count -> 1 <= perf -> perf <= 1.2 ->
  (1 + gp * 1.5) * py_max 0.7 (1.3 - count * 0.15) * perf <= 3.9.
Proof.
  intros Hg0 Hg1 Hc Hp0 Hp1.
  assert (Hm : py_max 0.7 (1.3 - count * 0.15) <= 1.3)
    by (apply py_max_upper; lra).
  pose proof (py_max_lower 0.7 (1.3 - count * 0.15)) as Hm0.
  set (m := py_max _ _) in *. clearbody m.
  assert (H1 : (1 + gp * 1.5) * m <= 3.25) by nra.
  assert (H2 : 0 <= (1 + gp * 1.5) * m) by nra.
  nra.
Qed.

(** X5.  With the round progress in [0, 1] the difficulty update never
    divides by zero and leaves the spawn cooldown in [0.5, 15/7], the spawn
    probability in [0.49, 0.95], the speed multiplier in [1, 1.8] and the
    game duration in [36.4, 74.8] seconds; every other field of the server
    is left as it was. *)
Theorem update_difficulty_bounds (s : GameServer) :
  0 <= game_progress s -> game_progress s <= 1 ->
  exists s1,
    update_difficulty s = Some s1 /\
    (0.5 <= obstacle_cooldown s1 /\ obstacle_cooldown s1 <= 15 # 7) /\
    (0.49 <= obstacle_probability s1 /\ obstacle_probability s1 <= 0.95) /\
    (1 <= obstacle_speed_multiplier s1 /\
     obstacle_speed_multiplier s1 <= 1.8) /\
    (36.4 <= GAME_DURATION s1 /\ GAME_DURATION s1 <= 74.8) /\
    players s1 = players s /\ obstacles s1 = obstacles s /\
    game_progress s1 = game_progress s /\ start_time s1 = start_time s /\
    game_running s1 = game_running s /\
    state_sequence s1 = state_sequence s /\
    next_player_id s1 = next_player_id s /\
    difficulty_level s1 = difficulty_level s /\
    obstacles_spawned s1 = obstacles_spawned s /\
    last_obstacle_spawn s1 = last_obstacle_spawn s /\
    total_obstacles_spawned s1 = total_obstacles_spawned s /\
    total_collisions s1 = total_collisions s.
Proof.
  intros Hg0 Hg1. unfold update_difficulty.
  set (perf := if existsb _ _ then 1.2 else 1).
  assert (Hperf : 1 <= perf /\ perf <= 1.2)
    by (subst perf; destruct (existsb _ _); lra).
  set (count := inject_Z (Z.of_nat (List.length (players s)))).
  assert (Hcount : 0 <= count) by (subst count; unfold Qle; cbn; lia).
  pose proof (difficulty_pos (game_progress s) count perf Hg0 (proj1 Hperf))
    as Hd0.
  pose proof (difficulty_upper (game_progress s) count perf Hg0 Hg1 Hcount
                (proj1 Hperf) (proj2 Hperf)) as Hd1.
  set (d := _ * _ * perf) in *. clearbody d perf count.
  rewrite (Qeq_bool_false_of_pos d) by lra.
  eexists. split; [reflexivity|].
  cbn [obstacle_cooldown obstacle_probability obstacle_speed_multiplier
       GAME_DURATION players obstacles game_progress start_time game_running
       state_sequence next_player_id difficulty_level obstacles_spawned
       last_obstacle_spawn total_obstacles_spawned total_collisions].
  unfold BASE_OBSTACLE_COOLDOWN, BASE_OBSTACLE_PROBABILITY, BASE_GAME_DURATION.
  repeat split; try lra.
  - apply py_max_lower.
  - apply py_max_upper; [lra|]. apply Qdiv_le_upper; lra.
  - apply py_min_lower; lra.
  - apply py_min_left.
Qed.

(** X5 on the crash session. *)
Lemma update_difficulty_bounds_witness :
  match update_difficulty crash_state with
  | Some s1 => 36.4 <= GAME_DURATION s1 /\ GAME_DURATION s1 <= 74.8
  | None => False
  end.
Proof.
  destruct (update_difficulty_bounds crash_state)
    as (s1 & -> & _ & _ & _ & Hgd & _).
  - vm_compute. discriminate.
  - vm_compute. discriminate.
  - exact Hgd.
Defined.

Lemma adjusted_weight_lower gp pm ty : 0.05 <= adjusted_weight gp pm ty.
Proof. unfold adjusted_weight. apply py_max_lower. Qed.

(** X6.  Whatever the progress and the scores, the spawn weights are
    computed without a division by zero, go with the five types in table
    order, are all positive (every type can be drawn) and sum to 1. *)
Theorem get_obstacle_weights_normalized (s : GameServer) :
  exists ws,
    get_obstacle_weights s = Some ([car; truck; bus; bike; rock], ws) /\
    List.length ws = 5%nat /\
    Forall (fun w => 0 < w) ws /\
    py_sum ws == 1.
Proof.
  unfold get_obstacle_weights, obstacle_type_keys.
  set (pm := 1 + _ * 0.5). clearbody pm.
  cbn [map].
  pose proof (adjusted_weight_lower (game_progress s) pm car) as H1.
  pose proof (adjusted_weight_lower (game_progress s) pm truck) as H2.
  pose proof (adjusted_weight_lower (game_progress s) pm bus) as H3.
  pose proof (adjusted_weight_lower (game_progress s) pm bike) as H4.
  pose proof (adjusted_weight_lower (game_progress s) pm rock) as H5.
  set (w1 := adjusted_weight _ _ car) in *.
  set (w2 := adjusted_weight _ _ truck) in *.
  set (w3 := adjusted_weight _ _ bus) in *.
  set (w4 := adjusted_weight _ _ bike) in *.
  set (w5 := adjusted_weight _ _ rock) in *.
  clearbody w1 w2 w3 w4 w5.
  unfold py_sum. cbn [fold_left].
  set (total := 0 + w1 + w2 + w3 + w4 + w5).
  assert (Ht : 0 < total) by (subst total; lra).
  rewrite (Qeq_bool_false_of_pos total Ht).
  eexists. split; [reflexivity|]. split; [reflexivity|]. split.
  - repeat constructor; apply Qdiv_pos; lra.
  - cbn [fold_left]. subst total. field. lra.
Qed.

Lemma advance_obstacle_ok s dt obs :
  obstacle_ok obs -> obstacle_ok (advance_obstacle s dt obs).
Proof. intros H. exact H. Qed.

Lemma new_obstacle_ok t lane ty cx :
  (0 <= lane <= 2)%Z -> lane_x lane = Some cx ->
  obstacle_ok (new_obstacle t lane ty cx).
Proof. intros Hl Hx. unfold obstacle_ok, new_obstacle. cbn. tauto. Qed.

(** The shape of the obstacle list after [update_obstacles]: the old
    obstacles advanced and filtered, then at most one new one. *)
Lemma update_obstacles_shape t dt d s s' :
  update_obstacles t dt d s = Some s' ->
  let moved :=
    filter on_screen
      (map (fun obs =>
              Obstacle.set_y
                (Obstacle.y obs
                 + Obstacle.speed obs
                   * (if Qltb 0.8 (game_progress s')
                      then obstacle_speed_multiplier s' * 1.2
                      else obstacle_speed_multiplier s') * dt) obs)
         (obstacles s)) in
  (obstacles s' = moved /\
   last_obstacle_spawn s' = last_obstacle_spawn s /\
   obstacles_spawned s' = obstacles_spawned s) \/
  (exists cx,
     lane_x (draw_lane d) = Some cx /\
     obstacles s' = moved ++ [new_obstacle t (draw_lane d) (draw_type d) cx] /\
     game_running s = true /\
     obstacle_cooldown s' <= t - last_obstacle_spawn s /\
     (List.length moved < MAX_OBSTACLES)%nat /\
     draw_random d < obstacle_probability s' /\
     last_obstacle_spawn s' = t /\
     obstacles_spawned s' = (obstacles_spawned s + 1)%Z).
Proof.
  unfold update_obstacles.
  destruct (calculate_game_progress t s) as [gp|]; [|discriminate].
  destruct (update_difficulty _) as [s1|] eqn:Ed; [|discriminate].
  assert (Hs1 : obstacles s1 = obstacles s /\ game_running s1 = game_running s
                /\ last_obstacle_spawn s1 = last_obstacle_spawn s
                /\ obstacles_spawned s1 = obstacles_spawned s).
  { unfold update_difficulty in Ed. destruct (Qeq_bool _ 0); [discriminate|].
    injection Ed as <-. repeat split. }
  destruct Hs1 as (Eo & Er & El & En).
  unfold advance_obstacle. rewrite Eo, Er, El, En.
  destruct (game_running s) eqn:Erun.
  - destruct (_ && _) eqn:Ec.
    + destruct (lane_x (draw_lane d)) as [cx|] eqn:Ex; [|discriminate].
      intros [= <-]. right. exists cx.
      cbn [obstacles game_progress obstacle_speed_multiplier
           last_obstacle_spawn obstacles_spawned obstacle_cooldown
           obstacle_probability].
      apply andb_true_iff in Ec. destruct Ec as [Ec Hp].
      apply andb_true_iff in Ec. destruct Ec as [Hc Hl].
      apply Qle_bool_iff in Hc. apply Nat.ltb_lt in Hl. apply Qltb_lt in Hp.
      repeat split; auto.
    + intros [= <-]. left.
      cbn [obstacles game_progress obstacle_speed_multiplier
           last_obstacle_spawn obstacles_spawned].
      repeat split; lia.
  - intros [= <-]. left.
    cbn [obstacles game_progress obstacle_speed_multiplier
         last_obstacle_spawn obstacles_spawned].
    repeat split; lia.
Qed.

Lemma filter_length_le {A : Type} (f : A -> bool) (l : list A) :
  (List.length (filter f l) <= List.length l)%nat.
Proof.
  induction l as [|x l IH]; cbn [filter List.length]; [lia|].
  destruct (f x); cbn [List.length]; lia.
Qed.

Lemma exec_obstacles_ok op s s' :
  op_ok s op -> exec op s = Some s' ->
  (List.length (obstacles s) <= MAX_OBSTACLES)%nat /\
  Forall obstacle_ok (obstacles s) ->
  (List.length (obstacles s') <= MAX_OBSTACLES)%nat /\
  Forall obstacle_ok (obstacles s').
Proof.
  intros Hop He [Hlen Hall].
  assert (Hsame : obstacles s' = obstacles s ->
                  (List.length (obstacles s') <= MAX_OBSTACLES)%nat /\
                  Forall obstacle_ok (obstacles s'))
    by (intros ->; auto).
  assert (Hfilter : forall f,
            (List.length (filter f (obstacles s)) <= MAX_OBSTACLES)%nat /\
            Forall obstacle_ok (filter f (obstacles s))).
  { intros f. split.
    - pose proof (filter_length_le f (obstacles s)). lia.
    - rewrite Forall_forall in *. intros o Ho. apply filter_In in Ho.
      apply Hall. tauto. }
  destruct op; cbn [exec op_ok] in *.
  - injection He as <-. apply Hsame. unfold handle_join.
    destruct (dict_get _ _ _); reflexivity.
  - injection He as <-. apply Hsame. unfold handle_input.
    destruct (dict_get _ _ _); [destruct (negb _)|]; reflexivity.
  - injection He as <-. apply Hsame. unfold handle_heartbeat.
    destruct (dict_get _ _ _); reflexivity.
  - injection He as <-. apply Hsame. unfold handle_leave.
    destruct (dict_mem _ _ _); reflexivity.
  - unfold update_player_movements in He.
    destruct (move_all _ _ _); [|discriminate]. injection He as <-.
    apply Hsame. reflexivity.
  - destruct Hop as (_ & Hlane & _).
    pose proof (update_obstacles_shape _ _ _ _ _ He) as Hshape.
    cbv zeta in Hshape.
    set (moved := filter on_screen _) in Hshape.
    assert (Hmoved : (List.length moved <= List.length (obstacles s))%nat /\
                     Forall obstacle_ok moved).
    { subst moved. split.
      - etransitivity; [apply filter_length_le|]. rewrite length_map. lia.
      - rewrite Forall_forall in *. intros o Ho. apply filter_In in Ho.
        destruct Ho as [Ho _]. apply in_map_iff in Ho.
        destruct Ho as (o0 & <- & Ho0). exact (Hall o0 Ho0). }
    destruct Hmoved as [Hml Hmok].
    destruct Hshape as [(-> & _) | (cx & Hcx & -> & _ & _ & Hl & _)].
    + split; [lia | exact Hmok].
    + split.
      * rewrite length_app. cbn [List.length]. lia.
      * apply Forall_app. split; [exact Hmok|].
        constructor; [apply new_obstacle_ok; assumption | constructor].
  - injection He as <-. unfold update_collisions.
    destruct (negb _); [auto|].
    destruct (scan_obstacles _ _ _) as [[ps removed] n].
    cbn [obstacles]. destruct removed; [auto | apply Hfilter].
  - injection He as <-. apply Hsame. reflexivity.
  - injection He as <-. apply Hsame. reflexivity.
  - injection He as <-. apply Hsame. reflexivity.
  - injection He as <-. cbn. split; [lia | constructor].
  - injection He as <-. apply Hsame. reflexivity.
Qed.

(** X7.  In every reachable state at most [MAX_OBSTACLES] obstacles are on
    the road, and each of them is in one of the three lanes, exactly on that
    lane's centre, with the width, height, speed, penalty and colour of its
    type: an obstacle never changes lane nor shape. *)
Theorem obstacles_capped_and_well_formed (s : GameServer) :
  reachable s ->
  (List.length (obstacles s) <= MAX_OBSTACLES)%nat /\
  forall obs, In obs (obstacles s) -> obstacle_ok obs.
Proof.
  intros Hs.
  assert (H : (List.length (obstacles s) <= MAX_OBSTACLES)%nat /\
              Forall obstacle_ok (obstacles s)).
  { induction Hs as [|s op s' _ IH Hop He].
    - cbn. split; [lia | constructor].
    - eapply exec_obstacles_ok; eauto. }
  destruct H as [Hlen Hall]. split; [exact Hlen|].
  apply Forall_forall. exact Hall.
Qed.

(** X7 on the state after the crash: the second car is in lane 1 at
    x = 500 with a car's dimensions. *)
Lemma obstacles_capped_and_well_formed_witness :
  (List.length (obstacles after_crash) <= 8)%nat /\
  match obstacles after_crash with
  | obs :: _ => Obstacle.lane obs = 1%Z /\ Obstacle.x obs = 500 /\
                Obstacle.height obs = 120
  | [] => False
  end.
Proof.
  assert (Hr : reachable after_crash).
  { destruct (reachable_run crash_later crash_state crash_state_reachable)
      as (s & Hs & Hr).
    - vm_compute. repeat split; discriminate.
    - vm_compute in Hs. injection Hs as <-. exact Hr. }
  destruct (obstacles_capped_and_well_formed after_crash Hr) as [Hlen _].
  split; [exact Hlen|]. vm_compute. repeat split.
Defined.

(** X8.  One obstacle update: every obstacle kept is an old one advanced by
    speed x multiplier x dt (the multiplier being the server's, times 1.2
    once progress exceeds 0.8), and an old obstacle is kept exactly while
    its new y is below [SCREEN_H + height + 100]; the kept ones stay in
    their order.  At most one obstacle is added, at the end of the list,
    and only while the round runs, the cooldown since the last spawn
    has elapsed, fewer than [MAX_OBSTACLES] remain and the draw is below the
    spawn probability; it starts at y = -height on the centre of the drawn
    lane, carries the call time as id, and restarts the cooldown. *)
Theorem update_obstacles_rules (t dt : Q) (d : SpawnDraw) (s s' : GameServer) :
  update_obstacles t dt d s = Some s' ->
  let m :=
    if Qltb 0.8 (game_progress s') then obstacle_speed_multiplier s' * 1.2
    else obstacle_speed_multiplier s' in
  let advanced obs :=
    Obstacle.set_y (Obstacle.y obs + Obstacle.speed obs * m * dt) obs in
  (forall obs, In obs (obstacles s) ->
     Obstacle.y (advanced obs) < SCREEN_H + Obstacle.height obs + 100 ->
     In (advanced obs) (obstacles s')) /\
  (forall obs', In obs' (obstacles s') ->
     (exists obs, In obs (obstacles s) /\ obs' = advanced obs /\
                  Obstacle.y obs' < SCREEN_H + Obstacle.height obs' + 100) \/
     (exists cx,
        lane_x (draw_lane d) = Some cx /\
        obs' = new_obstacle t (draw_lane d) (draw_type d) cx /\
        Obstacle.y obs' = - Obstacle.height obs' /\
        Obstacle.x obs' = cx /\ Obstacle.id obs' = t /\
        game_running s = true /\
        obstacle_cooldown s' <= t - last_obstacle_spawn s /\
        draw_random d < obstacle_probability s' /\
        last_obstacle_spawn s' = t)) /\
  (List.length (obstacles s') <= S (List.length (obstacles s)))%nat /\
  (List.length (obstacles s') <= MAX_OBSTACLES
   \/ List.length (obstacles s') <= List.length (obstacles s))%nat /\
  (let kept := filter on_screen (map advanced (obstacles s)) in
   obstacles s' = kept /\
   last_obstacle_spawn s' = last_obstacle_spawn s /\
   obstacles_spawned s' = obstacles_spawned s
   \/
   exists cx,
     lane_x (draw_lane d) = Some cx /\
     obstacles s' = kept ++ [new_obstacle t (draw_lane d) (draw_type d) cx] /\
     obstacles_spawned s' = (obstacles_spawned s + 1)%Z).
Proof.
  intros He m advanced.
  pose proof (update_obstacles_shape _ _ _ _ _ He) as Hshape.
  cbv zeta in Hshape. fold m in Hshape.
  set (moved := filter on_screen _) in Hshape.
  assert (Hmoved_in : forall o, In o moved <->
            exists obs, In obs (obstacles s) /\ o = advanced obs /\
                        Obstacle.y o < SCREEN_H + Obstacle.height o + 100).
  { intros o. subst moved. rewrite filter_In, in_map_iff.
    unfold on_screen. rewrite Qltb_lt. split.
    - intros [(obs & <- & Hin) Hy]. exists obs. auto.
    - intros (obs & Hin & -> & Hy). split; [exists obs; auto | exact Hy]. }
  assert (Hmoved_len : (List.length moved <= List.length (obstacles s))%nat).
  { subst moved. etransitivity; [apply filter_length_le|].
    rewrite length_map. lia. }
  assert (Hincl : forall o, In o moved -> In o (obstacles s')).
  { intros o Ho.
    destruct Hshape as [(-> & _) | (cx & _ & -> & _)];
      [exact Ho | apply in_app_iff; left; exact Ho]. }
  split; [|split; [|split; [|split]]].
  - intros obs Hin Hy. apply Hincl, Hmoved_in. exists obs. auto.
  - intros obs' Hin'.
    destruct Hshape
      as [(E & _) | (cx & Hcx & E & Hrun & Hcd & _ & Hp & Hls & _)];
      rewrite E in Hin'.
    + left. apply Hmoved_in. exact Hin'.
    + apply in_app_iff in Hin'. destruct Hin' as [Hin' | [<- | []]].
      * left. apply Hmoved_in. exact Hin'.
      * right. exists cx. repeat split; auto.
  - destruct Hshape as [(-> & _) | (cx & _ & -> & _)].
    + lia.
    + rewrite length_app. cbn [List.length]. lia.
  - destruct Hshape as [(-> & _) | (cx & _ & -> & _ & _ & Hl & _)].
    + right. exact Hmoved_len.
    + left. rewrite length_app. cbn [List.length]. lia.
  - destruct Hshape
      as [(E & Hls & Hsp) | (cx & Hcx & E & _ & _ & _ & _ & _ & Hsp)].
    + left. split; [exact E | split; [exact Hls | exact Hsp]].
    + right. exists cx. split; [exact Hcx | split; [exact E | exact Hsp]].
Qed.

(** X8 on the crash session: the update of time 102 spawns the car in
    lane 1 at y = -120. *)
Lemma update_obstacles_rules_witness :
  match run (firstn 3 crash_session) init_server with
  | Some s =>
      match update_obstacles 102 0 (mkDraw 0 1 car) s with
      | Some s' =>
          forall obs', In obs' (obstacles s') ->
            obs' = new_obstacle 102 1 car 500 /\ Obstacle.y obs' = - 120
      | None => False
      end
  | None => False
  end.
Proof.
  destruct (run (firstn 3 crash_session) init_server) as [s|] eqn:Es;
    [|vm_compute in Es; discriminate Es].
  destruct (update_obstacles 102 0 (mkDraw 0 1 car) s) as [s'|] eqn:Eu;
    [|vm_compute in Es; injection Es as <-; vm_compute in Eu; discriminate Eu].
  intros obs' Hin.
  destruct (update_obstacles_rules _ _ _ _ _ Eu) as (_ & Hnew & _).
  destruct (Hnew obs' Hin) as [(obs & Hobs & _) | (cx & Hcx & -> & Hy & _)].
  - vm_compute in Es. injection Es as <-. destruct Hobs.
  - cbn [draw_lane draw_type] in *. vm_compute in Hcx. injection Hcx as <-.
    split; reflexivity.
Defined.

(** ** Finishing, settling, one hit per tick *)

Lemma lazy_reset_finished now p :
  Player.finished (lazy_reset now p) = Player.finished p.
Proof. destruct (lazy_reset_cases now p) as [-> | ->]; reflexivity. Qed.

Lemma collide_finish_ok now obs p :
  (0 <= Obstacle.penalty obs)%Z -> player_ok p -> finish_ok p ->
  finish_ok (fst (collide now obs p)).
Proof.
  intros Hpen Hp Hf.
  assert (Hr : finish_ok (lazy_reset now p)).
  { unfold finish_ok. rewrite lazy_reset_finished, lazy_reset_score. exact Hf. }
  unfold collide.
  destruct (Qltb (now - Player.blink p) BLINK_DURATION); cbn [orb];
    [exact Hr|].
  destruct (Player.finished (lazy_reset now p)) eqn:Efin; [exact Hr|].
  destruct (_ && _); [|exact Hr].
  cbn [fst].
  assert (Hq : player_ok (lazy_reset now p))
    by (destruct (lazy_reset_cases now p) as [-> | ->]; exact Hp).
  revert Hr Hq Efin. generalize (lazy_reset now p). intros q Hr Hq Efin.
  pose proof (hit_penalty_nonneg obs q Hpen) as Hnn.
  assert (Hnn' : 0 <= inject_Z (hit_penalty obs q)) by (unfold Qle; cbn; lia).
  destruct Hq as (_ & _ & _ & [Hs0 Hs1] & _).
  assert (Hlt : Player.score q < MAX_SCORE).
  { destruct (Qlt_le_dec (Player.score q) MAX_SCORE) as [H | H]; [exact H|].
    assert (E : Player.score q == MAX_SCORE) by lra.
    apply Hr in E. congruence. }
  unfold finish_ok, apply_hit.
  cbn [Player.finished Player.score Player.set_score Player.set_blink
       Player.set_last_collision_time Player.set_consecutive_collisions].
  rewrite Efin. split; [discriminate|].
  intros E. exfalso.
  assert (Hmax : py_max 0 (Player.score q - inject_Z (hit_penalty obs q))
                 < MAX_SCORE).
  { unfold py_max. destruct (Qltb _ _); [lra | unfold MAX_SCORE; lra]. }
  lra.
Qed.

Lemma hit_chain_finish_ok now obss p q :
  Forall (fun o => (0 <= Obstacle.penalty o)%Z) obss ->
  hit_chain now obss p q ->
  player_ok p -> finish_ok p -> finish_ok q.
Proof.
  intros Hall Hch.
  induction Hch as [p | obs rest p q _ IH | obs rest p q _ IH]; intros Hp Hf.
  - exact Hf.
  - inversion Hall; subst. auto.
  - inversion Hall; subst.
    apply IH; [assumption | apply collide_ok; assumption
              | apply collide_finish_ok; assumption].
Qed.

Lemma score_player_finish_ok gp now p :
  player_ok p -> finish_ok p -> finish_ok (score_player gp now p).
Proof.
  intros Hp Hf. unfold score_player.
  destruct (Qltb (Player.score p) MAX_SCORE && negb (Player.finished p))
    eqn:Ec; [|exact Hf].
  apply andb_true_iff in Ec. destruct Ec as [_ Enf].
  apply negb_true_iff in Enf.
  cbn [Player.score Player.set_score Player.finished].
  rewrite Enf. cbn [negb]. rewrite andb_true_r.
  set (sc := py_min _ MAX_SCORE).
  assert (Hsc : sc <= MAX_SCORE) by apply py_min_upper.
  destruct (Qle_bool MAX_SCORE sc) eqn:E.
  - apply Qle_bool_iff in E. unfold finish_ok. cbn. split; [intros _; lra | reflexivity].
  - apply Qle_bool_gt in E. unfold finish_ok. cbn. rewrite Enf.
    split; [discriminate | intros H; lra].
Qed.

Lemma move_player_score gp dt p p' :
  move_player gp dt p = Some p' -> Player.score p' = Player.score p.
Proof.
  unfold move_player.
  destruct (Qltb (Player.move_progress p) 1).
  - cbn [Player.lane Player.target_lane Player.move_progress
         Player.set_move_progress Player.set_x Player.set_lane].
    destruct (lane_x (Player.lane p)); [|discriminate].
    destruct (lane_x (Player.target_lane p)); [|discriminate].
    destruct (Qle_bool 1 _); cbn beta iota; destruct (negb _);
      intros [= <-]; reflexivity.
  - destruct (negb _); intros [= <-]; reflexivity.
Qed.

Lemma player_step_finish_ok op s p p' :
  env_ok s -> player_step op s p p' ->
  player_ok p -> finish_ok p -> finish_ok p'.
Proof.
  intros (_ & _ & Hobs) Hstep Hp Hf.
  destruct op; cbn [player_step] in Hstep.
  - destruct Hstep as [-> | [name ->]]; exact Hf.
  - destruct Hstep as [-> | ->]; [exact Hf|].
    unfold finish_ok.
    destruct (input_player_keeps msg now true p) as (-> & -> & _). exact Hf.
  - destruct Hstep as [-> | ->]; exact Hf.
  - subst. exact Hf.
  - unfold finish_ok. rewrite (move_player_finished _ _ _ _ Hstep),
      (move_player_score _ _ _ _ Hstep). exact Hf.
  - subst. exact Hf.
  - destruct Hstep as [[_ Hch] | ->]; [|exact Hf].
    eapply hit_chain_finish_ok; eauto.
  - subst. apply score_player_finish_ok; assumption.
  - subst. exact Hf.
  - subst. exact Hf.
  - subst. unfold finish_ok, reset_player, MAX_SCORE. cbn.
    split; [discriminate | intros H; lra].
  - subst. exact Hf.
Qed.

Lemma reachable_finish_ok s :
  reachable s -> forall a p, In (a, p) (players s) -> finish_ok p.
Proof.
  induction 1 as [|s op s' Hs IH Hop He]; [intros a p []|].
  intros a p' Hin. destruct (reachable_ok s Hs) as [Henv Hps].
  destruct (exec_players op s s' a p' He Hin)
    as [(p & Hp & Hstep) | (name & now & _ & ->)].
  - eapply player_step_finish_ok; eauto.
  - unfold finish_ok, new_player, MAX_SCORE. cbn.
    split; [discriminate | intros H; lra].
Qed.

(** X9.  In every reachable state a player is finished exactly when its
    score is [MAX_SCORE].  Such a player is left alone by the scoring tick,
    and no obstacle takes points from it: once reached, [MAX_SCORE] stays for
    the rest of the round. *)
Theorem finished_iff_max_score (s : GameServer) :
  reachable s ->
  forall a p, In (a, p) (players s) ->
    (Player.finished p = true <-> Player.score p == MAX_SCORE) /\
    (Player.finished p = true ->
     (forall gp now, score_player gp now p = p) /\
     (forall now obs,
        snd (collide now obs p) = false /\
        Player.score (fst (collide now obs p)) = Player.score p)).
Proof.
  intros Hs a p Hin. split; [exact (reachable_finish_ok s Hs a p Hin)|].
  intros Hfin. split.
  - intros gp now. apply score_player_finished. exact Hfin.
  - intros now obs.
    assert (Hm : snd (collide now obs p) = false).
    { unfold collide. rewrite lazy_reset_finished, Hfin, orb_true_r.
      reflexivity. }
    split; [exact Hm|].
    rewrite (collide_miss now obs p Hm). apply lazy_reset_score.
Qed.

(** X9 on the crash session: ann, not finished, is below [MAX_SCORE]. *)
Lemma finished_iff_max_score_witness :
  match dict_get addr_eqb ann (players crash_state) with
  | Some p => Player.finished p = false /\ ~ Player.score p == MAX_SCORE
  | None => False
  end.
Proof.
  destruct (dict_get addr_eqb ann (players crash_state)) as [p|] eqn:E;
    [|vm_compute in E; discriminate E].
  destruct (finished_iff_max_score crash_state crash_state_reachable ann p
              (dict_get_In _ _ _ E)) as [Hiff _].
  vm_compute in E. injection E as <-.
  split; [reflexivity|].
  intros H. apply Hiff in H. discriminate H.
Defined.

Lemma lane_x_some_range i c : lane_x i = Some c -> (-3 <= i <= 2)%Z.
Proof.
  unfold lane_x. cbn [List.length LANE_X Z.of_nat].
  destruct ((0 <=? i)%Z && (i <? _)%Z) eqn:E1.
  - apply andb_true_iff in E1. destruct E1 as [H1 H2].
    apply Z.leb_le in H1. apply Z.ltb_lt in H2. cbn in H2. lia.
  - destruct ((_ <=? i)%Z && (i <? 0)%Z) eqn:E2; [|discriminate].
    apply andb_true_iff in E2. destruct E2 as [H1 H2].
    apply Z.leb_le in H1. apply Z.ltb_lt in H2. cbn in H1. lia.
Qed.

Lemma input_player_settled_ok m now p :
  (0 <= Player.lane p <= 2)%Z ->
  settled_ok p -> settled_ok (input_player m now true p).
Proof.
  intros Hl [Hn Hs]. rewrite (input_player_running m now p Hl). cbv zeta.
  unfold settled_ok.
  cbn [Player.lane Player.target_lane Player.move_progress Player.x].
  destruct (Qle_bool 1 (Player.move_progress p)
            && Qltb 0.5 (now - Player.last_collision_time p)
            && negb (wanted_lane m (Player.lane p) =? Player.lane p)%Z).
  - split; [|intros H; lra].
    unfold wanted_lane. split_ifs; lia.
  - split; [exact Hn | exact Hs].
Qed.

Lemma move_player_settled_ok gp dt p p' :
  move_player gp dt p = Some p' -> settled_ok p -> settled_ok p'.
Proof.
  intros Hm [Hn Hs]. revert Hm. unfold move_player.
  destruct (Qltb (Player.move_progress p) 1) eqn:Emp.
  - cbn [Player.lane Player.target_lane Player.move_progress
         Player.set_move_progress Player.set_x Player.set_lane].
    destruct (lane_x (Player.lane p)) as [sx|]; [|discriminate].
    destruct (lane_x (Player.target_lane p)) as [tx|] eqn:Etx; [|discriminate].
    destruct (Qle_bool 1 _) eqn:E1; cbn beta iota.
    + destruct (negb _); intros [= <-]; unfold settled_ok;
        cbn [Player.lane Player.target_lane Player.move_progress Player.x
             Player.set_y Player.set_x Player.set_lane
             Player.set_move_progress]; (split; [lia|]); intros _; split;
        [reflexivity | exact Etx | reflexivity | exact Etx].
    + apply Qle_bool_gt in E1.
      destruct (negb _); intros [= <-]; unfold settled_ok;
        cbn [Player.lane Player.target_lane Player.move_progress Player.x
             Player.set_y Player.set_x Player.set_lane
             Player.set_move_progress]; (split; [exact Hn|]); intros H; lra.
  - destruct (negb _); intros [= <-]; [|split; assumption].
    unfold settled_ok. cbn [Player.lane Player.target_lane
      Player.move_progress Player.x Player.set_y]. split; assumption.
Qed.

Lemma collide_settled_ok now obs p :
  settled_ok p -> settled_ok (fst (collide now obs p)).
Proof.
  intros H.
  assert (Hr : settled_ok (lazy_reset now p))
    by (destruct (lazy_reset_cases now p) as [-> | ->]; exact H).
  unfold collide. destruct (_ || _); [exact Hr|].
  destruct (_ && _); [|exact Hr]. exact Hr.
Qed.

Lemma hit_chain_settled_ok now obss p q :
  hit_chain now obss p q -> settled_ok p -> settled_ok q.
Proof.
  induction 1 as [p | obs rest p q _ IH | obs rest p q _ IH]; auto.
  intros H. apply IH, collide_settled_ok, H.
Qed.

Lemma score_player_settled_ok gp now p :
  settled_ok p -> settled_ok (score_player gp now p).
Proof. intros H. unfold score_player. split_ifs; exact H. Qed.

Lemma player_step_settled_ok op s p p' :
  player_step op s p p' -> player_ok p -> settled_ok p -> settled_ok p'.
Proof.
  intros Hstep Hp Hs. destruct op; cbn [player_step] in Hstep.
  - destruct Hstep as [-> | [name ->]]; exact Hs.
  - destruct Hstep as [-> | ->]; [exact Hs|].
    apply input_player_settled_ok; [apply Hp | exact Hs].
  - destruct Hstep as [-> | ->]; exact Hs.
  - subst. exact Hs.
  - eapply move_player_settled_ok; eauto.
  - subst. exact Hs.
  - destruct Hstep as [[_ Hch] | ->]; [|exact Hs].
    eapply hit_chain_settled_ok; eauto.
  - subst. apply score_player_settled_ok. exact Hs.
  - subst. exact Hs.
  - subst. exact Hs.
  - subst. unfold settled_ok, reset_player. cbn. split; [lia|].
    intros _. split; reflexivity.
  - subst. exact Hs.
Qed.

(** X10.  In every reachable state the target lane of a player is its lane
    or a neighbour of it (lanes change one at a time), and a player whose
    transition is complete is in its target lane, exactly on that lane's
    centre. *)
Theorem settled_players_on_lane_centre (s : GameServer) :
  reachable s ->
  forall a p, In (a, p) (players s) ->
    (Player.lane p - 1 <= Player.target_lane p <= Player.lane p + 1)%Z /\
    (1 <= Player.move_progress p ->
     Player.target_lane p = Player.lane p /\
     lane_x (Player.lane p) = Some (Player.x p)).
Proof.
  intros Hs. change (forall a p, In (a, p) (players s) -> settled_ok p).
  induction Hs as [|s op s' Hs IH Hop He]; [intros a p []|].
  intros a p' Hin. destruct (reachable_ok s Hs) as [_ Hps].
  destruct (exec_players op s s' a p' He Hin)
    as [(p & Hp & Hstep) | (name & now & _ & ->)].
  - eapply player_step_settled_ok; eauto.
  - unfold settled_ok, new_player. cbn. split; [lia|].
    intros _. split; reflexivity.
Qed.

(** X10 on ann's session: in the middle of her change from lane 1 she
    heads for lane 0, one lane away. *)
Lemma settled_players_on_lane_centre_witness :
  match dict_get addr_eqb ann (players ann_state) with
  | Some p =>
      Player.lane p = 1%Z /\ Player.target_lane p = 0%Z /\
      (Player.lane p - 1 <= Player.target_lane p <= Player.lane p + 1)%Z
  | None => False
  end.
Proof.
  destruct (dict_get addr_eqb ann (players ann_state)) as [p|] eqn:E;
    [|vm_compute in E; discriminate E].
  destruct (settled_players_on_lane_centre ann_state ann_state_reachable
              ann p (dict_get_In _ _ _ E)) as [Hn _].
  vm_compute in E. injection E as <-.
  split; [reflexivity|]. split; [reflexivity | exact Hn].
Defined.

Lemma lazy_reset_idem now p : lazy_reset now (lazy_reset now p) = lazy_reset now p.
Proof.
  unfold lazy_reset.
  destruct (Qltb COLLISION_RESET_TIME (now - Player.last_collision_time p))
    eqn:E; cbn [Player.last_collision_time Player.set_consecutive_collisions];
    rewrite E; reflexivity.
Qed.

Lemma collide_lazy_reset now now' obs p :
  now' = now -> collide now obs (lazy_reset now' p) = collide now obs p.
Proof.
  intros ->. unfold collide.
  rewrite lazy_reset_idem, lazy_reset_blink. reflexivity.
Qed.

(** After a hit at [now] the player is inside its blink window at [now]. *)
Lemma collide_after_hit now obs obs' p :
  snd (collide now obs p) = true ->
  collide now obs' (fst (collide now obs p)) = (fst (collide now obs p), false).
Proof.
  intros Hhit.
  assert (Hb : Player.blink (fst (collide now obs p)) = now /\
               Player.last_collision_time (fst (collide now obs p)) = now).
  { revert Hhit. unfold collide.
    destruct (_ || _); [discriminate|].
    destruct (_ && _); [|discriminate]. intros _. split; reflexivity. }
  destruct Hb as [Hb Hl].
  set (q := fst (collide now obs p)) in *. clearbody q.
  assert (Hr : lazy_reset now q = q).
  { unfold lazy_reset. rewrite Hl.
    assert (E : Qltb COLLISION_RESET_TIME (now - now) = false).
    { apply Qltb_ge. unfold COLLISION_RESET_TIME. lra. }
    rewrite E. reflexivity. }
  unfold collide. rewrite Hr, Hb.
  assert (E : Qltb (now - now) BLINK_DURATION = true).
  { apply Qltb_lt. unfold BLINK_DURATION. lra. }
  rewrite E. reflexivity.
Qed.

(** What a whole collision scan can have done to one player. *)
Lemma hit_chain_once now obss p q :
  hit_chain now obss p q ->
  q = p \/ q = lazy_reset now p \/
  exists obs, In obs obss /\ snd (collide now obs p) = true /\
              q = fst (collide now obs p).
Proof.
  induction 1 as [p | obs rest p q _ IH | obs rest p q Hch IH].
  - left. reflexivity.
  - destruct IH as [-> | [-> | (o & Ho & Hh & ->)]]; auto.
    right. right. exists o. split; [right; exact Ho | auto].
  - destruct (snd (collide now obs p)) eqn:Ehit.
    + (* hit by this obstacle: every later visit is a miss *)
      right. right. exists obs. split; [left; reflexivity|].
      split; [exact Ehit|].
      destruct IH as [-> | [-> | (o & Ho & Hh & ->)]].
      * reflexivity.
      * pose proof (collide_after_hit now obs obs p Ehit) as Ha.
        pose proof (collide_miss now obs (fst (collide now obs p))) as Hm.
        rewrite Ha in Hm. cbn [fst snd] in Hm. symmetry. apply Hm. reflexivity.
      * rewrite (collide_after_hit now obs o p Ehit) in Hh. discriminate Hh.
    + rewrite (collide_miss now obs p Ehit) in IH.
      destruct IH as [-> | [-> | (o & Ho & Hh & ->)]].
      * right. left. reflexivity.
      * right. left. apply lazy_reset_idem.
      * right. right. exists o. split; [right; exact Ho|].
        rewrite (collide_lazy_reset now now o p eq_refl) in *. auto.
Qed.

(** X11.  One collision scan penalises a player at most once: afterwards
    the player is as before, or only lazily reset, or hit by exactly one
    obstacle of the list (the hit opens the blink window, which shields it
    from every obstacle scanned later in the same tick).  In a reachable
    state no score goes up in the scan. *)
Theorem one_hit_per_tick (now : Q) (s : GameServer) :
  reachable s ->
  forall a p', In (a, p') (players (update_collisions now s)) ->
    exists p,
      In (a, p) (players s) /\
      (p' = p \/ p' = lazy_reset now p \/
       exists obs, In obs (obstacles s) /\
                   snd (collide now obs p) = true /\
                   p' = apply_hit now obs (lazy_reset now p)) /\
      Player.score p' <= Player.score p.
Proof.
  intros Hs a p' Hin.
  destruct (exec_players (OpCollisions now) s _ a p' eq_refl Hin)
    as [(p & Hp & Hstep) | (name & t & Hop & _)]; [|discriminate].
  exists p. split; [exact Hp|]. cbn [player_step] in Hstep.
  destruct (reachable_ok s Hs) as [(_ & _ & Hobs) Hps].
  assert (Hcases : p' = p \/ p' = lazy_reset now p \/
            exists obs, In obs (obstacles s) /\
                        snd (collide now obs p) = true /\
                        p' = fst (collide now obs p)).
  { destruct Hstep as [[_ Hch] | ->]; [|left; reflexivity].
    apply hit_chain_once. exact Hch. }
  assert (Hhit : forall obs, snd (collide now obs p) = true ->
                   fst (collide now obs p) = apply_hit now obs (lazy_reset now p)).
  { intros obs. unfold collide. destruct (_ || _); [discriminate|].
    destruct (_ && _); [reflexivity | discriminate]. }
  split.
  - destruct Hcases as [-> | [-> | (obs & Ho & Hh & ->)]]; auto.
    right. right. exists obs. rewrite <- (Hhit obs Hh). auto.
  - destruct Hcases as [-> | [-> | (obs & Ho & Hh & ->)]].
    + lra.
    + rewrite lazy_reset_score. lra.
    + rewrite (Hhit obs Hh). unfold apply_hit.
      cbn [Player.score Player.set_score Player.set_blink
           Player.set_last_collision_time Player.set_consecutive_collisions].
      rewrite lazy_reset_score.
      rewrite Forall_forall in Hobs.
      pose proof (hit_penalty_nonneg obs (lazy_reset now p) (Hobs obs Ho)).
      assert (0 <= inject_Z (hit_penalty obs (lazy_reset now p)))
        by (unfold Qle; cbn; lia).
      destruct (Hps a p Hp) as (_ & _ & _ & [Hs0 _] & _).
      apply py_max_upper; lra.
Qed.

Lemma before_crash_reachable : reachable before_crash.
Proof.
  destruct (reachable_run (firstn 5 crash_session) init_server reach_init)
    as (s & Hs & Hr).
  - vm_compute. repeat split; discriminate.
  - vm_compute in Hs. injection Hs as <-. exact Hr.
Defined.

Lemma after_crash_reachable : reachable after_crash.
Proof.
  destruct (reachable_run crash_later crash_state crash_state_reachable)
    as (s & Hs & Hr).
  - vm_compute. repeat split; discriminate.
  - vm_compute in Hs. injection Hs as <-. exact Hr.
Defined.

(** X11 on the crash session: the scan of 105 takes ann's eighth of a
    point once and stamps her. *)
Lemma one_hit_per_tick_witness :
  match dict_get addr_eqb ann (players before_crash),
        dict_get addr_eqb ann (players (update_collisions 105 before_crash)) with
  | Some p, Some p' =>
      Player.score p' <= Player.score p /\ Player.blink p' = 105
  | _, _ => False
  end.
Proof.
  destruct (dict_get addr_eqb ann (players before_crash)) as [p|] eqn:E;
    [|vm_compute in E; discriminate E].
  destruct (dict_get addr_eqb ann (players (update_collisions 105 before_crash)))
    as [p'|] eqn:E'; [|vm_compute in E'; discriminate E'].
  destruct (one_hit_per_tick 105 before_crash before_crash_reachable ann p'
              (dict_get_In _ _ _ E')) as (q & Hq & _ & Hle).
  assert (Eq : q = p).
  { vm_compute in E. injection E as <-.
    destruct Hq as [[= <-] | []]. reflexivity. }
  subst q. split; [exact Hle|].
  vm_compute in E'. injection E' as <-. reflexivity.
Defined.


(** ** Binary64 rounding against exact arithmetic *)


Lemma round_half_even_close (q : Q) :
  q - (1 # 2) <= inject_Z (round_half_even q) /\
  inject_Z (round_half_even q) <= q + (1 # 2).
Proof.
  unfold round_half_even.
  pose proof (Qfloor_le q) as Hlo. pose proof (Qlt_floor q) as Hhi.
  rewrite inject_Z_plus in Hhi. change (inject_Z 1) with 1 in Hhi.
  set (f := Qfloor q) in *.
  destruct (Qltb (q - inject_Z f) (1 # 2)) eqn:E1.
  - apply Qltb_lt in E1. split; lra.
  - apply Qltb_ge in E1.
    destruct (Qltb (1 # 2) (q - inject_Z f)) eqn:E2.
    + rewrite inject_Z_plus. change (inject_Z 1) with 1. split; lra.
    + apply Qltb_ge in E2. destruct (Z.even f).
      * split; lra.
      * rewrite inject_Z_plus. change (inject_Z 1) with 1. split; lra.
Qed.

Lemma two_pow_pos (e : Z) : 0 < 2 ^ e.
Proof. apply Qpower_0_lt. lra. Qed.

Lemma two_pow_Z (k : Z) : (0 <= k)%Z -> inject_Z (2 ^ k) == 2 ^ k.
Proof. intros H. rewrite Zpower_Qpower by exact H. reflexivity. Qed.

Lemma two_pow_minus (a b : Z) : 2 ^ (a - b) == 2 ^ a / 2 ^ b.
Proof.
  unfold Z.sub. rewrite Qpower_plus by lra. rewrite Qpower_opp. reflexivity.
Qed.

(** The scaled value is at least [2^52]. *)
Lemma binary64_scaled (a : Q) :
  0 < a ->
  let e0 := (Z.log2 (Qnum a) - Z.log2 (Zpos (Qden a)) - 52)%Z in
  let e := if Qltb (a / 2 ^ e0) (2 ^ 52) then (e0 - 1)%Z else e0 in
  2 ^ 52 <= a / 2 ^ e.
Proof.
  intros Ha e0 e.
  destruct (Qltb (a / 2 ^ e0) (2 ^ 52)) eqn:E; subst e.
  2:{ apply Qltb_ge in E. exact E. }
  clear E.
  destruct a as [n d]. assert (Hn : (0 < n)%Z) by (unfold Qlt in Ha; cbn in Ha; lia).
  cbn [Qnum Qden] in e0.
  pose proof (Z.log2_spec n Hn) as [Hn1 _].
  pose proof (Z.log2_spec (Zpos d) (Pos2Z.is_pos d)) as [_ Hd2].
  pose proof (Z.log2_nonneg n) as Hln. pose proof (Z.log2_nonneg (Zpos d)) as Hld.
  set (ln := Z.log2 n) in *. set (ld := Z.log2 (Zpos d)) in *.
  (* n # d >= 2^ln / 2^(ld+1) *)
  assert (H1 : 2 ^ ln <= inject_Z n)
    by (rewrite <- two_pow_Z by exact Hln; rewrite <- Zle_Qle; exact Hn1).
  assert (H2 : inject_Z (Zpos d) <= 2 ^ (ld + 1)).
  { rewrite <- two_pow_Z by lia. rewrite <- Zle_Qle.
    unfold Z.succ in Hd2. lia. }
  assert (Hd : 0 < inject_Z (Zpos d)) by (unfold Qlt; cbn; lia).
  assert (Ea : n # d == inject_Z n / inject_Z (Zpos d)) by apply Qmake_Qdiv.
  apply Qle_shift_div_l; [apply two_pow_pos|].
  rewrite Ea. apply Qle_shift_div_l; [exact Hd|].
  (* 2^52 * 2^(e0-1) * d <= n *)
  assert (E : 2 ^ 52 * 2 ^ (e0 - 1) * 2 ^ (ld + 1) == 2 ^ ln).
  { rewrite <- !Qpower_plus by lra. subst e0.
    replace (52 + (ln - ld - 52 - 1) + (ld + 1))%Z with ln by lia. reflexivity. }
  assert (Hp : 0 < 2 ^ 52 * 2 ^ (e0 - 1)).
  { apply Qmult_lt_0_compat; apply two_pow_pos. }
  apply Qle_trans with (2 ^ 52 * 2 ^ (e0 - 1) * 2 ^ (ld + 1)); [|rewrite E; exact H1].
  apply Qmult_le_l; [exact Hp | exact H2].
Qed.

(** And below [2^53]: the rounded significand has 53 bits. *)
Lemma binary64_scaled_upper (a : Q) :
  0 < a ->
  let e0 := (Z.log2 (Qnum a) - Z.log2 (Zpos (Qden a)) - 52)%Z in
  let e := if Qltb (a / 2 ^ e0) (2 ^ 52) then (e0 - 1)%Z else e0 in
  a / 2 ^ e < 2 ^ 53.
Proof.
  intros Ha e0 e.
  destruct (Qltb (a / 2 ^ e0) (2 ^ 52)) eqn:E; subst e.
  - apply Qltb_lt in E.
    assert (E1 : 2 ^ (e0 - 1) == 2 ^ e0 * (1 # 2)).
    { unfold Z.sub. rewrite Qpower_plus by lra. reflexivity. }
    assert (E2 : 2 ^ 53 == 2 * 2 ^ 52) by reflexivity.
    pose proof (two_pow_pos e0) as Hp.
    rewrite E1, E2.
    setoid_replace (a / (2 ^ e0 * (1 # 2))) with (2 * (a / 2 ^ e0))
      by (field; lra).
    lra.
  - clear E.
    destruct a as [n d].
    assert (Hn : (0 < n)%Z) by (unfold Qlt in Ha; cbn in Ha; lia).
    cbn [Qnum Qden] in e0.
    pose proof (Z.log2_spec n Hn) as [_ Hn2].
    pose proof (Z.log2_spec (Zpos d) (Pos2Z.is_pos d)) as [Hd1 _].
    pose proof (Z.log2_nonneg n) as Hln.
    pose proof (Z.log2_nonneg (Zpos d)) as Hld.
    set (ln := Z.log2 n) in *. set (ld := Z.log2 (Zpos d)) in *.
    assert (H1 : inject_Z n < 2 ^ (ln + 1)).
    { rewrite <- two_pow_Z by lia. rewrite <- Zlt_Qlt.
      unfold Z.succ in Hn2. exact Hn2. }
    assert (H2 : 2 ^ ld <= inject_Z (Zpos d))
      by (rewrite <- two_pow_Z by exact Hld; rewrite <- Zle_Qle; exact Hd1).
    assert (Hd : 0 < inject_Z (Zpos d)) by (unfold Qlt; cbn; lia).
    assert (Ea : n # d == inject_Z n / inject_Z (Zpos d)) by apply Qmake_Qdiv.
    apply Qlt_shift_div_r; [apply two_pow_pos|].
    rewrite Ea. apply Qlt_shift_div_r; [exact Hd|].
    assert (E : 2 ^ 53 * 2 ^ e0 * 2 ^ ld == 2 ^ (ln + 1)).
    { rewrite <- !Qpower_plus by lra. subst e0.
      replace (53 + (ln - ld - 52) + ld)%Z with (ln + 1)%Z by lia.
      reflexivity. }
    assert (Hp : 0 < 2 ^ 53 * 2 ^ e0)
      by (apply Qmult_lt_0_compat; apply two_pow_pos).
    apply Qlt_le_trans with (2 ^ 53 * 2 ^ e0 * 2 ^ ld);
      [rewrite E; exact H1|].
    apply Qmult_le_l; [exact Hp | exact H2].
Qed.

Lemma two_pow_52 : 2 ^ 52 * unit_roundoff == 1 # 2.
Proof. vm_compute. reflexivity. Qed.

(** One rounding of a non-negative value. *)
Lemma binary64_error (q : Q) :
  0 <= q ->
  q * (1 - unit_roundoff) <= binary64 q /\ binary64 q <= q * (1 + unit_roundoff).
Proof.
  intros H. unfold binary64.
  destruct (Qeq_bool q 0) eqn:E0.
  { apply Qeq_bool_iff in E0. rewrite E0. split; lra. }
  assert (Hq : 0 < q).
  { apply Qle_lteq in H. destruct H as [H | H]; [exact H|].
    assert (Qeq_bool q 0 = true) by (apply Qeq_bool_iff; symmetry; exact H).
    congruence. }
  assert (Es : Qltb q 0 = false) by (apply Qltb_ge; exact H).
  rewrite Es.
  assert (Ea : Qabs q == q) by (apply Qabs_pos; exact H).
  assert (Ha : 0 < Qabs q) by (rewrite Ea; exact Hq).
  pose proof (binary64_scaled (Qabs q) Ha) as Hsc. cbv zeta in Hsc |- *.
  set (e := if Qltb _ _ then _ else _) in *.
  set (x := Qabs q / 2 ^ e) in *.
  pose proof (two_pow_pos e) as Hp.
  pose proof (round_half_even_close x) as [Hlo Hhi].
  assert (Ex : q == x * 2 ^ e).
  { subst x. rewrite <- Ea at 1. field. lra. }
  assert (Hu : (1 # 2) <= x * unit_roundoff).
  { apply Qle_trans with (2 ^ 52 * unit_roundoff).
    - rewrite two_pow_52. apply Qle_refl.
    - apply Qmult_le_compat_r; [exact Hsc | discriminate]. }
  set (m := inject_Z (round_half_even x)) in *.
  assert (Hm1 : x * (1 - unit_roundoff) <= m) by lra.
  assert (Hm2 : m <= x * (1 + unit_roundoff)) by lra.
  split.
  - rewrite Ex.
    setoid_replace (x * 2 ^ e * (1 - unit_roundoff))
      with (x * (1 - unit_roundoff) * 2 ^ e) by ring.
    apply Qmult_le_compat_r; [exact Hm1 | lra].
  - rewrite Ex.
    setoid_replace (x * 2 ^ e * (1 + unit_roundoff))
      with (x * (1 + unit_roundoff) * 2 ^ e) by ring.
    apply Qmult_le_compat_r; [exact Hm2 | lra].
Qed.

Lemma Qpow_nat_add x j k : Qpow_nat x (j + k) == Qpow_nat x j * Qpow_nat x k.
Proof.
  induction j as [|j IH]; cbn [Nat.add Qpow_nat]; [ring|]. rewrite IH. ring.
Qed.

Lemma Qpow_nat_pos x k : 0 < x -> 0 < Qpow_nat x k.
Proof.
  intros H. induction k as [|k IH]; cbn [Qpow_nat]; [reflexivity|].
  apply Qmult_lt_0_compat; assumption.
Qed.

Lemma Qpow_nat_le1 x k : 0 < x -> x <= 1 -> Qpow_nat x k <= 1.
Proof.
  intros H0 H1. induction k as [|k IH]; cbn [Qpow_nat]; [apply Qle_refl|].
  pose proof (Qpow_nat_pos x k H0) as Hp.
  apply Qle_trans with (1 * Qpow_nat x k); [|lra].
  apply Qmult_le_compat_r; [exact H1 | lra].
Qed.

Lemma Qpow_nat_ge1 x k : 1 <= x -> 1 <= Qpow_nat x k.
Proof.
  intros H1. induction k as [|k IH]; cbn [Qpow_nat]; [apply Qle_refl|].
  apply Qle_trans with (1 * Qpow_nat x k); [lra|].
  apply Qmult_le_compat_r; [exact H1 | lra].
Qed.

Lemma lo_pos : 0 < 1 - unit_roundoff. Proof. reflexivity. Qed.
Lemma lo_le1 : 1 - unit_roundoff <= 1. Proof. discriminate. Qed.
Lemma hi_ge1 : 1 <= 1 + unit_roundoff. Proof. discriminate. Qed.

Lemma near_exact E : near 0 E E.
Proof. unfold near. cbn [Qpow_nat]. split; lra. Qed.

Lemma near_nonneg k E v : 0 <= E -> near k E v -> 0 <= v.
Proof.
  intros HE [Hlo _]. pose proof (Qpow_nat_pos _ k lo_pos) as Hp.
  apply Qle_trans with (E * Qpow_nat (1 - unit_roundoff) k); [|exact Hlo].
  apply Qmult_le_0_compat; lra.
Qed.

Lemma near_round k E v : 0 <= E -> near k E v -> near (S k) E (binary64 v).
Proof.
  intros HE Hn. pose proof (near_nonneg k E v HE Hn) as Hv.
  destruct Hn as [Hlo Hhi].
  destruct (binary64_error v Hv) as [Rlo Rhi].
  unfold near. cbn [Qpow_nat]. split.
  - apply Qle_trans with (v * (1 - unit_roundoff)); [|exact Rlo].
    setoid_replace (E * ((1 - unit_roundoff) * Qpow_nat (1 - unit_roundoff) k))
      with (E * Qpow_nat (1 - unit_roundoff) k * (1 - unit_roundoff)) by ring.
    apply Qmult_le_compat_r; [exact Hlo | discriminate].
  - apply Qle_trans with (v * (1 + unit_roundoff)); [exact Rhi|].
    setoid_replace (E * ((1 + unit_roundoff) * Qpow_nat (1 + unit_roundoff) k))
      with (E * Qpow_nat (1 + unit_roundoff) k * (1 + unit_roundoff)) by ring.
    apply Qmult_le_compat_r; [exact Hhi | discriminate].
Qed.

Lemma Qmult_le_both a b c d : 0 <= a -> a <= b -> 0 <= c -> c <= d -> a * c <= b * d.
Proof.
  intros Ha Hab Hc Hcd.
  apply Qle_trans with (b * c).
  - apply Qmult_le_compat_r; assumption.
  - rewrite (Qmult_comm b c), (Qmult_comm b d).
    apply Qmult_le_compat_r; [assumption | lra].
Qed.

Lemma near_mul j k E1 E2 v1 v2 :
  0 <= E1 -> 0 <= E2 -> near j E1 v1 -> near k E2 v2 ->
  near (j + k) (E1 * E2) (v1 * v2).
Proof.
  intros H1 H2 N1 N2.
  pose proof (near_nonneg _ _ _ H1 N1) as Hv1.
  pose proof (near_nonneg _ _ _ H2 N2) as Hv2.
  destruct N1 as [L1 U1], N2 as [L2 U2].
  pose proof (Qpow_nat_pos _ j lo_pos). pose proof (Qpow_nat_pos _ k lo_pos).
  unfold near. rewrite !Qpow_nat_add. split.
  - setoid_replace (E1 * E2 * (Qpow_nat (1 - unit_roundoff) j
                               * Qpow_nat (1 - unit_roundoff) k))
      with ((E1 * Qpow_nat (1 - unit_roundoff) j)
            * (E2 * Qpow_nat (1 - unit_roundoff) k)) by ring.
    apply Qmult_le_both; try assumption; apply Qmult_le_0_compat; lra.
  - setoid_replace (E1 * E2 * (Qpow_nat (1 + unit_roundoff) j
                               * Qpow_nat (1 + unit_roundoff) k))
      with ((E1 * Qpow_nat (1 + unit_roundoff) j)
            * (E2 * Qpow_nat (1 + unit_roundoff) k)) by ring.
    apply Qmult_le_both; assumption.
Qed.

Lemma near_add1 k E v : 0 <= E -> near k E v -> near k (1 + E) (1 + v).
Proof.
  intros HE [L U].
  pose proof (Qpow_nat_le1 _ k lo_pos lo_le1) as Hl.
  pose proof (Qpow_nat_ge1 _ k hi_ge1) as Hh.
  unfold near. split.
  - setoid_replace ((1 + E) * Qpow_nat (1 - unit_roundoff) k)
      with (Qpow_nat (1 - unit_roundoff) k + E * Qpow_nat (1 - unit_roundoff) k)
      by ring. lra.
  - setoid_replace ((1 + E) * Qpow_nat (1 + unit_roundoff) k)
      with (Qpow_nat (1 + unit_roundoff) k + E * Qpow_nat (1 + unit_roundoff) k)
      by ring. lra.
Qed.

Lemma near_literal : near 1 0.3 (binary64 0.3).
Proof. unfold near. split; vm_compute; discriminate. Qed.

Lemma penalty_product_near b c :
  (0 <= b)%Z -> (0 <= c)%Z ->
  near 6 (inject_Z b * (1 + inject_Z c * 0.3)) (float_mul (float_of_int b)
     (float_add 1 (float_mul (float_of_int c) (binary64 0.3)))).
Proof.
  intros Hb Hc.
  assert (Hb' : 0 <= inject_Z b) by (change 0 with (inject_Z 0); rewrite <- Zle_Qle; exact Hb).
  assert (Hc' : 0 <= inject_Z c) by (change 0 with (inject_Z 0); rewrite <- Zle_Qle; exact Hc).
  unfold float_mul, float_add, float_of_int.
  apply (near_round 5); [apply Qmult_le_0_compat; lra|].
  apply (near_mul 1 4); [exact Hb' | lra | |].
  - apply (near_round 0); [exact Hb' | apply near_exact].
  - apply (near_round 3); [lra|].
    apply near_add1; [apply Qmult_le_0_compat; lra|].
    apply (near_round 2); [apply Qmult_le_0_compat; lra|].
    apply (near_mul 1 1); [exact Hc' | lra | | exact near_literal].
    apply (near_round 0); [exact Hc' | apply near_exact].
Qed.

Lemma py_int_floor (q : Q) : 0 <= q -> py_int q = Qfloor q.
Proof.
  destruct q as [n d]. unfold Qle, py_int, Qfloor. cbn [Qnum Qden].
  intros H. apply Z.quot_div_nonneg; lia.
Qed.

Lemma Qfloor_unique (q : Q) (z : Z) :
  inject_Z z <= q -> q < inject_Z (z + 1) -> Qfloor q = z.
Proof.
  intros Hlo Hhi.
  assert (H1 : (z <= Qfloor q)%Z)
    by (rewrite <- (Qfloor_Z z); apply Qfloor_resp_le; exact Hlo).
  assert (H2 : (Qfloor q < z + 1)%Z).
  { rewrite Zlt_Qlt. apply Qle_lt_trans with q; [apply Qfloor_le | exact Hhi]. }
  lia.
Qed.

Lemma six_roundings :
  1 - 7 * unit_roundoff <= Qpow_nat (1 - unit_roundoff) 6 /\
  Qpow_nat (1 + unit_roundoff) 6 <= 1 + 7 * unit_roundoff.
Proof. split; vm_compute; discriminate. Qed.

(** The float product against the exact one. *)
Lemma penalty_product_vs_exact b c :
  (0 <= b)%Z -> (0 <= c)%Z -> (b * (10 + 3 * c) <= 10 ^ 13)%Z ->
  let exact := inject_Z b * (1 + inject_Z c * 0.3) in
  py_int (float_mul (float_of_int b)
     (float_add 1 (float_mul (float_of_int c) (binary64 0.3)))) = Qfloor exact \/
  inject_Z (Qfloor exact) == exact /\ py_int (float_mul (float_of_int b)
     (float_add 1 (float_mul (float_of_int c) (binary64 0.3)))) = (Qfloor exact - 1)%Z.
Proof.
  intros Hb Hc Hk exact.
  pose proof (penalty_product_near b c Hb Hc) as Hn. fold exact in Hn.
  set (k := (b * (10 + 3 * c))%Z) in *.
  assert (Hk0 : (0 <= k)%Z) by (subst k; nia).
  assert (Ek : exact == inject_Z k / 10).
  { subst exact k. rewrite inject_Z_mult, inject_Z_plus, inject_Z_mult.
    change (inject_Z 10) with 10. change (inject_Z 3) with 3. field. }
  assert (He0 : 0 <= exact).
  { rewrite Ek. apply Qle_shift_div_l; [reflexivity|].
    rewrite Qmult_0_l. change 0 with (inject_Z 0). rewrite <- Zle_Qle. exact Hk0. }
  assert (He1 : exact <= 1000000000000).
  { rewrite Ek. apply Qle_shift_div_r; [reflexivity|].
    assert (E13 : 1000000000000 * 10 == inject_Z (10 ^ 13)) by reflexivity.
    rewrite E13, <- Zle_Qle. exact Hk. }
  pose proof (near_nonneg 6 exact _ He0 Hn) as Hv0.
  rewrite (py_int_floor _ Hv0).
  destruct Hn as [Hlo Hhi]. destruct six_roundings as [S1 S2].
  set (v := float_mul _ _) in *.
  assert (Hlo' : exact - (1 # 20) <= v).
  { apply Qle_trans with (exact * Qpow_nat (1 - unit_roundoff) 6); [|exact Hlo].
    apply Qle_trans with (exact * (1 - 7 * unit_roundoff)).
    - unfold unit_roundoff in *. lra.
    - rewrite (Qmult_comm exact (1 - _)), (Qmult_comm exact (Qpow_nat _ _)).
      apply Qmult_le_compat_r; [exact S1 | exact He0]. }
  assert (Hhi' : v <= exact + (1 # 20)).
  { apply Qle_trans with (exact * Qpow_nat (1 + unit_roundoff) 6); [exact Hhi|].
    apply Qle_trans with (exact * (1 + 7 * unit_roundoff)).
    - rewrite (Qmult_comm exact (1 + _)), (Qmult_comm exact (Qpow_nat _ _)).
      apply Qmult_le_compat_r; [exact S2 | exact He0].
    - unfold unit_roundoff in *. lra. }
  clear Hlo Hhi S1 S2.
  pose proof (Z.div_mod k 10 ltac:(lia)) as Hdm.
  pose proof (Z.mod_pos_bound k 10 ltac:(lia)) as Hr.
  set (fx := (k / 10)%Z) in *. set (r := (k mod 10)%Z) in *.
  assert (Ee : exact == inject_Z fx + inject_Z r / 10).
  { rewrite Ek, Hdm, inject_Z_plus, inject_Z_mult.
    change (inject_Z 10) with 10. field. }
  assert (Hr0 : 0 <= inject_Z r / 10).
  { apply Qle_shift_div_l; [reflexivity|]. rewrite Qmult_0_l.
    change 0 with (inject_Z 0). rewrite <- Zle_Qle. lia. }
  assert (Hr9 : inject_Z r / 10 <= 9 # 10).
  { apply Qle_shift_div_r; [reflexivity|].
    assert (E9 : (9 # 10) * 10 == inject_Z 9) by reflexivity.
    rewrite E9, <- Zle_Qle. lia. }
  assert (Efx : Qfloor exact = fx).
  { apply Qfloor_unique; rewrite ?inject_Z_plus; change (inject_Z 1) with 1; lra. }
  rewrite Efx.
  destruct (Z.eq_dec r 0) as [Er | Er].
  - assert (Ex : exact == inject_Z fx).
    { rewrite Ee, Er. change (inject_Z 0) with 0. field. }
    destruct (Qlt_le_dec v (inject_Z fx)) as [Hlt | Hge].
    + right. split; [symmetry; exact Ex|].
      apply Qfloor_unique.
      * assert (Em : inject_Z (fx - 1) == inject_Z fx - 1)
          by (unfold Z.sub; rewrite inject_Z_plus; reflexivity).
        rewrite Em. lra.
      * replace (fx - 1 + 1)%Z with fx by lia. exact Hlt.
    + left. apply Qfloor_unique; [exact Hge|].
      rewrite inject_Z_plus. change (inject_Z 1) with 1. lra.
  - left.
    assert (Hr1 : (1 # 10) <= inject_Z r / 10).
    { apply Qle_shift_div_l; [reflexivity|].
      assert (E1 : (1 # 10) * 10 == inject_Z 1) by reflexivity.
      rewrite E1, <- Zle_Qle. lia. }
    apply Qfloor_unique; rewrite ?inject_Z_plus; change (inject_Z 1) with 1; lra.
Qed.

(** ** The collision tick as a whole *)

(** A pair that takes the [break] met every condition of the test. *)
Lemma collide_hit_conditions now obs p :
  snd (collide now obs p) = true ->
  Obstacle.lane obs = Player.lane p /\
  check_collision p obs = true /\
  BLINK_DURATION <= now - Player.blink p /\
  Player.finished p = false.
Proof.
  unfold collide. rewrite check_collision_lazy_reset.
  assert (El : Player.lane (lazy_reset now p) = Player.lane p)
    by (destruct (lazy_reset_cases now p) as [-> | ->]; reflexivity).
  assert (Ef : Player.finished (lazy_reset now p) = Player.finished p)
    by (destruct (lazy_reset_cases now p) as [-> | ->]; reflexivity).
  rewrite El, Ef.
  destruct (Qltb (now - Player.blink p) BLINK_DURATION) eqn:Eb;
    [discriminate|].
  destruct (Player.finished p); [discriminate|]. cbn [orb].
  destruct (check_collision p obs); [|discriminate].
  destruct (Obstacle.lane obs =? Player.lane p)%Z eqn:Elane; [|discriminate].
  intros _. apply Z.eqb_eq in Elane. apply Qltb_ge in Eb. auto.
Qed.

(** A player stamped at [now] is passed over by every obstacle at [now]. *)
Lemma collide_stamped now obs p :
  Player.blink p = now -> Player.last_collision_time p = now ->
  collide now obs p = (p, false).
Proof.
  intros Hb Hl.
  assert (Hr : lazy_reset now p = p).
  { unfold lazy_reset. rewrite Hl.
    assert (E : Qltb COLLISION_RESET_TIME (now - now) = false).
    { apply Qltb_ge. unfold COLLISION_RESET_TIME. lra. }
    rewrite E. reflexivity. }
  unfold collide. rewrite Hr, Hb.
  assert (E : Qltb (now - now) BLINK_DURATION = true).
  { apply Qltb_lt. unfold BLINK_DURATION. lra. }
  rewrite E. reflexivity.
Qed.

Lemma collide_hit_stamps now obs p :
  snd (collide now obs p) = true ->
  Player.blink (fst (collide now obs p)) = now /\
  Player.last_collision_time (fst (collide now obs p)) = now.
Proof.
  unfold collide. destruct (_ || _); [discriminate|].
  destruct (_ && _); [|discriminate]. intros _. split; reflexivity.
Qed.

Lemma hit_chain_stamped now obss p q :
  hit_chain now obss p q ->
  Player.blink p = now -> Player.last_collision_time p = now -> q = p.
Proof.
  induction 1 as [p | obs rest p q _ IH | obs rest p q _ IH]; intros Hb Hl.
  - reflexivity.
  - apply IH; assumption.
  - rewrite (collide_stamped now obs p Hb Hl) in IH. cbn [fst] in IH.
    apply IH; assumption.
Qed.

Lemma scan_players_fwd now obs ps a p :
  In (a, p) ps ->
  exists p', In (a, p') (fst (scan_players now obs ps)) /\
             (p' = p \/ p' = fst (collide now obs p)).
Proof.
  induction ps as [|[b q] rest IH]; [intros []|].
  cbn [scan_players]. destruct (collide now obs q) as [q' hit] eqn:Ec.
  intros [[= -> ->] | Hin].
  - exists q'. split; [|right; rewrite Ec; reflexivity].
    destruct hit; [left; reflexivity|].
    destruct (scan_players now obs rest). left. reflexivity.
  - destruct hit; cbn [fst].
    + exists p. split; [right; exact Hin | left; reflexivity].
    + destruct (IH Hin) as (p' & Hp' & Hc).
      destruct (scan_players now obs rest) as [rest' hit']. cbn [fst] in *.
      exists p'. split; [right; exact Hp' | exact Hc].
Qed.

Lemma scan_obstacles_fwd now obss :
  forall ps a p,
    In (a, p) ps ->
    exists p', In (a, p') (fst (fst (scan_obstacles now obss ps))) /\
               hit_chain now obss p p'.
Proof.
  induction obss as [|obs rest IH]; intros ps a p Hin.
  - exists p. split; [exact Hin | constructor].
  - cbn [scan_obstacles].
    destruct (scan_players_fwd now obs ps a p Hin) as (p1 & Hp1 & Hc).
    destruct (scan_players now obs ps) as [ps1 hit]. cbn [fst] in Hp1.
    destruct (IH ps1 a p1 Hp1) as (p' & Hp' & Hch).
    destruct (scan_obstacles now rest ps1) as [[ps2 removed] n].
    cbn [fst] in Hp'.
    exists p'. split; [destruct hit; exact Hp'|].
    destruct Hc as [-> | ->]; [apply chain_skip | apply chain_visit]; exact Hch.
Qed.

Lemma update_collisions_players now s :
  truthy (start_time s) = true ->
  players (update_collisions now s)
  = fst (fst (scan_obstacles now (obstacles s) (players s))).
Proof.
  intros Ht. unfold update_collisions. rewrite Ht. cbn [negb].
  destruct (scan_obstacles now (obstacles s) (players s)) as [[ps removed] n].
  reflexivity.
Qed.

(** An eligible pair does not survive the tick: the player is penalised in
    it, or the obstacle penalises another entry and is dropped. *)
Lemma eligible_pair_is_settled now s a p obs :
  truthy (start_time s) = true ->
  In (a, p) (players s) -> In obs (obstacles s) ->
  snd (collide now obs p) = true ->
  (exists o p',
     In o (obstacles s) /\ In (a, p') (players (update_collisions now s)) /\
     snd (collide now o p) = true /\ p' = fst (collide now o p))
  \/
  (~ In obs (obstacles (update_collisions now s)) /\
   exists b q q',
     In (b, q) (players s) /\ In (b, q') (players (update_collisions now s)) /\
     snd (collide now obs q) = true /\ q' = fst (collide now obs q)).
Proof.
  intros Ht Hp Hobs Hhit.
  destruct (in_split obs (obstacles s) Hobs) as (l1 & l2 & Eo).
  pose proof (update_collisions_players now s Ht) as Eps.
  rewrite Eo, scan_obstacles_app in Eps.
  destruct (scan_obstacles_fwd now l1 (players s) a p Hp) as (p1 & Hp1 & Hch1).
  pose proof (fun b q1 => scan_obstacles_In now l1 (players s) b q1) as Hback.
  pose proof (update_collisions_removes now s l1 obs l2 Ht Eo) as Hrem.
  destruct (scan_obstacles now l1 (players s)) as [[ps1 r1] n1].
  cbn [fst] in Hp1, Hback, Hrem.
  (* the part of the scan from [obs] on *)
  assert (Hrest : forall b q1,
            In (b, q1) ps1 ->
            Player.blink q1 = now -> Player.last_collision_time q1 = now ->
            In (b, q1) (players (update_collisions now s))).
  { intros b q1 Hq1 Hb Hl.
    destruct (scan_obstacles_fwd now (obs :: l2) ps1 b q1 Hq1)
      as (q' & Hq' & Hch).
    rewrite (hit_chain_stamped _ _ _ _ Hch Hb Hl) in Hq'.
    destruct (scan_obstacles now (obs :: l2) ps1) as [[ps2 r2] n2].
    rewrite Eps. exact Hq'. }
  destruct (hit_chain_once now l1 p p1 Hch1)
    as [E1 | [E1 | (o & Ho & Hoh & E1)]].
  3:{ (* hit by an earlier obstacle *)
      left. exists o, p1. split; [rewrite Eo; apply in_or_app; left; exact Ho|].
      destruct (collide_hit_stamps now o p Hoh) as [Hb Hl].
      rewrite <- E1 in Hb, Hl.
      split; [apply Hrest; assumption | split; [exact Hoh | exact E1]]. }
  all: assert (Hhit1 : snd (collide now obs p1) = true)
         by (subst p1; rewrite ?(collide_lazy_reset now now obs p eq_refl);
             exact Hhit).
  all: right.
  all: destruct (scan_players_first_match now obs ps1)
         as [(_ & _ & Hall) | (m1 & b & q1 & m2 & Eps1 & Hsh & _ & Hq1h & Hf)];
         [pose proof (Hall (a, p1) Hp1) as Hx; cbn [snd] in Hx;
          rewrite Hx in Hhit1; discriminate Hhit1|].
  all: split; [apply Hrem; exact Hsh|].
  all: assert (Hq1 : In (b, q1) ps1)
         by (rewrite Eps1; apply in_or_app; right; left; reflexivity).
  all: destruct (Hback b q1 Hq1) as (q & Hq & Hchq).
  all: assert (Ecq : collide now obs q1 = collide now obs q).
  all: try (destruct (hit_chain_once now l1 q q1 Hchq)
              as [-> | [-> | (o & _ & Hoh & ->)]];
            [reflexivity
            |apply collide_lazy_reset; reflexivity
            |rewrite (collide_after_hit now o obs q Hoh) in Hq1h;
             discriminate Hq1h]).
  all: exists b, q, (fst (collide now obs q)).
  all: rewrite Ecq in Hq1h, Hf.
  all: split; [exact Hq|]; split; [|split; [exact Hq1h | reflexivity]].
  all: destruct (collide_hit_stamps now obs q Hq1h) as [Hb Hl].
  all: cbn [scan_obstacles] in Eps.
  all: assert (Hin1 : In (b, fst (collide now obs q))
                        (fst (scan_players now obs ps1)))
         by (rewrite Hf; apply in_or_app; right; left; reflexivity).
  all: destruct (scan_players now obs ps1) as [ps1' hit]; cbn [fst] in Hin1.
  all: destruct (scan_obstacles_fwd now l2 ps1' b _ Hin1) as (q' & Hq' & Hch).
  all: rewrite (hit_chain_stamped _ _ _ _ Hch Hb Hl) in Hq'.
  all: destruct (scan_obstacles now l2 ps1') as [[ps2 r2] n2].
  all: cbn [fst] in Hq'; rewrite Eps; destruct hit; exact Hq'.
Qed.

(** C1 (amended).  For one obstacle and one tracked player of the same lane
    whose hitboxes overlap, the player being neither invulnerable nor
    finished: the penalty is the obstacle's base penalty, or, when the
    streak counter (after its lazy reset) is positive,
    [int(base * (1.0 + streak * 0.3))], the float product truncated to an
    integer; the score becomes [max(0, score - penalty)]; blink and
    last-collision stamps become [now]; the streak counter grows by one;
    nothing else of the player changes.  The truncated float product is the
    integer part of the exact product, or one less where the exact product
    is a whole number and the float product falls short of it.  A player of
    another lane keeps score and stamps whatever the overlap.  The inner
    loop stops at the first player it penalises, so one obstacle penalises
    at most one player per tick; an obstacle that penalised a player is
    absent from the list after the tick, and a tick marks at most one
    removal per obstacle, one for each hit it counts.

    For the tick as a whole: without a start time it changes nothing; with
    one, the addresses stay as they are and every player is afterwards as
    before, or only lazily reset, or penalised exactly once, by an obstacle
    of the list that met the conditions above, in the way stated above;
    and a pair that meets the conditions before the tick does not survive
    it: the player is penalised in this tick, or the obstacle penalises
    another entry and is dropped. *)
Theorem update_collisions_rules :
  (forall now obs p,
     Obstacle.lane obs = Player.lane p ->
     check_collision p obs = true ->
     BLINK_DURATION <= now - Player.blink p ->
     Player.finished p = false ->
     let streak := Player.consecutive_collisions (lazy_reset now p) in
     let penalty :=
       if (0 <? streak)%Z
       then py_int (float_mul (float_of_int (Obstacle.penalty obs))
                      (float_add 1
                         (float_mul (float_of_int streak) (binary64 0.3))))
       else Obstacle.penalty obs in
     collide now obs p =
       (Player.mk (Player.name p) (Player.lane p) (Player.target_lane p)
          (py_max 0 (Player.score p - inject_Z penalty)) now
          (Player.last_heartbeat p) (Player.addr p) (Player.x p) (Player.y p)
          (Player.id p) (Player.finished p) (Player.move_progress p)
          (streak + 1)%Z now (Player.vertical_speed p) (Player.target_y p),
        true)) /\
  (forall base streak,
     (0 <= base)%Z -> (0 <= streak)%Z ->
     (base * (10 + 3 * streak) <= 10 ^ 13)%Z ->
     let exact := inject_Z base * (1 + inject_Z streak * 0.3) in
     let penalty :=
       py_int (float_mul (float_of_int base)
                 (float_add 1
                    (float_mul (float_of_int streak) (binary64 0.3)))) in
     penalty = Qfloor exact \/
     inject_Z (Qfloor exact) == exact /\ penalty = (Qfloor exact - 1)%Z) /\
  (forall now obs p,
     Obstacle.lane obs <> Player.lane p ->
     let p' := fst (collide now obs p) in
     snd (collide now obs p) = false /\
     Player.score p' = Player.score p /\
     Player.blink p' = Player.blink p /\
     Player.last_collision_time p' = Player.last_collision_time p) /\
  (forall now obs ps,
     (snd (scan_players now obs ps) = false /\
      fst (scan_players now obs ps) = dict_map (lazy_reset now) ps)
     \/
     (exists l1 a p l2,
        ps = l1 ++ (a, p) :: l2 /\
        snd (scan_players now obs ps) = true /\
        (forall kv, In kv l1 -> snd (collide now obs (snd kv)) = false) /\
        snd (collide now obs p) = true /\
        fst (scan_players now obs ps) =
          dict_map (lazy_reset now) l1 ++ (a, fst (collide now obs p)) :: l2))
  /\
  (forall now s l1 obs l2,
     truthy (start_time s) = true ->
     obstacles s = l1 ++ obs :: l2 ->
     snd (scan_players now obs
            (fst (fst (scan_obstacles now l1 (players s))))) = true ->
     ~ In obs (obstacles (update_collisions now s)) /\
     incl (obstacles (update_collisions now s)) (obstacles s)) /\
  (forall now obss ps,
     let '(_, removed, n) := scan_obstacles now obss ps in
     n = Z.of_nat (List.length removed) /\
     (List.length removed <= List.length obss)%nat /\
     forall r, In r removed -> exists obs, In obs obss /\ Obstacle.id obs = r)
  /\
  (forall now s,
     truthy (start_time s) = false -> update_collisions now s = s) /\
  (forall now s,
     truthy (start_time s) = true ->
     map fst (players (update_collisions now s)) = map fst (players s) /\
     forall a p', In (a, p') (players (update_collisions now s)) ->
       exists p,
         In (a, p) (players s) /\
         (p' = p \/ p' = lazy_reset now p \/
          exists obs,
            In obs (obstacles s) /\
            Obstacle.lane obs = Player.lane p /\
            check_collision p obs = true /\
            BLINK_DURATION <= now - Player.blink p /\
            Player.finished p = false /\
            p' = fst (collide now obs p))) /\
  (forall now s a p obs,
     truthy (start_time s) = true ->
     In (a, p) (players s) -> In obs (obstacles s) ->
     Obstacle.lane obs = Player.lane p ->
     check_collision p obs = true ->
     BLINK_DURATION <= now - Player.blink p ->
     Player.finished p = false ->
     (exists o p',
        In o (obstacles s) /\ In (a, p') (players (update_collisions now s)) /\
        snd (collide now o p) = true /\ p' = fst (collide now o p))
     \/
     (~ In obs (obstacles (update_collisions now s)) /\
      exists b q q',
        In (b, q) (players s) /\
        In (b, q') (players (update_collisions now s)) /\
        snd (collide now obs q) = true /\ q' = fst (collide now obs q))).
Proof.
  assert (Hpair : forall now obs p,
     Obstacle.lane obs = Player.lane p ->
     check_collision p obs = true ->
     BLINK_DURATION <= now - Player.blink p ->
     Player.finished p = false ->
     collide now obs p
     = (apply_hit now obs (lazy_reset now p), true)).
  { intros now obs p Hlane Hcol Hblink Hfin. unfold collide.
    apply Qltb_ge in Hblink. rewrite Hblink.
    rewrite check_collision_lazy_reset, Hcol.
    destruct (lazy_reset_cases now p) as [-> | ->];
      cbn [Player.finished Player.set_consecutive_collisions Player.lane];
      rewrite Hfin, Hlane, Z.eqb_refl; reflexivity. }
  split; [|split; [|split; [|split; [|split; [|split; [|split; [|split]]]]]]].
  - intros now obs p Hlane Hcol Hblink Hfin streak penalty.
    subst streak penalty. rewrite (Hpair now obs p Hlane Hcol Hblink Hfin).
    unfold apply_hit, hit_penalty.
    destruct (lazy_reset_cases now p) as [-> | ->]; reflexivity.
  - intros base streak Hb Hs Hk.
    exact (penalty_product_vs_exact base streak Hb Hs Hk).
  - intros now obs p Hlane p'. subst p'. unfold collide.
    assert (E : (Obstacle.lane obs =? Player.lane (lazy_reset now p))%Z = false).
    { apply Z.eqb_neq.
      destruct (lazy_reset_cases now p) as [-> | ->]; exact Hlane. }
    rewrite E, andb_false_r.
    destruct (Qltb (now - Player.blink p) BLINK_DURATION
              || Player.finished (lazy_reset now p));
      cbn [fst snd];
      destruct (lazy_reset_cases now p) as [-> | ->]; repeat split.
  - intros now obs ps.
    destruct (scan_players_first_match now obs ps)
      as [(Hh & Hf & _) | H]; [left; auto | right; exact H].
  - intros now s l1 obs l2 Ht Hobs Hhit. split.
    + eapply update_collisions_removes; eauto.
    + intros o. apply update_collisions_incl.
  - intros now obss ps. apply scan_obstacles_removed.
  - intros now s Ht. unfold update_collisions. rewrite Ht. reflexivity.
  - intros now s Ht. split.
    + rewrite (update_collisions_players now s Ht). apply scan_obstacles_keys.
    + intros a p' Hin. rewrite (update_collisions_players now s Ht) in Hin.
      destruct (scan_obstacles_In now (obstacles s) (players s) a p' Hin)
        as (p & Hp & Hch).
      exists p. split; [exact Hp|].
      destruct (hit_chain_once now (obstacles s) p p' Hch)
        as [-> | [-> | (obs & Ho & Hh & ->)]]; auto.
      right. right. exists obs.
      destruct (collide_hit_conditions now obs p Hh) as (H1 & H2 & H3 & H4).
      auto 8.
  - intros now s a p obs Ht Hp Hobs Hlane Hcol Hblink Hfin.
    apply eligible_pair_is_settled; try assumption.
    rewrite (Hpair now obs p Hlane Hcol Hblink Hfin). reflexivity.
Qed.

(** The collision rules at work: ann, on a streak of twelve, overlaps a bus
    of her lane.  The exact product 25 * 4.6 is 115; the float product is
    114.99999999999999, and she loses 114 of her 200 points. *)
Lemma update_collisions_rules_witness :
  let p :=
    Player.mk "ann" 1 1 200 8 9.5 ("10.0.0.2"%string, 5000%Z) 500 300 1 false
      1 12 8 0 300 in
  let obs := Obstacle.mk 1 300 500 5 bus 90 180 100 25 "#45B7D1" in
  collide 10 obs p =
    (Player.mk "ann" 1 1 (py_max 0 (200 - inject_Z 114)) 10 9.5
       ("10.0.0.2"%string, 5000%Z) 500 300 1 false 1 13 10 0 300, true) /\
  Qfloor (inject_Z 25 * (1 + inject_Z 12 * 0.3)) = 115%Z.
Proof.
  cbv zeta. split; [|reflexivity].
  refine (proj1 update_collisions_rules 10
            (Obstacle.mk 1 300 500 5 bus 90 180 100 25 "#45B7D1")
            (Player.mk "ann" 1 1 200 8 9.5 ("10.0.0.2"%string, 5000%Z) 500 300
               1 false 1 12 8 0 300) _ _ _ _).
  - reflexivity.
  - reflexivity.
  - vm_compute. discriminate.
  - reflexivity.
Defined.

(** ** The tick as a whole *)

Lemma exec_start_time op s s' :
  exec op s = Some s' -> is_start op = false -> start_time s' = start_time s.
Proof.
  destruct op; cbn [exec is_start]; try discriminate.
  - intros [= <-] _. unfold handle_join. destruct (dict_get _ _ _); reflexivity.
  - intros [= <-] _. unfold handle_input.
    destruct (dict_get _ _ _); [destruct (negb _)|]; reflexivity.
  - intros [= <-] _. unfold handle_heartbeat.
    destruct (dict_get _ _ _); reflexivity.
  - intros [= <-] _. unfold handle_leave. destruct (dict_mem _ _ _); reflexivity.
  - unfold update_player_movements. destruct (move_all _ _ _); [|discriminate].
    intros [= <-] _. reflexivity.
  - intros H _. apply (update_obstacles_players _ _ _ _ _ H).
  - intros [= <-] _. unfold update_collisions. destruct (negb _); [reflexivity|].
    destruct (scan_obstacles _ _ _) as [[ps removed] n]. reflexivity.
  - intros [= <-] _. reflexivity.
  - intros [= <-] _. reflexivity.
  - intros [= <-] _. reflexivity.
  - intros [= <-] _. reflexivity.
Qed.

(** X12.  From a reachable state, with a clock that has not gone back (the
    round did not start after [current_time], the previous tick was not
    after it) and a lane draw in range, one pass through the game loop
    raises nothing: the four updates (movement, obstacles, collisions,
    scores) go through in this order with a time step between 0 and 0.1 s,
    and the pass takes the [break] exactly when [check_game_end], asked
    with [current_time] on the state the scoring left, returns true.  Then
    [end_game] runs on that state; otherwise the state is broadcast and the
    timeouts are swept.  Either way the pass ends in a reachable state, so
    every invariant of reachable states holds after it, the sequence number
    has advanced by exactly one, and the running flag is cleared exactly
    when the round was stopped. *)
Theorem game_tick_total (i : TickInputs) (s : GameServer) :
  reachable s ->
  tick_prev_time i <= tick_current_time i ->
  (0 <= draw_lane (tick_draw i) <= 2)%Z ->
  match start_time s with
  | Some t0 => t0 <= tick_current_time i
  | None => True
  end ->
  let dt := py_min (tick_current_time i - tick_prev_time i) 0.1 in
  (0 <= dt /\ dt <= 0.1) /\
  exists scored s' ended,
    run [OpMove dt;
         OpObstacles (tick_current_time i) dt (tick_draw i);
         OpCollisions (tick_current_time i);
         OpScores (tick_scores_time i)] s = Some scored /\
    ended = check_game_end (tick_current_time i) scored /\
    s' = (if ended then end_game (tick_failed i) scored
          else fst (check_timeouts (tick_timeouts_time i)
                      (broadcast_state (tick_failed i) scored))) /\
    game_tick i s = Some (s', ended) /\
    reachable s' /\
    state_sequence s' = (state_sequence s + 1)%Z /\
    (ended = true -> game_running s' = false) /\
    (ended = false -> game_running s' = game_running s).
Proof.
  intros Hs Hprev Hlane Hstart dt.
  assert (Hdt : 0 <= dt /\ dt <= 0.1).
  { subst dt. split; [apply py_min_lower; lra | apply py_min_upper]. }
  split; [exact Hdt|]. fold dt in Hdt |- *.
  unfold game_tick. fold dt.
  (* movement *)
  destruct (exec_ok (OpMove dt) s (reachable_ok s Hs) (proj1 Hdt))
    as (s1 & He1 & _).
  assert (Hr1 : reachable s1)
    by (apply (reach_step s (OpMove dt)); [exact Hs | exact (proj1 Hdt) | exact He1]).
  cbn [exec] in He1. rewrite He1.
  pose proof (exec_start_time (OpMove dt) s s1 He1 eq_refl) as Est1.
  (* obstacles *)
  assert (Hop2 : op_ok s1 (OpObstacles (tick_current_time i) dt (tick_draw i))).
  { cbn [op_ok]. rewrite Est1.
    split; [exact (proj1 Hdt) | split; [exact Hlane | exact Hstart]]. }
  destruct (exec_ok _ s1 (reachable_ok s1 Hr1) Hop2) as (s2 & He2 & _).
  assert (Hr2 : reachable s2) by (eapply reach_step; eauto).
  cbn [exec] in He2. rewrite He2.
  (* collisions, scores *)
  set (s3 := update_collisions (tick_current_time i) s2).
  assert (Hr3 : reachable s3)
    by (apply (reach_step s2 (OpCollisions (tick_current_time i)));
        [exact Hr2 | exact I | reflexivity]).
  set (s4 := update_scores (tick_scores_time i) s3).
  assert (Hr4 : reachable s4)
    by (apply (reach_step s3 (OpScores (tick_scores_time i)));
        [exact Hr3 | exact I | reflexivity]).
  assert (Eseq : state_sequence s4 = state_sequence s).
  { subst s4 s3. unfold update_scores, update_collisions.
    destruct (negb _).
    - cbn. destruct (update_obstacles_players _ _ _ _ _ He2) as (_&_&_&_& ->).
      unfold update_player_movements in He1.
      destruct (move_all _ _ _); [|discriminate]. injection He1 as <-.
      reflexivity.
    - destruct (scan_obstacles _ _ _) as [[ps removed] n]. cbn.
      destruct (update_obstacles_players _ _ _ _ _ He2) as (_&_&_&_& ->).
      unfold update_player_movements in He1.
      destruct (move_all _ _ _); [|discriminate]. injection He1 as <-.
      reflexivity. }
  assert (Erun : game_running s4 = game_running s).
  { subst s4 s3. unfold update_scores, update_collisions.
    destruct (negb _).
    - cbn. destruct (update_obstacles_players _ _ _ _ _ He2) as (_&_& -> &_).
      unfold update_player_movements in He1.
      destruct (move_all _ _ _); [|discriminate]. injection He1 as <-.
      reflexivity.
    - destruct (scan_obstacles _ _ _) as [[ps removed] n]. cbn.
      destruct (update_obstacles_players _ _ _ _ _ He2) as (_&_& -> &_).
      unfold update_player_movements in He1.
      destruct (move_all _ _ _); [|discriminate]. injection He1 as <-.
      reflexivity. }
  assert (Hrun4 : run [OpMove dt;
                       OpObstacles (tick_current_time i) dt (tick_draw i);
                       OpCollisions (tick_current_time i);
                       OpScores (tick_scores_time i)] s = Some s4).
  { cbn [run exec]. rewrite He1, He2. reflexivity. }
  exists s4.
  destruct (check_game_end (tick_current_time i) s4) eqn:Eend.
  - exists (end_game (tick_failed i) s4), true.
    split; [exact Hrun4|]. split; [reflexivity|]. split; [reflexivity|].
    split; [reflexivity|]. split.
    + apply (reach_step s4 (OpEnd (tick_failed i)));
        [exact Hr4 | exact I | reflexivity].
    + split; [change (state_sequence s4 + 1 = state_sequence s + 1)%Z;
              rewrite Eseq; reflexivity|].
      split; [reflexivity | discriminate].
  - eexists _, false.
    split; [exact Hrun4|]. split; [reflexivity|]. split; [reflexivity|].
    split; [reflexivity|]. split.
    + apply (reach_step (broadcast_state (tick_failed i) s4)
               (OpTimeouts (tick_timeouts_time i))); [|exact I | reflexivity].
      apply (reach_step s4 (OpBroadcast (tick_failed i)));
        [exact Hr4 | exact I | reflexivity].
    + split; [change (state_sequence s4 + 1 = state_sequence s + 1)%Z;
              rewrite Eseq; reflexivity|].
      split; [discriminate | intros _; exact Erun].
Qed.

(** X12 on the crash session: the tick of time 105.05, a twentieth of a
    second after the crash tick, goes through; the end check says no and
    the round goes on. *)
Lemma game_tick_total_witness :
  match game_tick (mkTick 105 105.05 (mkDraw 1 0 bike) 105.05 [] 105.05)
          crash_state with
  | Some (s', ended) =>
      ended = false /\ state_sequence s' = 1%Z /\ game_running s' = true
  | None => False
  end.
Proof.
  destruct (game_tick_total (mkTick 105 105.05 (mkDraw 1 0 bike) 105.05 [] 105.05)
              crash_state crash_state_reachable)
    as (_ & scored & s' & ended & _ & _ & _ & He & _ & Hseq & _ & Hrun).
  - vm_compute. discriminate.
  - cbn. lia.
  - vm_compute. discriminate.
  - rewrite He.
    assert (Ee : ended = false).
    { vm_compute in He. injection He as _ <-. reflexivity. }
    split; [exact Ee|]. split; [exact Hseq | rewrite (Hrun Ee); reflexivity].
Defined.

(** * Further properties of the client, and of client and server together *)

(** ** Dictionaries keyed by player id *)

Section ZDictFacts.
Context {V : Type}.
Implicit Types (d : list (Z * V)) (k j : Z) (v : V).

Lemma zdict_get_set_same k v d : dict_get Z.eqb k (dict_set Z.eqb k v d) = Some v.
Proof.
  induction d as [|[i u] rest IH]; cbn [dict_set dict_get].
  - rewrite Z.eqb_refl. reflexivity.
  - destruct (k =? i)%Z eqn:E; cbn [dict_get]; rewrite E; auto.
Qed.

Lemma zdict_get_set_other k j v d :
  j <> k -> dict_get Z.eqb j (dict_set Z.eqb k v d) = dict_get Z.eqb j d.
Proof.
  intros Hne. assert (Hjk : (j =? k)%Z = false) by (apply Z.eqb_neq; exact Hne).
  induction d as [|[i u] rest IH]; cbn [dict_set dict_get].
  - rewrite Hjk. reflexivity.
  - destruct (k =? i)%Z eqn:E; cbn [dict_get].
    + apply Z.eqb_eq in E. subst i. rewrite Hjk. reflexivity.
    + rewrite IH. reflexivity.
Qed.

Lemma zdict_set_keys k v d :
  map fst (dict_set Z.eqb k v d) =
  if dict_mem Z.eqb k d then map fst d else map fst d ++ [k].
Proof.
  unfold dict_mem.
  induction d as [|[i u] rest IH]; cbn [dict_set dict_get map fst app];
    [reflexivity|].
  destruct (k =? i)%Z eqn:E; [reflexivity|].
  cbn [map fst]. rewrite IH.
  destruct (dict_get Z.eqb k rest); reflexivity.
Qed.

Lemma zdict_mem_In k d : dict_mem Z.eqb k d = true <-> In k (map fst d).
Proof.
  unfold dict_mem.
  induction d as [|[i u] rest IH]; cbn [dict_get map fst].
  - split; [discriminate | intros []].
  - destruct (k =? i)%Z eqn:E.
    + apply Z.eqb_eq in E. subst i. split; [left; reflexivity | reflexivity].
    + apply Z.eqb_neq in E. rewrite IH. split; [right; assumption|].
      intros [H | H]; [congruence | exact H].
Qed.

Lemma zdict_set_NoDup k v d :
  NoDup (map fst d) -> NoDup (map fst (dict_set Z.eqb k v d)).
Proof.
  intros Hn. rewrite zdict_set_keys.
  destruct (dict_mem Z.eqb k d) eqn:E; [exact Hn|].
  apply NoDup_app; [exact Hn | repeat constructor; intros [] |].
  intros j Hj [<- | []].
  apply zdict_mem_In in Hj. congruence.
Qed.
End ZDictFacts.

(** ** A broadcast as the client takes it *)

Lemma update_players_fold entries :
  forall c,
    Client.update_players (map received_entry entries) c
    = (fold_left apply_entry entries c, true).
Proof.
  induction entries as [|e rest IH]; intros c; cbn [map fold_left];
    [reflexivity|].
  cbn [Client.update_players received_entry Client.info_id Client.info_x
       Client.info_y Client.info_name Client.info_score Client.info_finished
       Client.get_default].
  rewrite IH. reflexivity.
Qed.

Lemma fold_apply_other entries :
  forall c k,
    ~ In k (map pe_id entries) ->
    dict_get Z.eqb k (Client.targets (fold_left apply_entry entries c))
      = dict_get Z.eqb k (Client.targets c) /\
    dict_get Z.eqb k (Client.player_scores (fold_left apply_entry entries c))
      = dict_get Z.eqb k (Client.player_scores c) /\
    dict_get Z.eqb k (Client.interp (fold_left apply_entry entries c))
      = dict_get Z.eqb k (Client.interp c).
Proof.
  induction entries as [|e rest IH]; intros c k Hk; cbn [fold_left];
    [repeat split|].
  cbn [map] in Hk.
  assert (Hne : k <> pe_id e) by (intros ->; apply Hk; left; reflexivity).
  destruct (IH (apply_entry c e) k) as (H1 & H2 & H3);
    [intros Hin; apply Hk; right; exact Hin|].
  rewrite H1, H2, H3. unfold apply_entry.
  cbn [Client.targets Client.player_scores Client.interp].
  rewrite !zdict_get_set_other by exact Hne.
  destruct (dict_mem Z.eqb (pe_id e) (Client.interp c));
    [|rewrite zdict_get_set_other by exact Hne]; repeat split.
Qed.

Lemma fold_apply_fields entries :
  forall c,
    let c' := fold_left apply_entry entries c in
    Client.last_seq c' = Client.last_seq c /\
    Client.game_running c' = Client.game_running c /\
    Client.game_time_left c' = Client.game_time_left c /\
    Client.current_obstacles c' = Client.current_obstacles c /\
    Client.player_id c' = Client.player_id c /\
    Client.join_confirmed c' = Client.join_confirmed c.
Proof.
  induction entries as [|e rest IH]; intros c; cbn [fold_left];
    [repeat split|].
  destruct (IH (apply_entry c e)) as (H1 & H2 & H3 & H4 & H5 & H6).
  cbv zeta. rewrite H1, H2, H3, H4, H5, H6. repeat split.
Qed.

Lemma fold_apply_interp_mem entries :
  forall c k,
    dict_mem Z.eqb k (Client.interp c) = true ->
    dict_get Z.eqb k (Client.interp (fold_left apply_entry entries c))
      = dict_get Z.eqb k (Client.interp c).
Proof.
  induction entries as [|e rest IH]; intros c k Hk; cbn [fold_left];
    [reflexivity|].
  assert (Hstep : dict_get Z.eqb k (Client.interp (apply_entry c e))
                  = dict_get Z.eqb k (Client.interp c)).
  { unfold apply_entry. cbn [Client.interp].
    destruct (dict_mem Z.eqb (pe_id e) (Client.interp c)) eqn:Em;
      [reflexivity|].
    apply zdict_get_set_other. intros ->. congruence. }
  rewrite IH; [exact Hstep|].
  unfold dict_mem in *. rewrite Hstep. exact Hk.
Qed.

Lemma fold_apply_entry entries :
  forall c e,
    NoDup (map pe_id entries) -> In e entries ->
    let c' := fold_left apply_entry entries c in
    dict_get Z.eqb (pe_id e) (Client.targets c')
      = Some (Client.mkTarget (pe_x e) (pe_y e) (pe_name e)) /\
    dict_get Z.eqb (pe_id e) (Client.player_scores c')
      = Some (Client.mkScore (pe_name e) (pe_score e) (pe_finished e)) /\
    dict_get Z.eqb (pe_id e) (Client.interp c')
      = match dict_get Z.eqb (pe_id e) (Client.interp c) with
        | Some ip => Some ip
        | None => Some (pe_x e, pe_y e)
        end.
Proof.
  induction entries as [|e0 rest IH]; intros c e Hn Hin; [destruct Hin|].
  cbn [map] in Hn. inversion Hn as [|? ? Hnotin Hn']; subst.
  cbn [fold_left]. destruct Hin as [-> | Hin].
  - destruct (fold_apply_other rest (apply_entry c e) (pe_id e) Hnotin)
      as (H1 & H2 & H3).
    cbv zeta. rewrite H1, H2, H3. unfold apply_entry.
    cbn [Client.targets Client.player_scores Client.interp].
    rewrite !zdict_get_set_same. split; [reflexivity|]. split; [reflexivity|].
    unfold dict_mem.
    destruct (dict_get Z.eqb (pe_id e) (Client.interp c)) eqn:E;
      [exact E | apply zdict_get_set_same].
  - destruct (IH (apply_entry c e0) e Hn' Hin) as (H1 & H2 & H3).
    cbv zeta. rewrite H1, H2, H3. split; [reflexivity|]. split; [reflexivity|].
    assert (Hne : pe_id e <> pe_id e0).
    { intros E. apply Hnotin. rewrite <- E. apply in_map. exact Hin. }
    unfold apply_entry. cbn [Client.interp].
    destruct (dict_mem Z.eqb (pe_id e0) (Client.interp c));
      [|rewrite zdict_get_set_other by exact Hne]; reflexivity.
Qed.

(** X13.  A state broadcast of a reachable server, taken by a client that
    has not yet seen its sequence number, is applied without an exception:
    the client then holds the server's sequence number and running flag, a
    time left that is not negative, for every tracked player its position
    and name as target and its rounded score and finished flag on the
    scoreboard, a rendered position for it (the old one, or the target if
    it is new), and the server's obstacles.  It forgets nobody: an id that
    is no longer tracked keeps its last target and score. *)
Theorem broadcast_reaches_client (now : Q) (s : GameServer) (c : Client.t) :
  reachable s ->
  (Client.last_seq c < state_sequence s + 1)%Z ->
  exists c',
    Client.on_state (received_state (state_message now s)) c
      = (c', Client.Applied) /\
    Client.last_seq c' = (state_sequence s + 1)%Z /\
    Client.game_running c' = game_running s /\
    0 <= Client.game_time_left c' /\
    (forall a p, In (a, p) (players s) ->
       dict_get Z.eqb (Player.id p) (Client.targets c')
         = Some (Client.mkTarget (Player.x p) (Player.y p) (Player.name p)) /\
       dict_get Z.eqb (Player.id p) (Client.player_scores c')
         = Some (Client.mkScore (Player.name p) (py_round (Player.score p))
                   (Player.finished p)) /\
       dict_get Z.eqb (Player.id p) (Client.interp c')
         = match dict_get Z.eqb (Player.id p) (Client.interp c) with
           | Some ip => Some ip
           | None => Some (Player.x p, Player.y p)
           end) /\
    (forall k, ~ In k (ids (players s)) ->
       dict_get Z.eqb k (Client.targets c') = dict_get Z.eqb k (Client.targets c)
       /\ dict_get Z.eqb k (Client.player_scores c')
          = dict_get Z.eqb k (Client.player_scores c)) /\
    Client.current_obstacles c' =
      map (fun obs =>
             Client.mkObsData (Obstacle.x obs) (Obstacle.y obs)
               (type_name (Obstacle.type obs)) (Obstacle.lane obs)
               (Obstacle.id obs) (Some (Obstacle.color obs)))
        (obstacles s) /\
    Client.player_id c' = Client.player_id c /\
    Client.join_confirmed c' = Client.join_confirmed c.
Proof.
  intros Hs Hseq.
  destruct (reachable_ids_ok s Hs) as [Hnd _].
  set (entries := map player_entry (dict_values (players s))).
  assert (Hids : map pe_id entries = ids (players s)).
  { subst entries. unfold ids, dict_values. rewrite !map_map. reflexivity. }
  unfold Client.on_state, received_state, state_message.
  cbn [Client.seq st_seq Client.msg_game_running Client.msg_time_left
       Client.msg_players Client.msg_obstacles st_game_running st_time_left
       st_players st_obstacles Client.get_default].
  assert (E : (state_sequence s + 1 <=? Client.last_seq c)%Z = false)
    by (apply Z.leb_gt; exact Hseq).
  rewrite E. fold entries.
  change (map (fun e => Client.mkInfo (Some (pe_id e)) (Some (pe_x e))
                          (Some (pe_y e)) (Some (pe_name e))
                          (Some (pe_score e)) (Some (pe_finished e))) entries)
    with (map received_entry entries).
  rewrite update_players_fold.
  match goal with
  | |- context [fold_left apply_entry entries ?c0] => set (c1 := c0)
  end.
  destruct (fold_apply_fields entries c1) as (F1 & F2 & F3 & F4 & F5 & F6).
  cbv zeta in F1, F2, F3, F4, F5, F6.
  eexists. split; [reflexivity|].
  cbn [Client.last_seq Client.game_running Client.game_time_left
       Client.targets Client.player_scores Client.interp
       Client.current_obstacles Client.player_id Client.join_confirmed].
  rewrite F1, F2, F3, F5, F6. subst c1.
  cbn [Client.last_seq Client.game_running Client.game_time_left
       Client.player_id Client.join_confirmed].
  split; [reflexivity|]. split; [reflexivity|].
  split; [apply py_max_lower|].
  split.
  { intros a p Hin.
    assert (Hine : In (player_entry p) entries).
    { subst entries. apply in_map. unfold dict_values.
      apply in_map_iff. exists (a, p). auto. }
    rewrite <- Hids in Hnd.
    match goal with
    | |- context [fold_left apply_entry entries ?c0] =>
        destruct (fold_apply_entry entries c0 (player_entry p) Hnd Hine)
          as (H1 & H2 & H3)
    end.
    cbv zeta in H1, H2, H3. cbn [pe_id pe_x pe_y pe_name pe_score pe_finished
                                   player_entry Client.interp] in H1, H2, H3.
    auto. }
  split.
  { intros k Hk. rewrite <- Hids in Hk.
    match goal with
    | |- context [fold_left apply_entry entries ?c0] =>
        destruct (fold_apply_other entries c0 k Hk) as (H1 & H2 & _)
    end.
    rewrite H1, H2. split; reflexivity. }
  split; [|split; reflexivity].
  rewrite !map_map. reflexivity.
Qed.

(** X13 on the state after the crash: a fresh client takes the broadcast
    and aims ann's car at (500, 300). *)
Lemma broadcast_reaches_client_witness :
  match Client.on_state (received_state (state_message 106 after_crash))
          Client.init with
  | (c', out) =>
      out = Client.Applied /\
      Client.last_seq c' = 1%Z /\
      dict_get Z.eqb 1%Z (Client.targets c')
        = Some (Client.mkTarget 500 300 "ann")
  end.
Proof.
  destruct (broadcast_reaches_client 106 after_crash Client.init
              after_crash_reachable)
    as (c' & -> & Hseq & _ & _ & Hplayers & _); [reflexivity|].
  split; [reflexivity|]. split; [exact Hseq|].
  destruct (dict_get addr_eqb ann (players after_crash)) as [p|] eqn:E;
    [|vm_compute in E; discriminate E].
  destruct (Hplayers ann p (dict_get_In _ _ _ E)) as (Ht & _).
  vm_compute in E. injection E as <-. exact Ht.
Defined.

(** X14.  The sequence counter restarts at 0 with every round while the
    client keeps the highest number it has seen: a client that has seen
    number [k] drops every broadcast of a server whose counter is below
    [k], in particular the first [k] broadcasts of the next round, state
    untouched. *)
Theorem next_round_broadcasts_dropped (s : GameServer) (c : Client.t) :
  (forall now, state_sequence (set_game_running true (reset_game now s)) = 0%Z)
  /\
  (forall failed, state_sequence (broadcast_state failed s)
                  = (state_sequence s + 1)%Z) /\
  (forall now, st_seq (state_message now s) = (state_sequence s + 1)%Z) /\
  (forall now,
     (state_sequence s < Client.last_seq c)%Z ->
     Client.on_state (received_state (state_message now s)) c
       = (c, Client.Discarded)).
Proof.
  split; [|split; [|split]]; try reflexivity.
  intros now Hlt. unfold Client.on_state, received_state, state_message.
  cbn [Client.seq st_seq].
  assert (E : (state_sequence s + 1 <=? Client.last_seq c)%Z = true)
    by (apply Z.leb_le; lia).
  rewrite E. reflexivity.
Qed.

(** X14 for a client that saw the broadcast after the crash: the first
    broadcast of the round opened at 120 is dropped. *)
Lemma next_round_broadcasts_dropped_witness :
  let c := fst (Client.on_state
                  (received_state (state_message 106 after_crash))
                  Client.init) in
  let s := set_game_running true (reset_game 120 after_crash) in
  Client.on_state (received_state (state_message 120.1 s)) c
    = (c, Client.Discarded).
Proof.
  cbv zeta.
  apply (proj2 (proj2 (proj2 (next_round_broadcasts_dropped _ _)))).
  vm_compute. reflexivity.
Defined.

(** ** The join handshake *)

Lemma reachable_ids_pos s :
  reachable s -> forall i, In i (ids (players s)) -> (1 <= i)%Z.
Proof.
  induction 1 as [|s op s' Hs IH _ He]; [intros i []|].
  intros i Hi. destruct (exec_ids op s s' He) as [[_ Hd] | [_ Ei]].
  - apply IH. eapply dropped_In; eauto.
  - rewrite Ei in Hi. apply in_app_iff in Hi.
    destruct Hi as [Hi | [<- | []]]; [auto | apply next_player_id_pos; exact Hs].
Qed.

Lemma update_players_join infos :
  forall c,
    Client.join_confirmed (fst (Client.update_players infos c))
      = Client.join_confirmed c /\
    Client.player_id (fst (Client.update_players infos c))
      = Client.player_id c.
Proof.
  induction infos as [|info rest IH]; intros c; cbn [Client.update_players];
    [split; reflexivity|].
  destruct (Client.info_id info), (Client.info_x info), (Client.info_y info);
    try (split; reflexivity).
  destruct (IH (Client.mk (Client.last_seq c) (Client.game_running c)
                  (Client.game_time_left c)
                  (dict_set Z.eqb z
                     (Client.mkTarget q q0
                        (Client.get_default (Client.info_name info)
                           (Client.default_player_name z)))
                     (Client.targets c))
                  (if dict_mem Z.eqb z (Client.interp c) then Client.interp c
                   else dict_set Z.eqb z (q, q0) (Client.interp c))
                  (dict_set Z.eqb z
                     (Client.mkScore
                        (Client.get_default (Client.info_name info)
                           (Client.default_player_name z))
                        (Client.get_default (Client.info_score info) 0%Z)
                        (Client.get_default (Client.info_finished info) false))
                     (Client.player_scores c))
                  (Client.current_obstacles c) (Client.player_id c)
                  (Client.join_confirmed c))) as [H1 H2].
  split; [exact H1 | exact H2].
Qed.

Lemma on_state_join p c :
  Client.join_confirmed (fst (Client.on_state p c)) = Client.join_confirmed c /\
  Client.player_id (fst (Client.on_state p c)) = Client.player_id c.
Proof.
  unfold Client.on_state.
  destruct (match Client.seq p with
            | Some n => (n <=? Client.last_seq c)%Z
            | None => false
            end); [split; reflexivity|].
  match goal with
  | |- context [Client.update_players ?l ?c1] =>
      destruct (update_players_join l c1) as [H1 H2];
      destruct (Client.update_players l c1) as [c2 ok]
  end.
  cbn [fst] in H1, H2. destruct ok; cbn [fst]; split; assumption.
Qed.

(** Once confirmed, always confirmed. *)
Lemma receive_all_confirmed dgs :
  forall c, Client.join_confirmed c = true ->
            Client.join_confirmed (fst (receive_all dgs c)) = true.
Proof.
  induction dgs as [|dg rest IH]; intros c Hc; cbn [receive_all];
    [exact Hc|].
  destruct dg as [pid | p | |].
  - apply IH. destruct pid; [reflexivity | exact Hc].
  - destruct (on_state_join p c) as [H1 _].
    destruct (Client.on_state p c) as [c' out]. cbn [fst] in H1.
    assert (Hc' : Client.join_confirmed c' = true) by congruence.
    destruct out; [apply IH | apply IH | ]; exact Hc'.
  - apply IH. exact Hc.
  - apply IH. exact Hc.
Qed.

(** X15.  The handshake from end to end: the server answers a join from a
    reachable state with exactly one acknowledgement, addressed to the
    sender, carrying the positive id of the player it now tracks under that
    address; a client that receives it records this id and is confirmed; a
    confirmed client sends no further join, and nothing it receives later
    takes the confirmation back. *)
Theorem join_handshake (n : option string) (a : Addr) (now : Q)
    (s : GameServer) (c : Client.t) :
  reachable s ->
  exists i p,
    snd (handle_join n a now s)
      = [(join_ack i BLINK_DURATION COLLISION_COOLDOWN, a)] /\
    (1 <= i)%Z /\
    dict_get addr_eqb a (players (fst (handle_join n a now s))) = Some p /\
    Player.id p = i /\
    let c' :=
      fst (receive_all
             (map (fun m => received_reply (fst m))
                (snd (handle_join n a now s))) c) in
    Client.player_id c' = Some i /\
    Client.join_confirmed c' = true /\
    (forall t io, retry_join t (Client.join_confirmed c') io = (io, [])) /\
    (forall dgs, Client.join_confirmed (fst (receive_all dgs c')) = true).
Proof.
  intros Hs.
  assert (Hclient : forall i,
            let c' := fst (receive_all [dg_join_ack (Some i)] c) in
            Client.player_id c' = Some i /\
            Client.join_confirmed c' = true /\
            (forall t io, retry_join t (Client.join_confirmed c') io = (io, []))
            /\ (forall dgs, Client.join_confirmed (fst (receive_all dgs c')) = true)).
  { intros i. cbn [receive_all on_join_ack fst Client.player_id
                     Client.join_confirmed].
    split; [reflexivity|]. split; [reflexivity|]. split; [reflexivity|].
    intros dgs. apply receive_all_confirmed. reflexivity. }
  unfold handle_join.
  destruct (dict_get addr_eqb a (players s)) as [p|] eqn:Eg;
    cbn [fst snd players set_players set_next_player_id next_player_id].
  - eexists _, _. split; [reflexivity|]. split.
    + apply (reachable_ids_pos s Hs). unfold ids. apply in_map_iff.
      exists (a, p). split; [reflexivity | apply dict_get_In; exact Eg].
    + split; [apply dict_get_set_same|]. split; [reflexivity|].
      apply Hclient.
  - eexists _, _. split; [reflexivity|]. split.
    + apply next_player_id_pos. exact Hs.
    + split; [apply dict_get_set_same|]. split; [reflexivity|].
      apply Hclient.
Qed.

(** X15 on a fresh server and a fresh client: ann is told she is player
    1. *)
Lemma join_handshake_witness :
  let c' :=
    fst (receive_all
           (map (fun m => received_reply (fst m))
              (snd (handle_join (Some "ann"%string) ann 98 init_server)))
           Client.init) in
  Client.player_id c' = Some 1%Z /\ Client.join_confirmed c' = true.
Proof.
  cbv zeta.
  destruct (join_handshake (Some "ann"%string) ann 98 init_server Client.init
              reach_init) as (i & p & Hack & _ & _ & _ & Hid & Hconf & _).
  assert (Ei : i = 1%Z) by (vm_compute in Hack; congruence).
  subst i. split; [exact Hid | exact Hconf].
Defined.

(** ** Interpolation *)

Lemma zdict_get_In {V : Type} k (d : list (Z * V)) v :
  dict_get Z.eqb k d = Some v -> In (k, v) d.
Proof.
  induction d as [|[i u] rest IH]; cbn [dict_get]; [discriminate|].
  destruct (k =? i)%Z eqn:E.
  - apply Z.eqb_eq in E. intros [= ->]. subst. left. reflexivity.
  - intros H. right. auto.
Qed.

Lemma fold_interpolate_other tg :
  forall interp k,
    ~ In k (map fst tg) ->
    dict_get Z.eqb k
      (fold_left (fun i kv => interpolate_one kv i) tg interp)
    = dict_get Z.eqb k interp.
Proof.
  induction tg as [|[j t] rest IH]; intros interp k Hk; cbn [fold_left];
    [reflexivity|].
  cbn [map fst] in Hk. rewrite IH by (intros H; apply Hk; right; exact H).
  unfold interpolate_one. apply zdict_get_set_other.
  intros ->. apply Hk. left. reflexivity.
Qed.

Lemma fold_interpolate_one tg :
  forall interp k t,
    NoDup (map fst tg) -> In (k, t) tg ->
    dict_get Z.eqb k
      (fold_left (fun i kv => interpolate_one kv i) tg interp)
    = let ip :=
        match dict_get Z.eqb k interp with
        | Some ip => ip
        | None => (Client.target_x t, Client.target_y t)
        end in
      Some (smooth (Client.target_x t) (fst ip),
            smooth (Client.target_y t) (snd ip)).
Proof.
  induction tg as [|[j u] rest IH]; intros interp k t Hn Hin; [destruct Hin|].
  cbn [map fst] in Hn. inversion Hn as [|? ? Hnotin Hn']; subst.
  cbn [fold_left]. destruct Hin as [[= -> ->] | Hin].
  - rewrite fold_interpolate_other by exact Hnotin.
    unfold interpolate_one. apply zdict_get_set_same.
  - rewrite (IH _ k t Hn' Hin). cbv zeta.
    assert (Hne : k <> j).
    { intros ->. apply Hnotin. apply in_map_iff. exists (j, t). auto. }
    unfold interpolate_one. rewrite zdict_get_set_other by exact Hne.
    reflexivity.
Qed.

Lemma frames_targets n c : Client.targets (frames n c) = Client.targets c.
Proof. induction n as [|n IH]; cbn [frames]; [reflexivity | exact IH]. Qed.

Lemma Qpower_07_succ (n : nat) :
  0.7 ^ Z.of_nat (S n) == 0.7 * 0.7 ^ Z.of_nat n.
Proof.
  rewrite Nat2Z.inj_succ. unfold Z.succ.
  rewrite Qpower_plus by (intros H; discriminate H).
  rewrite Qpower_1_r. ring.
Qed.

Lemma interpolate_step c pid t :
  NoDup (map fst (Client.targets c)) ->
  dict_get Z.eqb pid (Client.targets c) = Some t ->
  dict_get Z.eqb pid (Client.interp (interpolate c))
  = let ip :=
      match dict_get Z.eqb pid (Client.interp c) with
      | Some ip => ip
      | None => (Client.target_x t, Client.target_y t)
      end in
    Some (smooth (Client.target_x t) (fst ip),
          smooth (Client.target_y t) (snd ip)).
Proof.
  intros Hn Hg. unfold interpolate. cbn [Client.interp].
  apply fold_interpolate_one; [exact Hn | apply zdict_get_In; exact Hg].
Qed.

(** X16.  Rendering frames close the gap to the target geometrically: with
    the targets unchanged (no datagram in between), after [n + 1] frames the
    rendered position of every targeted player exists and its distance to
    the target, in x and in y, is [0.7 ^ (n + 1)] times the distance it
    started from (a player not rendered before starts on its target); the
    targets themselves are not touched. *)
Theorem interpolation_converges (c : Client.t) (n : nat) (pid : Z)
    (t : Client.Target) :
  NoDup (map fst (Client.targets c)) ->
  dict_get Z.eqb pid (Client.targets c) = Some t ->
  let start :=
    match dict_get Z.eqb pid (Client.interp c) with
    | Some ip => ip
    | None => (Client.target_x t, Client.target_y t)
    end in
  Client.targets (frames (S n) c) = Client.targets c /\
  exists x y,
    dict_get Z.eqb pid (Client.interp (frames (S n) c)) = Some (x, y) /\
    Client.target_x t - x
      == 0.7 ^ Z.of_nat (S n) * (Client.target_x t - fst start) /\
    Client.target_y t - y
      == 0.7 ^ Z.of_nat (S n) * (Client.target_y t - snd start).
Proof.
  intros Hn Hg start. split; [apply frames_targets|].
  induction n as [|n IH].
  - cbn [frames]. rewrite (interpolate_step c pid t Hn Hg). cbv zeta.
    fold start. eexists _, _. split; [reflexivity|]. unfold smooth.
    change (0.7 ^ Z.of_nat 1) with 0.7. split; ring.
  - destruct IH as (x & y & Hxy & Hx & Hy).
    change (frames (S (S n)) c) with (interpolate (frames (S n) c)).
    assert (Hn1 : NoDup (map fst (Client.targets (frames (S n) c))))
      by (rewrite frames_targets; exact Hn).
    assert (Hg1 : dict_get Z.eqb pid (Client.targets (frames (S n) c)) = Some t)
      by (rewrite frames_targets; exact Hg).
    rewrite (interpolate_step _ pid t Hn1 Hg1). cbv zeta.
    rewrite Hxy. cbn [fst snd].
    eexists _, _. split; [reflexivity|]. unfold smooth.
    rewrite (Qpower_07_succ (S n)).
    split.
    + setoid_replace (Client.target_x t - (x + (Client.target_x t - x) * 0.3))
        with (0.7 * (Client.target_x t - x)) by ring.
      rewrite Hx. ring.
    + setoid_replace (Client.target_y t - (y + (Client.target_y t - y) * 0.3))
        with (0.7 * (Client.target_y t - y)) by ring.
      rewrite Hy. ring.
Qed.

(** X16 on the client that took the broadcast after the crash: two frames
    later ann's target is still (500, 300) and her rendered position is
    within 0.49 of the initial gap. *)
Lemma interpolation_converges_witness :
  Client.targets (frames 2 seen_client) = Client.targets seen_client /\
  exists x y,
    dict_get Z.eqb 1%Z (Client.interp (frames 2 seen_client)) = Some (x, y) /\
    500 - x == 0.7 ^ 2 * (500 - fst
      match dict_get Z.eqb 1%Z (Client.interp seen_client) with
      | Some ip => ip
      | None => (500, 300)
      end).
Proof.
  destruct (interpolation_converges seen_client 1 1%Z
              (Client.mkTarget 500 300 "ann"))
    as (Ht & x & y & Hg & Hx & _).
  - vm_compute. repeat constructor. intros [].
  - reflexivity.
  - split; [exact Ht|]. exists x, y. split; [exact Hg | exact Hx].
Defined.


(** ** The easing curve and the road *)

Lemma Qsq_nonneg (a : Q) : 0 <= a * a.
Proof. destruct a as [n d]. unfold Qle. cbn. nia. Qed.

Lemma ease_form x :
  ease_out_back x == 1 + 1.70158 * ((1 - x) * (1 - x)) * (1 - 1.525 * (1 - x)).
Proof. unfold ease_out_back. cbv zeta. ring. Qed.

Lemma ease_upper_id u :
  (6400 # 100467) - u * u * (1 - 1.525 * u)
  == 1.525 * ((u - (80 # 183)) * (u - (80 # 183))) * (u + (40 # 183)).
Proof. ring. Qed.

Lemma ease_out_back_bounds x :
  0 <= x -> x <= 1 -> 0.1 <= ease_out_back x /\ ease_out_back x <= 1.11.
Proof.
  intros H0 H1. rewrite ease_form.
  set (u := 1 - x). assert (Hu0 : 0 <= u) by (unfold u; lra).
  assert (Hu1 : u <= 1) by (unfold u; lra).
  assert (Hsq : 0 <= u * u) by apply Qsq_nonneg.
  split.
  - assert (Hp : 0 <= u * u * (1 - u))
      by (apply Qmult_le_0_compat; [exact Hsq | lra]).
    assert (Hq : 0 <= (1 - u) * (1 + u))
      by (apply Qmult_le_0_compat; lra).
    lra.
  - pose proof (ease_upper_id u) as Hid.
    assert (Hnn : 0 <= (u - (80 # 183)) * (u - (80 # 183)))
      by apply Qsq_nonneg.
    assert (Hp : 0 <= (u - (80 # 183)) * (u - (80 # 183)) * (u + (40 # 183))).
    { apply Qmult_le_0_compat; [exact Hnn | lra]. }
    lra.
Qed.

Lemma lane_x_values i c :
  (0 <= i <= 2)%Z -> lane_x i = Some c ->
  i = 0%Z /\ c = 300 \/ i = 1%Z /\ c = 500 \/ i = 2%Z /\ c = 700.
Proof.
  intros Hi Hc.
  assert (H : i = 0%Z \/ i = 1%Z \/ i = 2%Z) by lia.
  destruct H as [-> | [-> | ->]]; vm_compute in Hc; injection Hc as <-; auto.
Qed.

Lemma collide_x now obs p : Player.x (fst (collide now obs p)) = Player.x p.
Proof.
  assert (Hr : Player.x (lazy_reset now p) = Player.x p)
    by (destruct (lazy_reset_cases now p) as [-> | ->]; reflexivity).
  unfold collide. destruct (_ || _); [exact Hr|].
  destruct (_ && _); exact Hr.
Qed.

Lemma hit_chain_x now obss p q : hit_chain now obss p q -> Player.x q = Player.x p.
Proof.
  induction 1 as [p | obs rest p q _ IH | obs rest p q _ IH]; auto.
  rewrite IH. apply collide_x.
Qed.

Lemma score_player_x gp now p : Player.x (score_player gp now p) = Player.x p.
Proof. unfold score_player. split_ifs; reflexivity. Qed.

Lemma move_player_on_road gp dt p p' :
  move_player gp dt p = Some p' ->
  player_ok p -> player_ok p' -> settled_ok p -> on_road p -> on_road p'.
Proof.
  intros Hm (Hl & Ht & _ & _ & Hy) (_ & _ & (Hmp0 & _) & _) (Hadj & _) Hr.
  destruct (lane_x_in_range _ Hl) as (sx & Hsx).
  destruct (lane_x_in_range _ Ht) as (tx & Htx).
  destruct (move_player_spec gp dt p sx tx Hsx Htx Hy)
    as (q & Hq & Hlt & Hge & _).
  rewrite Hm in Hq. injection Hq as <-.
  destruct (Qlt_le_dec (Player.move_progress p) 1) as [Hp | Hp].
  - specialize (Hlt Hp). cbv zeta in Hlt. destruct Hlt as [Ha Hb].
    match type of Ha with
    | ?u < 1 -> _ => destruct (Qlt_le_dec u 1) as [Hu | Hu]
    end.
    + destruct (Ha Hu) as (Emp & _ & Ex). rewrite Emp in Hmp0.
      match type of Ex with
      | _ = _ + _ * ease_out_back ?u =>
          destruct (ease_out_back_bounds u Hmp0 (Qlt_le_weak _ _ Hu))
            as [He0 He1];
          set (e := ease_out_back u) in *
      end.
      unfold on_road. rewrite Ex.
      destruct (lane_x_values _ _ Hl Hsx) as [[El ->] | [[El ->] | [El ->]]];
        destruct (lane_x_values _ _ Ht Htx) as [[Et ->] | [[Et ->] | [Et ->]]];
        try lia; split; lra.
    + destruct (Hb Hu) as (_ & _ & Ex & _). unfold on_road. rewrite Ex.
      destruct (lane_x_values _ _ Ht Htx) as [[_ ->] | [[_ ->] | [_ ->]]];
        split; lra.
  - destruct (Hge Hp) as (_ & _ & Ex). unfold on_road. rewrite Ex. exact Hr.
Qed.

Lemma player_step_on_road op s p p' :
  player_step op s p p' ->
  player_ok p -> player_ok p' -> settled_ok p -> on_road p -> on_road p'.
Proof.
  intros Hstep Hp Hp' Hs Hr. destruct op; cbn [player_step] in Hstep.
  - destruct Hstep as [-> | [name ->]]; exact Hr.
  - destruct Hstep as [-> | ->]; [exact Hr|].
    unfold on_road.
    destruct (input_player_keeps msg now true p) as (_ & _ & _ & -> & _).
    exact Hr.
  - destruct Hstep as [-> | ->]; exact Hr.
  - subst. exact Hr.
  - eapply move_player_on_road; eauto.
  - subst. exact Hr.
  - destruct Hstep as [[_ Hch] | ->]; [|exact Hr].
    unfold on_road. rewrite (hit_chain_x _ _ _ _ Hch). exact Hr.
  - subst. unfold on_road. rewrite score_player_x. exact Hr.
  - subst. exact Hr.
  - subst. exact Hr.
  - subst. unfold on_road, reset_player. cbn. split; lra.
  - subst. exact Hr.
Qed.

Lemma reachable_settled_ok s :
  reachable s -> forall a p, In (a, p) (players s) -> settled_ok p.
Proof.
  induction 1 as [|s op s' Hs IH Hop He]; [intros a p []|].
  intros a p' Hin. destruct (reachable_ok s Hs) as [_ Hps].
  destruct (exec_players op s s' a p' He Hin)
    as [(p & Hp & Hstep) | (name & now & _ & ->)].
  - eapply player_step_settled_ok; eauto.
  - unfold settled_ok, new_player. cbn. split; [lia|].
    intros _. split; reflexivity.
Qed.

Lemma reachable_on_road s :
  reachable s -> forall a p, In (a, p) (players s) -> on_road p.
Proof.
  intros Hs. induction Hs as [|s op s' Hs IH Hop He]; [intros a p []|].
  intros a p' Hin.
  assert (Hs' : reachable s') by (eapply reach_step; eauto).
  destruct (reachable_ok s Hs) as [_ Hps].
  destruct (reachable_ok s' Hs') as [_ Hps'].
  destruct (exec_players op s s' a p' He Hin)
    as [(p & Hp & Hstep) | (name & now & _ & ->)].
  - exact (player_step_on_road op s p p' Hstep (Hps _ _ Hp) (Hps' _ _ Hin)
             (reachable_settled_ok s Hs _ _ Hp) (IH _ _ Hp)).
  - unfold on_road, new_player. cbn. split; lra.
Qed.

(** X17.  The easing curve of the lane change is not monotone into its
    target: on [0, 1] it stays within [0.1, 1.11], ends on 1 and exceeds 1 on
    the way (at one half, for instance), so a bike swings past the lane
    centre it is heading for before settling on it.  All the same, in every
    reachable state every bike is on the road: its x is between 278 and 722,
    the outer lane centres widened by that overshoot. *)
Theorem bike_stays_on_road (s : GameServer) :
  reachable s ->
  (forall u, 0 <= u -> u <= 1 ->
     0.1 <= ease_out_back u /\ ease_out_back u <= 1.11) /\
  ease_out_back 1 == 1 /\
  1 < ease_out_back 0.5 /\
  forall a p, In (a, p) (players s) ->
    278 <= Player.x p /\ Player.x p <= 722.
Proof.
  intros Hs.
  split; [intros u; apply ease_out_back_bounds|].
  split; [unfold ease_out_back; ring|].
  split; [vm_compute; reflexivity|].
  intros a p Hin. exact (reachable_on_road s Hs a p Hin).
Qed.

(** X17 on the state after the crash: ann's bike is on the road. *)
Lemma bike_stays_on_road_witness :
  match dict_get addr_eqb ann (players after_crash) with
  | Some p => 278 <= Player.x p /\ Player.x p <= 722
  | None => False
  end.
Proof.
  destruct (bike_stays_on_road after_crash after_crash_reachable)
    as (_ & _ & _ & H).
  destruct (dict_get addr_eqb ann (players after_crash)) as [p|] eqn:E;
    [|vm_compute in E; discriminate E].
  exact (H ann p (dict_get_In _ _ _ E)).
Defined.


(** ** The client's keys and its keepalive *)

Lemma Key_eq_dec (a b : Key) : {a = b} + {a <> b}.
Proof. decide equality. Qed.

Lemma Event_eq_dec (a b : Event) : {a = b} + {a <> b}.
Proof. decide equality; apply Key_eq_dec. Qed.

(** One event. *)
Lemma on_event_step gr k ev io m :
  let st := on_event gr ev (io, m) in
  (flag k (snd st) = true ->
   flag k m = true \/ gr = true /\ ev = KEYDOWN k /\ latch k io = false) /\
  (flag k m = true -> flag k (snd st) = true) /\
  (gr = true -> latch k io = false -> ev = KEYDOWN k -> k <> K_other ->
   flag k (snd st) = true) /\
  (gr = false -> snd st = m /\ (latch k (fst st) = true -> latch k io = true)) /\
  (ev <> KEYUP k -> latch k io = true -> latch k (fst st) = true) /\
  (ev <> KEYDOWN k -> latch k io = false -> latch k (fst st) = false) /\
  join_sent_at (fst st) = join_sent_at io /\
  last_send (fst st) = last_send io /\
  running (fst st) = running io && negb (is_quit ev).
Proof.
  destruct io as [js ls kl kr ku kd rn], m as [l r u d].
  destruct ev as [|key|key|]; [|destruct key; destruct gr|destruct key|];
    destruct k, kl, kr, ku, kd;
    cbn [on_event fst snd flag latch negb is_quit andb
         join_sent_at last_send key_left_down key_right_down key_up_down
         key_down_down running left right up down];
    rewrite ?andb_true_r, ?andb_false_r;
    repeat split; try tauto; try congruence; auto;
    try (intros; discriminate); try (intros; congruence).
Qed.

(** The event loop from any starting point. *)
Lemma poll_fold gr k evs :
  forall io m,
    let st := fold_left (fun st ev => on_event gr ev st) evs (io, m) in
    (flag k (snd st) = true ->
     flag k m = true \/
     gr = true /\ In (KEYDOWN k) evs /\
     (latch k io = false \/ In (KEYUP k) evs)) /\
    (flag k m = true -> flag k (snd st) = true) /\
    (gr = true -> latch k io = false -> In (KEYDOWN k) evs -> k <> K_other ->
     flag k (snd st) = true) /\
    (gr = false ->
     snd st = m /\ (latch k (fst st) = true -> latch k io = true)) /\
    (~ In (KEYUP k) evs -> latch k io = true -> latch k (fst st) = true) /\
    join_sent_at (fst st) = join_sent_at io /\
    last_send (fst st) = last_send io /\
    running (fst st) = running io && negb (existsb is_quit evs).
Proof.
  induction evs as [|ev evs IH]; intros io m.
  - cbn [fold_left fst snd existsb negb]. rewrite andb_true_r.
    repeat split; auto; try (intros; contradiction).
  - cbn [fold_left].
    destruct (on_event gr ev (io, m)) as [io1 m1] eqn:E.
    pose proof (on_event_step gr k ev io m) as Hstep.
    rewrite E in Hstep. cbn [fst snd] in Hstep.
    destruct Hstep as (Sa & Sb & Sc & Sd & Se & Sf & Sj & Sl & Sr).
    specialize (IH io1 m1). cbv zeta in IH |- *.
    destruct IH as (Ia & Ib & Ic & Id & Ie & Ij & Il & Ir).
    split; [|split; [|split; [|split; [|split; [|split; [|split]]]]]].
    + intros Hf. destruct (Ia Hf) as [H1 | (Hg & Hin & Hl)].
      * destruct (Sa H1) as [H | (Hg & -> & Hl)]; [left; exact H|].
        right. split; [exact Hg|]. split; [left; reflexivity | left; exact Hl].
      * right. split; [exact Hg|]. split; [right; exact Hin|].
        destruct Hl as [Hl | Hup]; [|right; right; exact Hup].
        destruct (latch k io) eqn:El; [|left; reflexivity].
        destruct (Event_eq_dec ev (KEYUP k)) as [-> | Hne];
          [right; left; reflexivity|].
        rewrite (Se Hne eq_refl) in Hl. discriminate Hl.
    + intros Hf. apply Ib, Sb, Hf.
    + intros Hg Hl [-> | Hin] Hk.
      * apply Ib. apply Sc; auto.
      * destruct (Event_eq_dec ev (KEYDOWN k)) as [-> | Hne].
        -- apply Ib. apply Sc; auto.
        -- apply Ic; auto.
    + intros Hg. destruct (Sd Hg) as [-> Hl1]. destruct (Id Hg) as [-> Hl2].
      split; [reflexivity|]. intros H. apply Hl1, Hl2, H.
    + intros Hno Hl. apply Ie; [intros H; apply Hno; right; exact H|].
      apply Se; [intros ->; apply Hno; left; reflexivity | exact Hl].
    + rewrite Ij. exact Sj.
    + rewrite Il. exact Sl.
    + rewrite Ir, Sr. cbn [existsb]. destruct (is_quit ev), (running io);
        reflexivity.
Qed.

(** X18.  The keys are edge triggered.  In one frame the message flag of an
    arrow key is set exactly when the round is running, a press of that key
    arrives, and the press finds the key released: a flag that is set needs
    the key up at the start of the frame or a release within it, and a key
    that is up at the start is reported by its first press.  So a key held
    down from an earlier frame is not reported again.  While no round is
    running no press is reported and no latch is set; the event loop stops
    the client exactly on QUIT and leaves both timers alone. *)
Theorem keys_are_edge_triggered (game_running : bool) (evs : list Event)
    (io : ClientIO) (k : Key) :
  let st := poll_events game_running evs io in
  (flag k (snd st) = true ->
   game_running = true /\ In (KEYDOWN k) evs /\
   (latch k io = false \/ In (KEYUP k) evs)) /\
  (game_running = true -> latch k io = false -> In (KEYDOWN k) evs ->
   k <> K_other -> flag k (snd st) = true) /\
  (latch k io = true -> ~ In (KEYUP k) evs ->
   flag k (snd st) = false /\ latch k (fst st) = true) /\
  (game_running = false ->
   snd st = mkInput false false false false /\
   (latch k (fst st) = true -> latch k io = true)) /\
  join_sent_at (fst st) = join_sent_at io /\
  last_send (fst st) = last_send io /\
  running (fst st) = running io && negb (existsb is_quit evs).
Proof.
  intros st. subst st. unfold poll_events.
  destruct (poll_fold game_running k evs io (mkInput false false false false))
    as (Ia & _ & Ic & Id & Ie & Ij & Il & Ir).
  assert (H0 : flag k (mkInput false false false false) = false)
    by (destruct k; reflexivity).
  assert (Ha : flag k (snd (fold_left
                  (fun st ev => on_event game_running ev st) evs
                  (io, mkInput false false false false))) = true ->
               game_running = true /\ In (KEYDOWN k) evs /\
               (latch k io = false \/ In (KEYUP k) evs)).
  { intros Hf. destruct (Ia Hf) as [H | H]; [|exact H].
    rewrite H0 in H. discriminate H. }
  split; [exact Ha|]. split; [exact Ic|].
  split.
  { intros Hl Hno. split; [|apply Ie; assumption].
    destruct (flag k _) eqn:Ef; [|reflexivity].
    destruct (Ha eq_refl) as (_ & _ & [H | H]);
      [rewrite Hl in H; discriminate H | contradiction]. }
  split; [exact Id|]. split; [exact Ij|]. split; [exact Il | exact Ir].
Qed.

(** X18 on two frames of a running round: the press of UP is reported in
    the frame it arrives in, and not in the next frame, where the key is
    still held. *)
Lemma keys_are_edge_triggered_witness :
  let io0 := mkIO 0 0 false false false false true in
  let st1 := poll_events true [KEYDOWN K_UP] io0 in
  flag K_UP (snd st1) = true /\
  flag K_UP (snd (poll_events true [other_event] (fst st1))) = false.
Proof.
  cbv zeta. split.
  - destruct (keys_are_edge_triggered true [KEYDOWN K_UP]
                (mkIO 0 0 false false false false true) K_UP)
      as (_ & Hpress & _).
    apply Hpress; [reflexivity | reflexivity | left; reflexivity | discriminate].
  - destruct (keys_are_edge_triggered true [other_event]
                (fst (poll_events true [KEYDOWN K_UP]
                        (mkIO 0 0 false false false false true))) K_UP)
      as (_ & _ & Hheld & _).
    apply Hheld; [reflexivity | intros [H | []]; discriminate H].
Defined.

Lemma retry_join_latch now confirmed io k :
  latch k (fst (retry_join now confirmed io)) = latch k io /\
  last_send (fst (retry_join now confirmed io)) = last_send io.
Proof.
  unfold retry_join. destruct (negb confirmed); [|split; reflexivity].
  destruct (Qle_bool _ _); split; destruct k; reflexivity.
Qed.

Lemma poll_events_not_pressed gr evs io k :
  not_pressed k evs io -> flag k (snd (poll_events gr evs io)) = false.
Proof.
  intros Hn. unfold poll_events.
  destruct (poll_fold gr k evs io (mkInput false false false false))
    as (Ia & _).
  destruct (flag k (snd _)) eqn:Ef; [|reflexivity].
  destruct (Ia eq_refl) as [H | (_ & Hin & Hl)].
  - destruct k; discriminate H.
  - destruct Hn as [Hn | [Hl' Hn]]; [contradiction|].
    destruct Hl as [Hl | Hup]; [congruence | contradiction].
Qed.

Lemma poll_fold_join_stamp gr j evs :
  forall io m,
    let st := fold_left (fun st ev => on_event gr ev st) evs (io, m) in
    let st1 :=
      fold_left (fun st ev => on_event gr ev st) evs
        (mkIO j (last_send io) (key_left_down io) (key_right_down io)
           (key_up_down io) (key_down_down io) (running io), m) in
    snd st1 = snd st /\ forall k, latch k (fst st1) = latch k (fst st).
Proof.
  induction evs as [|ev evs IH]; intros io m.
  - cbn [fold_left fst snd]. split; [reflexivity|].
    intros k; destruct k; reflexivity.
  - cbn [fold_left].
    assert (Hstep :
      exists io' m',
        on_event gr ev (io, m) = (io', m') /\
        on_event gr ev
          (mkIO j (last_send io) (key_left_down io) (key_right_down io)
             (key_up_down io) (key_down_down io) (running io), m)
        = (mkIO j (last_send io') (key_left_down io') (key_right_down io')
             (key_up_down io') (key_down_down io') (running io'), m')).
    { destruct io as [js ls kl kr ku kd rn].
      destruct ev as [|key|key|]; [|destruct key, gr, kl, kr, ku, kd
                                   |destruct key|];
        cbn [on_event negb join_sent_at last_send key_left_down
             key_right_down key_up_down key_down_down running];
        eexists _, _; split; reflexivity. }
    destruct Hstep as (io' & m' & -> & ->). apply IH.
Qed.

Lemma poll_events_join_stamp gr j evs io :
  snd (poll_events gr evs
         (mkIO j (last_send io) (key_left_down io) (key_right_down io)
            (key_up_down io) (key_down_down io) (running io)))
  = snd (poll_events gr evs io) /\
  forall k,
    latch k (fst (poll_events gr evs
                    (mkIO j (last_send io) (key_left_down io)
                       (key_right_down io) (key_up_down io)
                       (key_down_down io) (running io))))
    = latch k (fst (poll_events gr evs io)).
Proof. unfold poll_events. apply poll_fold_join_stamp. Qed.

(** X19.  The sending half of a frame sends at most one join followed by at
    most one input message, and which of them is decided by the two timers
    and the keys alone.  The join goes out exactly when the client is not
    confirmed and [JOIN_RETRY] has passed since the last one, and then the
    join timer restarts; otherwise no join is sent and the timer is left
    alone.  The input message goes out exactly when a key was reported in
    this frame or [HEARTBEAT_SEND_DT] has passed since the last send; it
    carries this frame's flags and restarts the send timer; otherwise
    nothing is sent and the timer is left alone.  Hence at the end of every
    frame the last send is less than [HEARTBEAT_SEND_DT] old, and for a
    client not yet confirmed the last join is less than [JOIN_RETRY] old.
    While no round is running the only input message is the idle
    keepalive. *)
Theorem frame_sends_rules (now : Q) (evs : list Event) (c : Client.t)
    (io : ClientIO) :
  let r := frame_sends now evs c io in
  let m := snd (poll_events (Client.game_running c) evs io) in
  let join_due :=
    Client.join_confirmed c = false /\ JOIN_RETRY <= now - join_sent_at io in
  let input_due :=
    flag K_LEFT m = true \/ flag K_RIGHT m = true \/ flag K_UP m = true \/
    flag K_DOWN m = true \/ HEARTBEAT_SEND_DT <= now - last_send io in
  (exists joins inputs,
     snd r = joins ++ inputs /\
     (joins = [send_join_msg] /\ join_due /\ join_sent_at (fst r) = now \/
      joins = [] /\ ~ join_due /\ join_sent_at (fst r) = join_sent_at io) /\
     (inputs = [send_input_msg m] /\ input_due /\ last_send (fst r) = now \/
      inputs = [] /\ ~ input_due /\ last_send (fst r) = last_send io)) /\
  now - last_send (fst r) < HEARTBEAT_SEND_DT /\
  (Client.join_confirmed c = false -> now - join_sent_at (fst r) < JOIN_RETRY) /\
  (Client.game_running c = false ->
   forall m', In (send_input_msg m') (snd r) ->
     m' = mkInput false false false false /\
     HEARTBEAT_SEND_DT <= now - last_send io) /\
  (forall k, latch k (fst r)
             = latch k (fst (poll_events (Client.game_running c) evs io))).
Proof.
  cbv zeta. unfold frame_sends.
  assert (Hj : exists io1 joins,
            retry_join now (Client.join_confirmed c) io = (io1, joins) /\
            (joins = [send_join_msg] /\
             (Client.join_confirmed c = false /\
              JOIN_RETRY <= now - join_sent_at io) /\
             join_sent_at io1 = now \/
             joins = [] /\
             ~ (Client.join_confirmed c = false /\
                JOIN_RETRY <= now - join_sent_at io) /\
             join_sent_at io1 = join_sent_at io) /\
            (Client.join_confirmed c = false ->
             now - join_sent_at io1 < JOIN_RETRY) /\
            (forall m', ~ In (send_input_msg m') joins) /\
            io1 = mkIO (join_sent_at io1) (last_send io) (key_left_down io)
                    (key_right_down io) (key_up_down io) (key_down_down io)
                    (running io)).
  { unfold retry_join. destruct (Client.join_confirmed c); cbn [negb].
    - exists io, []. split; [reflexivity|].
      split; [right; split; [reflexivity|]; split;
              [intros [H _]; discriminate H | reflexivity]|].
      split; [discriminate|]. split; [intros m' []|].
      destruct io; reflexivity.
    - destruct (Qle_bool JOIN_RETRY (now - join_sent_at io)) eqn:E.
      + eexists _, _. split; [reflexivity|].
        split; [left; split; [reflexivity|]; split;
                [split; [reflexivity | apply Qle_bool_iff; exact E]
                |reflexivity]|].
        split; [intros _; cbn [join_sent_at]; unfold JOIN_RETRY; lra|].
        split; [intros m' [H | []]; discriminate H | reflexivity].
      + apply Qle_bool_gt in E.
        exists io, []. split; [reflexivity|].
        split; [right; split; [reflexivity|]; split;
                [intros [_ H]; lra | reflexivity]|].
        split; [intros _; exact E|].
        split; [intros m' [] | destruct io; reflexivity]. }
  destruct Hj as (io1 & joins & -> & Hjoins & Hjd & Hnoin & Eio1).
  assert (Hsame : forall gr,
            snd (poll_events gr evs io1) = snd (poll_events gr evs io) /\
            forall k, latch k (fst (poll_events gr evs io1))
                      = latch k (fst (poll_events gr evs io))).
  { intros gr. rewrite Eio1. apply poll_events_join_stamp. }
  destruct (poll_events (Client.game_running c) evs io1) as [io2 m2] eqn:Ep.
  destruct (Hsame (Client.game_running c)) as [Em Hl].
  rewrite Ep in Em, Hl. cbn [fst snd] in Em, Hl. rewrite <- Em.
  assert (Hls : last_send io2 = last_send io).
  { destruct (poll_fold (Client.game_running c) K_other evs io1
                (mkInput false false false false))
      as (_ & _ & _ & _ & _ & _ & H & _).
    unfold poll_events in Ep. rewrite Ep in H. cbn [fst] in H.
    rewrite H, Eio1. reflexivity. }
  assert (Hjs : join_sent_at io2 = join_sent_at io1).
  { destruct (poll_fold (Client.game_running c) K_other evs io1
                (mkInput false false false false))
      as (_ & _ & _ & _ & _ & H & _).
    unfold poll_events in Ep. rewrite Ep in H. exact H. }
  rewrite <- Hjs in Hjoins.
  unfold send_frame. rewrite Hls.
  destruct (left m2 || right m2 || up m2 || down m2
            || Qle_bool HEARTBEAT_SEND_DT (now - last_send io)) eqn:Esend;
    cbn [fst snd last_send join_sent_at].
  - assert (Hwhy : flag K_LEFT m2 = true \/ flag K_RIGHT m2 = true \/
                   flag K_UP m2 = true \/ flag K_DOWN m2 = true \/
                   HEARTBEAT_SEND_DT <= now - last_send io).
    { cbn [flag]. repeat rewrite orb_true_iff in Esend.
      rewrite Qle_bool_iff in Esend. tauto. }
    split; [|split; [|split; [|split]]].
    + exists joins, [send_input_msg m2]. split; [reflexivity|].
      split; [exact Hjoins|]. left. split; [reflexivity|].
      split; [exact Hwhy | reflexivity].
    + unfold HEARTBEAT_SEND_DT. lra.
    + intros Hc. rewrite Hjs. apply Hjd, Hc.
    + intros Hgr m' Hin. apply in_app_or in Hin.
      destruct Hin as [Hin | [Hin | []]]; [destruct (Hnoin _ Hin)|].
      injection Hin as <-.
      destruct (poll_fold (Client.game_running c) K_other evs io1
                  (mkInput false false false false))
        as (_ & _ & _ & Hidle & _).
      unfold poll_events in Ep. rewrite Ep in Hidle. cbn [snd] in Hidle.
      destruct (Hidle Hgr) as [-> _]. split; [reflexivity|].
      cbn [flag left right up down] in Hwhy.
      destruct Hwhy as [H | [H | [H | [H | H]]]];
        try discriminate H; exact H.
    + intros k. rewrite <- Hl. destruct k; reflexivity.
  - assert (Hnot : ~ (flag K_LEFT m2 = true \/ flag K_RIGHT m2 = true \/
                      flag K_UP m2 = true \/ flag K_DOWN m2 = true \/
                      HEARTBEAT_SEND_DT <= now - last_send io)).
    { cbn [flag]. repeat rewrite orb_false_iff in Esend.
      destruct Esend as [[[[E1 E2] E3] E4] E5]. apply Qle_bool_gt in E5.
      rewrite E1, E2, E3, E4.
      intros [H | [H | [H | [H | H]]]]; try discriminate H. lra. }
    split; [|split; [|split; [|split]]].
    + exists joins, []. split; [reflexivity|].
      split; [exact Hjoins|]. right. split; [reflexivity|].
      split; [exact Hnot | exact Hls].
    + rewrite Hls. repeat rewrite orb_false_iff in Esend.
      destruct Esend as [_ E]. apply Qle_bool_gt. exact E.
    + intros Hc. rewrite Hjs. apply Hjd, Hc.
    + intros _ m' Hin. rewrite app_nil_r in Hin. destruct (Hnoin _ Hin).
    + intros k. apply Hl.
Qed.

(** X19 on a client that has just started, two seconds in: the join and
    the keepalive are both due, both go out, and both timers restart. *)
Lemma frame_sends_rules_witness :
  snd (frame_sends 2 [] Client.init (mkIO 0 0 false false false false true))
  = [send_join_msg; send_input_msg (mkInput false false false false)] /\
  2 - last_send (fst (frame_sends 2 [] Client.init
                        (mkIO 0 0 false false false false true)))
    < HEARTBEAT_SEND_DT /\
  2 - join_sent_at (fst (frame_sends 2 [] Client.init
                           (mkIO 0 0 false false false false true)))
    < JOIN_RETRY.
Proof.
  destruct (frame_sends_rules 2 [] Client.init
              (mkIO 0 0 false false false false true))
    as ((joins & inputs & Hsent & Hj & Hi) & Hsend & Hjoin & _).
  split; [|split; [exact Hsend | exact (Hjoin eq_refl)]].
  rewrite Hsent.
  destruct Hj as [(-> & _) | (_ & Hn & _)].
  - destruct Hi as [(-> & _) | (_ & Hn & _)]; [reflexivity|].
    exfalso. apply Hn. right. right. right. right. vm_compute. discriminate.
  - exfalso. apply Hn. split; [reflexivity | vm_compute; discriminate].
Defined.

Lemma move_player_still gp dt p q :
  move_player gp dt p = Some q ->
  Player.vertical_speed p = 0 -> Player.y q = Player.y p.
Proof.
  unfold move_player. intros Hm Hv.
  destruct (Qltb (Player.move_progress p) 1).
  - cbn [Player.lane Player.target_lane Player.move_progress
         Player.set_move_progress Player.set_x Player.set_lane] in Hm.
    destruct (lane_x (Player.lane p)) as [sx|]; [|discriminate].
    destruct (lane_x (Player.target_lane p)) as [tx|]; [|discriminate].
    destruct (Qle_bool 1 _); cbn beta iota in Hm;
      cbn [Player.vertical_speed Player.set_x Player.set_lane
           Player.set_move_progress] in Hm;
      rewrite Hv in Hm; cbn [Qeq_bool negb] in Hm;
      change (Qeq_bool 0 0) with true in Hm; cbn [negb] in Hm;
      injection Hm as <-; reflexivity.
  - rewrite Hv in Hm. change (Qeq_bool 0 0) with true in Hm. cbn [negb] in Hm.
    injection Hm as <-. reflexivity.
Qed.

Lemma frame_sends_input now evs c io m :
  In (send_input_msg m) (snd (frame_sends now evs c io)) ->
  m = snd (poll_events (Client.game_running c) evs io).
Proof.
  unfold frame_sends.
  assert (Hj : exists j joins,
            retry_join now (Client.join_confirmed c) io
            = (mkIO j (last_send io) (key_left_down io) (key_right_down io)
                 (key_up_down io) (key_down_down io) (running io), joins) /\
            forall m', ~ In (send_input_msg m') joins).
  { unfold retry_join. destruct (negb _).
    - destruct (Qle_bool _ _).
      + eexists _, _. split; [reflexivity|].
        intros m' [H | []]; discriminate H.
      + exists (join_sent_at io), []. split; [destruct io; reflexivity|].
        intros m' [].
    - exists (join_sent_at io), []. split; [destruct io; reflexivity|].
      intros m' []. }
  destruct Hj as (j & joins & -> & Hno).
  destruct (poll_events_join_stamp (Client.game_running c) j evs io)
    as [Em _].
  destruct (poll_events _ evs (mkIO _ _ _ _ _ _ _)) as [io2 m2].
  cbn [snd] in Em. subst m2.
  unfold send_frame. destruct (_ || _); cbn [snd]; intros Hin.
  - apply in_app_or in Hin. destruct Hin as [Hin | [Hin | []]];
      [destruct (Hno _ Hin)|]. injection Hin as <-. reflexivity.
  - rewrite app_nil_r in Hin. destruct (Hno _ Hin).
Qed.

(** X20.  A dodge lasts until the client's next message.  Whatever input
    message a frame sends in which UP and DOWN are not newly pressed (no
    press arrives, or the key is merely held), the server, in a running
    round, answers by stopping the sender's vertical movement: the speed is
    0, the height is untouched and the following movement ticks leave it
    where it is; the message counts as a heartbeat.  With the client's
    keepalive this bounds a dodge by [HEARTBEAT_SEND_DT] plus one frame,
    however long the key is held. *)
Theorem dodge_ends_with_next_message (now now' : Q) (evs : list Event)
    (c : Client.t) (io : ClientIO) (m : InputMsg) (s : GameServer)
    (a : Addr) (p : Player.t) :
  reachable s -> game_running s = true ->
  dict_get addr_eqb a (players s) = Some p ->
  In (send_input_msg m) (snd (frame_sends now evs c io)) ->
  not_pressed K_UP evs io -> not_pressed K_DOWN evs io ->
  up m = false /\ down m = false /\
  exists p',
    dict_get addr_eqb a (players (fst (handle_input m a now' s))) = Some p' /\
    Player.vertical_speed p' = 0 /\
    Player.last_heartbeat p' = now' /\
    Player.y p' = Player.y p /\
    forall dt q,
      move_player (game_progress s) dt p' = Some q -> Player.y q = Player.y p.
Proof.
  intros Hs Hrun Hg Hin Hup Hdown.
  apply frame_sends_input in Hin. subst m.
  pose proof (poll_events_not_pressed (Client.game_running c) evs io K_UP Hup)
    as Eu.
  pose proof (poll_events_not_pressed (Client.game_running c) evs io K_DOWN
                Hdown) as Ed.
  cbn [flag] in Eu, Ed.
  split; [exact Eu|]. split; [exact Ed|].
  destruct (reachable_ok s Hs) as [_ Hps].
  destruct (Hps a p (dict_get_In _ _ _ Hg)) as (Hl & _).
  unfold handle_input. rewrite Hg, Hrun. cbn [negb fst players set_players].
  eexists. split; [apply dict_get_set_same|].
  rewrite (input_player_running _ now' p Hl).
  cbn [Player.vertical_speed Player.last_heartbeat Player.y].
  assert (Ev : wanted_speed (snd (poll_events (Client.game_running c) evs io))
               = 0)
    by (unfold wanted_speed; rewrite Eu, Ed; reflexivity).
  split; [exact Ev|]. split; [reflexivity|]. split; [reflexivity|].
  intros dt q Hm. apply move_player_still in Hm; [exact Hm | exact Ev].
Qed.

(** X20 on ann after the crash: she holds UP, the client's keepalive of the
    next second arrives, and she stands still. *)
Lemma dodge_ends_with_next_message_witness :
  exists p',
    dict_get addr_eqb ann
      (players (fst (handle_input (mkInput false false false false) ann 107
                       after_crash))) = Some p' /\
    Player.vertical_speed p' = 0.
Proof.
  destruct (dict_get addr_eqb ann (players after_crash)) as [p|] eqn:E;
    [|vm_compute in E; discriminate E].
  destruct (dodge_ends_with_next_message 107 107 [] seen_client
              (mkIO 100 106 false false true false true)
              (mkInput false false false false) after_crash ann p
              after_crash_reachable)
    as (_ & _ & p' & Hg & Hv & _).
  - reflexivity.
  - exact E.
  - vm_compute. right. left. reflexivity.
  - right. split; [reflexivity | intros []].
  - left. intros [].
  - exists p'. split; [exact Hg | exact Hv].
Defined.


(** ** The scoreboard and the finish screen *)

Lemma insert_by_score_perm e l : Permutation (insert_by_score e l) (e :: l).
Proof.
  induction l as [|y l IH]; cbn [insert_by_score]; [reflexivity|].
  destruct (_ <? _)%Z; [|reflexivity].
  rewrite IH. apply perm_swap.
Qed.

Lemma sorted_list_perm vs : Permutation (fold_right insert_by_score [] vs) vs.
Proof.
  induction vs as [|e vs IH]; cbn [fold_right]; [reflexivity|].
  rewrite insert_by_score_perm. constructor. exact IH.
Qed.

Lemma insert_by_score_sorted e l :
  StronglySorted beats_or_ties l ->
  StronglySorted beats_or_ties (insert_by_score e l).
Proof.
  induction 1 as [|y l Hs IH Hy]; cbn [insert_by_score].
  - repeat constructor.
  - destruct (_ <? _)%Z eqn:E.
    + apply Z.ltb_lt in E. constructor; [exact IH|].
      apply (Permutation_Forall (Permutation_sym (insert_by_score_perm e l))).
      constructor; [unfold beats_or_ties; lia | exact Hy].
    + apply Z.ltb_ge in E. constructor; [constructor; assumption|].
      constructor; [exact E|].
      eapply Forall_impl; [|exact Hy]. unfold beats_or_ties.
      intros z Hz. lia.
Qed.

Lemma sorted_list_sorted vs :
  StronglySorted beats_or_ties (fold_right insert_by_score [] vs).
Proof.
  induction vs as [|e vs IH]; cbn [fold_right]; [constructor|].
  apply insert_by_score_sorted, IH.
Qed.

Lemma sorted_list_head vs :
  match hd_error (fold_right insert_by_score [] vs) with
  | None => vs = []
  | Some w =>
      exists l1 l2,
        vs = l1 ++ w :: l2 /\
        Forall (fun e => (Client.entry_score e < Client.entry_score w)%Z) l1 /\
        Forall (fun e => (Client.entry_score e <= Client.entry_score w)%Z) l2
  end.
Proof.
  induction vs as [|e vs IH]; cbn [fold_right]; [reflexivity|].
  destruct (fold_right insert_by_score [] vs) as [|y l] eqn:E;
    cbn [hd_error insert_by_score] in *.
  - subst vs. exists [], []. repeat split; constructor.
  - destruct IH as (l1 & l2 & -> & H1 & H2).
    destruct (_ <? _)%Z eqn:Elt; cbn [hd_error].
    + apply Z.ltb_lt in Elt. exists (e :: l1), l2.
      split; [reflexivity|]. split; [constructor; assumption | exact H2].
    + apply Z.ltb_ge in Elt. exists [], (l1 ++ y :: l2).
      split; [reflexivity|]. split; [constructor|].
      apply Forall_app. split.
      * eapply Forall_impl; [|exact H1]. intros z Hz. cbn beta in Hz. lia.
      * constructor; [exact Elt|].
        eapply Forall_impl; [|exact H2]. intros z Hz. cbn beta in Hz. lia.
Qed.

(** X21.  The scoreboard lists exactly the entries the client holds, each
    once, in descending order of score.  The winner named on the finish
    screen is the first entry in the client's dictionary among those with
    the highest score: every entry before it has a strictly lower score and
    no entry after it a higher one.  Ties go to the player the client heard
    of first. *)
Theorem scoreboard_winner (c : Client.t) :
  Permutation (sorted_scores c) (dict_values (Client.player_scores c)) /\
  StronglySorted beats_or_ties (sorted_scores c) /\
  (forall w, winner_info c = Some w ->
     Client.game_running c = false /\ Client.game_time_left c == 0 /\
     exists l1 l2,
       dict_values (Client.player_scores c) = l1 ++ w :: l2 /\
       Forall (fun e => (Client.entry_score e < Client.entry_score w)%Z) l1 /\
       Forall (fun e => (Client.entry_score e <= Client.entry_score w)%Z) l2) /\
  (Client.game_running c = false -> Client.game_time_left c == 0 ->
   Client.player_scores c <> [] -> winner_info c <> None).
Proof.
  unfold winner_info, sorted_scores.
  split; [apply sorted_list_perm|]. split; [apply sorted_list_sorted|].
  pose proof (sorted_list_head (dict_values (Client.player_scores c))) as Hh.
  split.
  - intros w Hw.
    destruct (Client.game_running c); [discriminate Hw|]. cbn [negb andb] in Hw.
    destruct (Qeq_bool _ 0) eqn:E0; [|discriminate Hw].
    apply Qeq_bool_iff in E0. rewrite Hw in Hh. auto.
  - intros -> H0 Hne. apply Qeq_bool_iff in H0. rewrite H0. cbn [negb andb].
    destruct (hd_error _); [discriminate|].
    destruct (Client.player_scores c); [contradiction | discriminate Hh].
Qed.

(** X21 on a tie: bob and ann both hold 120 points, cy 90; bob, first in
    the dictionary, is named. *)
Lemma scoreboard_winner_witness :
  exists l1 l2,
    [Client.mkScore "cy" 90 false; Client.mkScore "bob" 120 false;
     Client.mkScore "ann" 120 true]
    = l1 ++ Client.mkScore "bob" 120 false :: l2 /\
    Forall (fun e => (Client.entry_score e < 120)%Z) l1 /\
    Forall (fun e => (Client.entry_score e <= 120)%Z) l2.
Proof.
  destruct (scoreboard_winner
              (Client.mk 7 false 0 [] []
                 [(3%Z, Client.mkScore "cy" 90 false);
                  (1%Z, Client.mkScore "bob" 120 false);
                  (2%Z, Client.mkScore "ann" 120 true)] [] (Some 1%Z) true))
    as (_ & _ & Hw & _).
  destruct (Hw (Client.mkScore "bob" 120 false) eq_refl) as (_ & _ & H).
  exact H.
Defined.

Lemma zdict_set_nonempty {V : Type} k (v : V) d : dict_set Z.eqb k v d <> [].
Proof.
  destruct d as [|[j w] d]; cbn [dict_set]; [discriminate|].
  destruct (Z.eqb _ _); discriminate.
Qed.

Lemma fold_apply_scores entries :
  forall c,
    Client.player_scores c <> [] ->
    Client.player_scores (fold_left apply_entry entries c) <> [].
Proof.
  induction entries as [|e entries IH]; intros c Hc; [exact Hc|].
  cbn [fold_left]. apply IH. unfold apply_entry. cbn [Client.player_scores].
  apply zdict_set_nonempty.
Qed.

Lemma fold_apply_scores_nonempty entries c :
  entries <> [] ->
  Client.player_scores (fold_left apply_entry entries c) <> [].
Proof.
  destruct entries as [|e entries]; [contradiction|]. intros _.
  cbn [fold_left]. apply fold_apply_scores. unfold apply_entry.
  cbn [Client.player_scores]. apply zdict_set_nonempty.
Qed.

Lemma py_max_zero_iff x : py_max 0 x == 0 <-> x <= 0.
Proof.
  unfold py_max. destruct (Qltb 0 x) eqn:E.
  - apply Qltb_lt in E. split; intros H; lra.
  - apply Qltb_ge in E. split; intros H; [exact E | reflexivity].
Qed.

(** X22.  The finish screen waits for the clock.  The last broadcast of a
    round, the one [end_game] sends after clearing the running flag, is
    applied by a client that has not seen its number, which then knows the
    round is over.  It names a winner exactly when that broadcast left at or
    after the game duration and somebody is tracked.  A round that ends
    early, because every player has finished, leaves time on the clock: the
    client is told the round is over but draws no finish screen. *)
Theorem finish_screen_needs_time_up (now t0 : Q) (failed : list Addr)
    (s : GameServer) (c : Client.t) :
  start_time s = Some t0 -> ~ t0 == 0 ->
  (Client.last_seq c < state_sequence s + 1)%Z ->
  let sent := state_message now (set_game_running false s) in
  let c' := fst (Client.on_state (received_state sent) c) in
  game_running (end_game failed s) = false /\
  state_sequence (end_game failed s) = st_seq sent /\
  snd (Client.on_state (received_state sent) c) = Client.Applied /\
  Client.game_running c' = false /\
  (now - t0 < GAME_DURATION s -> winner_info c' = None) /\
  (GAME_DURATION s <= now - t0 -> players s <> [] ->
   exists w, winner_info c' = Some w /\ hd_error (sorted_scores c') = Some w).
Proof.
  intros Hst Ht0 Hseq. cbv zeta.
  split; [reflexivity|]. split; [reflexivity|].
  set (entries := map player_entry (dict_values (players s))).
  unfold Client.on_state, received_state, state_message.
  cbn [Client.seq st_seq Client.msg_game_running Client.msg_time_left
       Client.msg_players Client.msg_obstacles st_game_running st_time_left
       st_players st_obstacles Client.get_default set_game_running
       state_sequence players start_time GAME_DURATION game_running].
  assert (E : (state_sequence s + 1 <=? Client.last_seq c)%Z = false)
    by (apply Z.leb_gt; exact Hseq).
  rewrite E. fold entries.
  change (map (fun e => Client.mkInfo (Some (pe_id e)) (Some (pe_x e))
                          (Some (pe_y e)) (Some (pe_name e))
                          (Some (pe_score e)) (Some (pe_finished e))) entries)
    with (map received_entry entries).
  rewrite update_players_fold.
  match goal with
  | |- context [fold_left apply_entry entries ?c0] => set (c1 := c0)
  end.
  destruct (fold_apply_fields entries c1) as (_ & F2 & F3 & _).
  cbv zeta in F2, F3. cbn [fst snd].
  split; [reflexivity|].
  unfold winner_info, sorted_scores.
  cbn [Client.game_running Client.game_time_left Client.player_scores].
  rewrite F2, F3. subst c1. cbn [Client.game_running Client.game_time_left].
  assert (Etr : truthy (Some t0) = true).
  { unfold truthy. destruct (Qeq_bool t0 0) eqn:E0; [|reflexivity].
    apply Qeq_bool_iff in E0. contradiction. }
  rewrite Hst, Etr. cbn [negb andb].
  split; [reflexivity|]. split.
  - intros Hearly.
    destruct (Qeq_bool _ 0) eqn:E0; [|reflexivity].
    apply Qeq_bool_iff, py_max_zero_iff in E0. lra.
  - intros Hup Hne.
    assert (E0 : Qeq_bool (py_max 0 (GAME_DURATION s - (now - t0))) 0 = true).
    { apply Qeq_bool_iff, py_max_zero_iff. lra. }
    rewrite E0.
    match goal with
    | |- context [fold_left apply_entry entries ?c0] =>
        pose proof (fold_apply_scores_nonempty entries c0) as Hsc
    end.
    assert (Hent : entries <> []).
    { subst entries. unfold dict_values.
      destruct (players s); [contradiction | discriminate]. }
    specialize (Hsc Hent).
    match type of Hsc with
    | Client.player_scores ?c2 <> [] =>
        pose proof (sorted_list_head (dict_values (Client.player_scores c2)))
          as Hh;
        destruct (hd_error (fold_right insert_by_score []
                              (dict_values (Client.player_scores c2))))
          as [w|] eqn:Ew
    end.
    + exists w. split; reflexivity.
    + exfalso. apply Hsc.
      match type of Hh with
      | dict_values ?d = [] => destruct d; [reflexivity | discriminate Hh]
      end.
Qed.

(** X22 on the crash session: were the round closed at 106, six seconds
    in, a fresh client taking the closing broadcast would name no winner. *)
Lemma finish_screen_needs_time_up_witness :
  winner_info
    (fst (Client.on_state
            (received_state
               (state_message 106 (set_game_running false after_crash)))
            Client.init)) = None.
Proof.
  destruct (finish_screen_needs_time_up 106 100 [] after_crash Client.init)
    as (_ & _ & _ & _ & Hearly & _);
    [reflexivity | vm_compute; discriminate | vm_compute; reflexivity |].
  apply Hearly. vm_compute. reflexivity.
Defined.


(** ** The geometry of a hit *)

Lemma reachable_obstacles_ok s :
  reachable s -> forall obs, In obs (obstacles s) -> obstacle_ok obs.
Proof.
  intros Hs.
  assert (H : (List.length (obstacles s) <= MAX_OBSTACLES)%nat /\
              Forall obstacle_ok (obstacles s)).
  { induction Hs as [|s op s' _ IH Hop He].
    - cbn. split; [lia | constructor].
    - eapply exec_obstacles_ok; eauto. }
  apply Forall_forall. exact (proj2 H).
Qed.

Lemma obstacle_ok_size obs :
  obstacle_ok obs ->
  (60 <= Obstacle.width obs /\ Obstacle.width obs <= 100) /\
  (70 <= Obstacle.height obs /\ Obstacle.height obs <= 180).
Proof.
  intros (_ & _ & -> & -> & _).
  destruct (Obstacle.type obs); cbn; repeat split; lra.
Qed.

Lemma check_collision_box p obs :
  check_collision p obs = true <->
  Qabs (Player.x p - Obstacle.x obs) < Obstacle.width obs / 2 + 25 /\
  Qabs (Player.y p - Obstacle.y obs) < Obstacle.height obs / 2 + 35.
Proof.
  unfold check_collision. cbv zeta.
  rewrite !andb_true_iff, !Qltb_lt, !Qabs_Qlt_condition.
  split; intros H; repeat split; lra.
Qed.

(** X23.  The geometry of a hit in a reachable state.  The test is an
    overlap of boxes: the centres are closer than half the obstacle's width
    plus 25 in x and than half its height plus 35 in y.  For a bike settled
    in the obstacle's lane only the heights count.  A bike that is 75 or
    more away from the centre of the lane it is registered in, as happens in
    the middle of a lane change, is hit by nothing: the obstacles of its
    lane are out of reach and those of the other lanes are not considered. *)
Theorem collision_geometry (s : GameServer) (a : Addr) (p : Player.t)
    (obs : Obstacle.t) :
  reachable s -> In (a, p) (players s) -> In obs (obstacles s) ->
  (check_collision p obs = true <->
   Qabs (Player.x p - Obstacle.x obs) < Obstacle.width obs / 2 + 25 /\
   Qabs (Player.y p - Obstacle.y obs) < Obstacle.height obs / 2 + 35) /\
  (Obstacle.lane obs = Player.lane p -> 1 <= Player.move_progress p ->
   (check_collision p obs = true <->
    Qabs (Player.y p - Obstacle.y obs) < Obstacle.height obs / 2 + 35)) /\
  (forall cx now,
     lane_x (Player.lane p) = Some cx -> 75 <= Qabs (Player.x p - cx) ->
     collide now obs p = (lazy_reset now p, false)).
Proof.
  intros Hs Hp Hobs.
  pose proof (reachable_obstacles_ok s Hs obs Hobs) as Hok.
  destruct (obstacle_ok_size obs Hok) as [[Hw0 Hw1] _].
  destruct Hok as (_ & Hox & _).
  assert (Hhalf : Obstacle.width obs / 2 == Obstacle.width obs * (1 # 2))
    by field.
  split; [apply check_collision_box|]. split.
  - intros Hlane Hmp.
    destruct (reachable_settled_ok s Hs a p Hp) as [_ Hset].
    destruct (Hset Hmp) as [_ Hpx].
    rewrite Hlane, Hpx in Hox. injection Hox as Ex.
    rewrite check_collision_box, Ex, !Qabs_Qlt_condition.
    split; intros H; repeat split; lra.
  - intros cx now Hcx Hfar. unfold collide.
    destruct (_ || _); [reflexivity|].
    rewrite check_collision_lazy_reset.
    assert (El : Player.lane (lazy_reset now p) = Player.lane p)
      by (destruct (lazy_reset_cases now p) as [-> | ->]; reflexivity).
    rewrite El.
    destruct (Obstacle.lane obs =? Player.lane p)%Z eqn:Elane;
      [|rewrite andb_false_r; reflexivity].
    apply Z.eqb_eq in Elane. rewrite Elane, Hcx in Hox. injection Hox as Ex.
    destruct (check_collision p obs) eqn:Ec; [|reflexivity].
    apply check_collision_box in Ec. destruct Ec as [Hx _].
    rewrite <- Ex in Hx. lra.
Qed.

(** X23 just before the crash: ann is settled in the lane of the obstacle
    ahead, so whether it hits her is a matter of heights only. *)
Lemma collision_geometry_witness :
  match dict_get addr_eqb ann (players before_crash),
        obstacles before_crash with
  | Some p, obs :: _ =>
      check_collision p obs = true <->
      Qabs (Player.y p - Obstacle.y obs) < Obstacle.height obs / 2 + 35
  | _, _ => False
  end.
Proof.
  destruct (dict_get addr_eqb ann (players before_crash)) as [p|] eqn:E;
    [|vm_compute in E; discriminate E].
  destruct (obstacles before_crash) as [|obs rest] eqn:Eo;
    [vm_compute in Eo; discriminate Eo|].
  destruct (collision_geometry before_crash ann p obs before_crash_reachable)
    as (_ & Hsettled & _).
  - exact (dict_get_In _ _ _ E).
  - rewrite Eo. left. reflexivity.
  - vm_compute in E, Eo. injection E as <-. injection Eo as <- _.
    apply Hsettled; [reflexivity | vm_compute; discriminate].
Defined.

